(** * Nearest-neighbour TSP search (tsp.c): a shallow embedding and its properties

    The development follows the layout of [tsp.c]:
    - [Int]: the C++ [int] type, as [Z] with 32-bit two's-complement wrap-around;
    - [Cost], [City], [initCosts]: the symmetric distance matrix;
    - [calcPath]: the greedy tour builder of [Path::calcPath];
    - [bounds_t], [runthread]: one worker iterating over its range of start cities;
    - [main]: partitioning of the start cities, the workers, and the reduction
      into [global_best_length] / [global_best_path].
    - [read], [print], [printPath], [parse_args], [tsp]: the text of the input
      and output files and the command line.

    Vectors are lists with stdpp's lookup [l !! i] and update [<[i:=x]> l];
    every subscript is checked, and an out-of-range subscript (undefined in
    C++) is the fault [OutOfBounds].

    The workers read [cost_matrix], [cities] and [global_stop_time], which
    nobody writes once they run, and meet only in the critical section at the
    end of [runthread].  A run of [main] is therefore given by the run of each
    worker on its own and by the order in which the workers take the mutex,
    which is a parameter ([lock_order]); so is the wall clock, as the values
    [time(NULL)] returns to each worker at its successive deadline checks
    ([clock]).  [main] is the search, from the list of cities and the values
    of the options on; [tsp] is the whole program: the argument loop,
    [Cities::read] on the text of the input file, [main], and the text
    [Path::printPath] writes. *)

From Stdlib Require Import ZArith Lia String Ascii Reals Lra.
From stdpp Require Import base tactics numbers list list_numbers strings pretty.

Local Open Scope Z_scope.

(** ** The [int] type *)

Module Int.

Definition INT_MAX : Z := 2147483647.
Definition INT_MIN : Z := -2147483648.

Definition in_range (z : Z) : Prop := INT_MIN <= z <= INT_MAX.

(** Reduction of a mathematical integer to its 32-bit two's-complement
    representative. *)
Definition wrap (z : Z) : Z := (z - INT_MIN) `mod` 4294967296 + INT_MIN.

Definition add (a b : Z) : Z := wrap (a + b).
Definition sub (a b : Z) : Z := wrap (a - b).
Definition mul (a b : Z) : Z := wrap (a * b).

(** [a / b] of C++ truncates towards zero; [b = 0] is undefined and is
    ruled out before the call (see [main]). *)
Definition div (a b : Z) : Z := wrap (a `quot` b).

Global Arguments wrap : simpl never.
Global Arguments add : simpl never.
Global Arguments sub : simpl never.
Global Arguments mul : simpl never.
Global Arguments div : simpl never.

End Int.

Abbreviation INT_MAX := Int.INT_MAX.
Abbreviation INT_MIN := Int.INT_MIN.

(** Side conditions "this value fits in an [int]". *)
Ltac int_range := unfold Int.in_range, INT_MIN, INT_MAX in *; nia.

(** ** Faults and the result monad

    [assert(closest != -1)] aborts the process; a subscript outside a vector
    is undefined behaviour.  Both end the computation. *)

Inductive fault : Type :=
| AssertionFailed
| OutOfBounds.

Inductive result (A : Type) : Type :=
| Ok (a : A)
| Fault (f : fault).
Arguments Ok {A} a.
Arguments Fault {A} f.

Definition bind {A B : Type} (r : result A) (k : A -> result B) : result B :=
  match r with
  | Ok a => k a
  | Fault f => Fault f
  end.

Notation "'do' x <- e ; k" := (bind e (fun x => k))
  (at level 10, x pattern, e at level 100, k at level 200).

(** [for (int i = lo; cnt-- > 0; i++) st = body i st], stopping at a fault. *)
Fixpoint for_range {St : Type} (cnt : nat) (lo : Z)
    (body : Z -> St -> result St) (st : St) : result St :=
  match cnt with
  | O => Ok st
  | S k => do st' <- body lo st; for_range k (lo + 1) body st'
  end.

(** Checked subscripts on a vector. *)
Definition vec_get {A : Type} (v : list A) (i : Z) : result A :=
  if i <? 0 then Fault OutOfBounds
  else match v !! Z.to_nat i with
       | Some a => Ok a
       | None => Fault OutOfBounds
       end.

Definition vec_set {A : Type} (v : list A) (i : Z) (a : A) : result (list A) :=
  if (0 <=? i) && (i <? Z.of_nat (length v)) then Ok (<[Z.to_nat i := a]> v)
  else Fault OutOfBounds.

(** ** The distance matrix ([Cost], [City], [Cities::initCosts]) *)

Record City : Type := mkCity { city_x : Z; city_y : Z }.

(** [std::vector< std::vector<int> > matrix], accessed as [matrix[r][c]]. *)
Abbreviation Cost := (list (list Z)).

(** [matrix.resize(sz, std::vector<int>(sz, 0))] on the empty matrix. *)
Definition resize (sz : Z) : Cost :=
  replicate (Z.to_nat sz) (replicate (Z.to_nat sz) 0).

Definition getCost (m : Cost) (r c : Z) : result Z :=
  do row <- vec_get m r; vec_get row c.

Definition setCost (m : Cost) (r c cost : Z) : result Cost :=
  do row <- vec_get m r;
  do row' <- vec_set row c cost;
  vec_set m r row'.

(** [(int)(sqrt((double)k) + 0.5)] for an [int] k.

    For [0 <= k <= INT_MAX] the exact value of [sqrt k + 1/2] is never an
    integer (that would need [4k = (2n+1)^2], even = odd) and stays more than
    [1/400000] away from one ([round_sqrt_margin] below), while the square
    root, below 46341, is correctly rounded by IEEE arithmetic and the sum
    adds one more rounding, together an error of some [1e-11].  Truncation
    therefore gives [floor (sqrt k + 1/2)], which is the integer
    [(floor (sqrt (4k)) + 1) / 2].
    For [k < 0] the square root is a NaN, whose conversion to [int] is
    undefined; x86-64 produces [INT_MIN]. *)
Definition round_sqrt (k : Z) : Z :=
  if k <? 0 then INT_MIN else (Z.sqrt (4 * k) + 1) / 2.

(** The value stored for the pair of cities [a], [b]:
      int delx = a.x - b.x;  int dely = a.y - b.y;
      sqrt(delx*delx + dely*dely) + 0.5 *)
Definition city_cost (a b : City) : Z :=
  let delx := Int.sub (city_x a) (city_x b) in
  let dely := Int.sub (city_y a) (city_y b) in
  round_sqrt (Int.add (Int.mul delx delx) (Int.mul dely dely)).

(** The body of the inner loop of [initCosts], for row [r] and column [c]. *)
Definition initCosts_body (city_vec : list City) (r c : Z) (m : Cost) : result Cost :=
  do cr <- vec_get city_vec r;
  do cc <- vec_get city_vec c;
  do m1 <- setCost m r c (city_cost cr cc);
  do v <- getCost m1 r c;
  setCost m1 c r v.

Definition initCosts (city_vec : list City) : result Cost :=
  let num_cities := Z.of_nat (length city_vec) in
  for_range (Z.to_nat num_cities) 0
    (fun r m => for_range (Z.to_nat (num_cities - r)) r (initCosts_body city_vec r) m)
    (resize num_cities).

(** ** The tour builder ([Path::calcPath]) *)

Record Path : Type := mkPath { path : list Z; pathcost : Z }.

(** The scan of the [curr_city] row: one iteration of
      for (int ix=0; ix<c.size(); ix++)
        if ((!inpath[ix]) && (getCost(curr_city, ix) < closest_cost)) {
          closest = ix;  closest_cost = getCost(curr_city, closest); }
    on the pair [(closest, closest_cost)]. *)
Definition scan_body (m : Cost) (inpath : list bool) (curr_city : Z)
    (ix : Z) (st : Z * Z) : result (Z * Z) :=
  do visited <- vec_get inpath ix;
  if visited then Ok st
  else
    do d <- getCost m curr_city ix;
    if d <? snd st then
      let closest := ix in
      do closest_cost <- getCost m curr_city closest;
      Ok (closest, closest_cost)
    else Ok st.

Definition scan (m : Cost) (n : Z) (inpath : list bool) (curr_city : Z) : result (Z * Z) :=
  for_range (Z.to_nat n) 0 (scan_body m inpath curr_city) (-1, INT_MAX).

(** The variables live across the main loop of [calcPath]. *)
Record calc_state : Type := mkCalc {
  inpath : list bool;
  cs_path : list Z;
  cs_pathcost : Z;
  curr_city : Z
}.

(** One iteration of [for (int i=1; i<c.size(); i++)]. *)
Definition calc_body (m : Cost) (n : Z) (i : Z) (st : calc_state) : result calc_state :=
  do found <- scan m n (inpath st) (curr_city st);
  let closest := fst found in
  if closest =? -1 then Fault AssertionFailed
  else
    do inpath' <- vec_set (inpath st) closest true;
    do d <- getCost m (curr_city st) closest;
    Ok (mkCalc inpath' (cs_path st ++ [closest]) (Int.add (cs_pathcost st) d) closest).

(** [calcPath] on a freshly constructed [Path] (empty [path], [pathcost] 0),
    as [runthread] calls it; [n] is [c.size()].  The resulting [pathcost]
    is also the value returned. *)
Definition calcPath (m : Cost) (n : Z) (start_city : Z) : result Path :=
  do inpath0 <- vec_set (replicate (Z.to_nat n) false) start_city true;
  do st <- for_range (Z.to_nat (n - 1)) 1 (calc_body m n)
             (mkCalc inpath0 ([] ++ [start_city]) 0 start_city);
  do d <- getCost m (curr_city st) start_city;
  Ok (mkPath (cs_path st) (Int.add (cs_pathcost st) d)).

(** ** Partition of the start cities ([main], "Threaded Algorithm") *)

Record bounds_t : Type := Bounds { b_start : Z; b_end : Z }.

(** [int range = (cities.size() - start_city) / num_threads;] *)
Definition range_of (ncities start_city num_threads : Z) : Z :=
  Int.div (Int.sub ncities start_city) num_threads.

(** The body of the thread-creation loop for index [i]:
      bounds[i].start = i*range + start_city;
      bounds[i].end = bounds[i].start + range;
      if (i == num_threads - 1) bounds[i].end = cities.size() + 1; *)
Definition bounds_of (ncities start_city num_threads range i : Z) : bounds_t :=
  let st := Int.add (Int.mul i range) start_city in
  let en := Int.add st range in
  if i =? Int.sub num_threads 1
  then Bounds st (Int.add ncities 1)
  else Bounds st en.

(** The whole [bounds] vector once the loop has run. *)
Definition partition (ncities start_city num_threads : Z) : list bounds_t :=
  let range := range_of ncities start_city num_threads in
  bounds_of ncities start_city num_threads range <$> seqZ 0 num_threads.

(** The clamp at the head of [runthread]:
      if (b->end > cities.size()) b->end = cities.size(); *)
Definition clamp_end (ncities : Z) (b : bounds_t) : bounds_t :=
  if ncities <? b_end b then Bounds (b_start b) ncities else b.

(** The start cities a worker's loop
      for (int start_city = b->start; start_city < b->end; start_city++)
    ranges over. *)
Definition cities_of (b : bounds_t) : list Z :=
  seqZ (b_start b) (b_end b - b_start b).


(** ** One worker ([runthread]) *)

Record local_best : Type := mkLocal {
  local_best_length : Z;
  local_best_path : option Path
}.

(** How a worker ends: [exit(-1)] after a message on stderr, a fault inside
    [calcPath], or the normal return with its local best. *)
Inductive thread_end : Type :=
| Thread_exit (msg : string)
| Thread_fault (f : fault)
| Thread_done (l : local_best).

(** [evaluated] records, in order, the start cities for which [calcPath]
    ran to completion, with the tour it produced. *)
Record thread_run : Type := mkRun {
  evaluated : list (Z * Path);
  ending : thread_end
}.

(** [(global_stop_time > 0) && (time(NULL) > global_stop_time)], where [now]
    is the value [time(NULL)] returns at this check. *)
Definition deadline_passed (global_stop_time now : Z) : bool :=
  (0 <? global_stop_time) && (global_stop_time <? now).

(** The comparison after each tour:
      int length = path->calcPath(cities, start_city);
      if (length < local_best_length) { local_best_length = length; local_best_path = path; } *)
Definition adopt (lb : local_best) (p : Path) : local_best :=
  let length := pathcost p in
  if length <? local_best_length lb then mkLocal length (Some p) else lb.

(** The loop over the start cities.  [cnt] iterations remain, [k] counts
    the deadline checks made so far and [clock k] is the time read at
    check [k]. *)
Fixpoint worker_loop (m : Cost) (n : Z) (global_stop_time : Z) (clock : nat -> Z)
    (cnt k : nat) (start_city : Z) (lb : local_best) (ev : list (Z * Path))
    : thread_run :=
  match cnt with
  | O => mkRun ev (Thread_done lb)
  | S cnt' =>
      if deadline_passed global_stop_time (clock k) then mkRun ev (Thread_done lb)
      else
        match calcPath m n start_city with
        | Fault f => mkRun ev (Thread_fault f)
        | Ok p =>
            worker_loop m n global_stop_time clock cnt' (S k) (start_city + 1)
              (adopt lb p) (ev ++ [(start_city, p)])
        end
  end.

Definition runthread (m : Cost) (n : Z) (global_stop_time : Z) (clock : nat -> Z)
    (b : bounds_t) : thread_run :=
  if n <? b_start b then mkRun [] (Thread_exit "Start city exceeds city count")
  else
    let b' := clamp_end n b in
    worker_loop m n global_stop_time clock
      (Z.to_nat (b_end b' - b_start b')) 0 (b_start b') (mkLocal INT_MAX None) [].

(** ** The shared best tour and [main] *)

Record registry : Type := mkRegistry {
  global_best_length : Z;
  global_best_path : option Path
}.

Definition registry_init : registry := mkRegistry INT_MAX None.

(** The critical section at the end of [runthread]. *)
Definition offer (g : registry) (l : local_best) : registry :=
  if local_best_length l <? global_best_length g
  then mkRegistry (local_best_length l) (local_best_path l)
  else g.

Definition offer_run (g : registry) (r : thread_run) : registry :=
  match ending r with
  | Thread_done l => offer g l
  | _ => g
  end.

(** The runs of all workers, by thread index; worker [i] reads the clock
    [clock i]. *)
Definition thread_runs (m : Cost) (n start_city num_threads global_stop_time : Z)
    (clock : nat -> nat -> Z) : list thread_run :=
  imap (fun i b => runthread m n global_stop_time (clock i) b)
       (partition n start_city num_threads).

(** The registry once every worker has made its offer; [lock_order] lists
    the thread indices in the order in which they took the mutex. *)
Definition take_turn (runs : list thread_run) (g : registry) (i : nat) : registry :=
  match runs !! i with
  | Some r => offer_run g r
  | None => g
  end.

Definition reduce (runs : list thread_run) (lock_order : list nat) : registry :=
  foldl (take_turn runs) registry_init lock_order.

(** How a run of [main] ends:
    - [Uncaught_exception]: [std::vector<bounds_t> bounds(num_threads)] with a
      negative [num_threads], which converts to a size beyond [max_size()];
      the constructor throws and nothing catches;
    - [Division_by_zero]: [(cities.size() - start_city) / num_threads] with
      [num_threads] 0, undefined in C++ (a trap on x86);
    - [Exit_failure msg]: [msg] on stderr, then [exit(-1)];
    - [Aborted f]: a failed assertion or a wild subscript inside a worker;
    - [Null_best_path]: [global_best_path->printPath(outfile)] is reached
      with [global_best_path] still [NULL];
    - [Printed p]: [printPath] prints the cost and the cities of [p], and
      [main] returns 0. *)
Inductive outcome : Type :=
| Uncaught_exception
| Division_by_zero
| Exit_failure (msg : string)
| Aborted (f : fault)
| Null_best_path
| Printed (p : Path).

(** The message of the first worker (by index) that called [exit], and the
    fault of the first that hit one, if any. *)
Fixpoint first_exit (runs : list thread_run) : option string :=
  match runs with
  | [] => None
  | r :: rs => match ending r with
               | Thread_exit msg => Some msg
               | _ => first_exit rs
               end
  end.

Fixpoint first_fault (runs : list thread_run) : option fault :=
  match runs with
  | [] => None
  | r :: rs => match ending r with
               | Thread_fault f => Some f
               | _ => first_fault rs
               end
  end.

(** [main] after argument parsing and [cities.read]: [city_vec] is the input,
    [start_city], [num_threads] and [global_stop_time] come from [-s], [-t]
    and [-T].  [pthread_create] and [pthread_join] are taken to succeed. *)
Definition main (city_vec : list City) (start_city num_threads global_stop_time : Z)
    (clock : nat -> nat -> Z) (lock_order : list nat) : outcome :=
  match initCosts city_vec with
  | Fault f => Aborted f
  | Ok m =>
      let n := Z.of_nat (length city_vec) in
      if num_threads <? 0 then Uncaught_exception
      else if num_threads =? 0 then Division_by_zero
      else
        let runs := thread_runs m n start_city num_threads global_stop_time clock in
        match first_exit runs, first_fault runs with
        | Some msg, _ => Exit_failure msg
        | None, Some f => Aborted f
        | None, None =>
            match global_best_path (reduce runs lock_order) with
            | None => Null_best_path
            | Some p => Printed p
            end
        end
  end.

(** ** The C library, as far as [tsp.c] calls it

    Text is a [string]; [%d] prints an [int] as stdpp's [pretty] does
    (decimal digits, a minus sign before a negative number). *)

Definition newline : ascii := "010"%char.

(** The run of decimal digits at the head of [s], read as the continuation
    of the number [acc], and what follows it. *)
Fixpoint digits (acc : Z) (s : string) : Z * string :=
  match s with
  | String c s' =>
      match Ascii.is_nat c with
      | Some d => digits (10 * acc + Z.of_nat d) s'
      | None => (acc, s)
      end
  | EmptyString => (acc, s)
  end.

(** White space ([isspace]) at the head of [s] is dropped. *)
Fixpoint skip_space (s : string) : string :=
  match s with
  | String c s' => if Ascii.is_space c then skip_space s' else s
  | EmptyString => s
  end.

Definition is_digit (c : ascii) : bool :=
  match Ascii.is_nat c with
  | Some _ => true
  | None => false
  end.

Definition starts_with_digit (s : string) : bool :=
  match s with
  | String c _ => is_digit c
  | EmptyString => false
  end.

(** The number [strtol(s, &end, 10)] and the [%d] of [scanf] read: white
    space, an optional sign, then at least one digit.  The result is the
    mathematical value and the text after the last digit, or [None] where
    no digit follows. *)
Definition scan_int (s : string) : option (Z * string) :=
  let s1 := skip_space s in
  let '(negative, s2) :=
    match s1 with
    | String "-" r => (true, r)
    | String "+" r => (false, r)
    | _ => (false, s1)
    end in
  if starts_with_digit s2
  then let '(v, rest) := digits 0 s2 in
       Some (if negative : bool then - v else v, rest)
  else None.

Definition fits_int (v : Z) : bool := (INT_MIN <=? v) && (v <=? INT_MAX).

(** The [int] that glibc makes of the number [v] it has read: [strtol]
    gives a [long], the nearest one if [v] is outside its range, and the
    conversion to [int] keeps the low 32 bits.  (C leaves a number that does
    not fit undefined.) *)
Definition LONG_MAX : Z := 9223372036854775807.
Definition LONG_MIN : Z := -9223372036854775808.

Definition to_int (v : Z) : Z := Int.wrap (Z.max LONG_MIN (Z.min LONG_MAX v)).

(** [atoi(nptr)] for a non-null [nptr], that is [(int)strtol(nptr, NULL, 10)]:
    0 where [nptr] holds no number. *)
Definition atoi (nptr : string) : Z :=
  match scan_int nptr with
  | Some (v, _) => to_int v
  | None => 0
  end.

(** One [%d] directive storing into an [int]. *)
Definition scan_d (s : string) : option (Z * string) :=
  match scan_int s with
  | Some (v, rest) => if fits_int v then Some (v, rest) else None
  | None => None
  end.

(** [sscanf(buffer, "%d %d %d", &id, &x, &y)] on uninitialised [id], [x],
    [y]: the three values when all three conversions succeed.  When fewer
    do, the remaining variables keep indeterminate values, and a number that
    does not fit is undefined: [None] in both cases.  The blanks of the
    format skip white space.  A NUL byte in the buffer ends the C string;
    being no digit, sign or white space, it ends the scan here as well. *)
Definition sscanf (buffer : string) : option (Z * Z * Z) :=
  '(id, r1) ← scan_d buffer;
  '(x, r2) ← scan_d (skip_space r1);
  '(y, _) ← scan_d (skip_space r2);
  Some (id, x, y).

(** [fgets(buffer, room + 1, f)] on a stream with the characters [f] left:
    the characters stored, at most [room] and none after a newline, and the
    characters left on the stream.  [fgets] returns [NULL] when the stream
    is at its end, and only then. *)
Fixpoint fgets (room : nat) (f : string) : string * string :=
  match room, f with
  | S room', String c f' =>
      if Ascii.eqb c newline then (String c "", f')
      else let '(buffer, rest) := fgets room' f' in (String c buffer, rest)
  | _, _ => (""%string, f)
  end.

(** ** Reading and printing ([Cities::read], [Cities::print], [Path::printPath]) *)

(** What [read] leaves in [city_vec], as far as the text of the file
    determines it; [Indeterminate] when a line did not give three numbers,
    so that a city was built from uninitialised variables.  The loop goes on
    all the same: [read_stored] below. *)
Inductive cities_read : Type :=
| Cities (city_vec : list City)
| Indeterminate.

(** The loop
      while (fgets(buffer, sizeof(buffer), f) != NULL) {
        int id, x, y;
        sscanf(buffer, "%d %d %d", &id, &x, &y);
        city_vec.push_back(City(x, y)); }
    with [sizeof(buffer)] 1000.  Every turn takes at least one character off
    the stream, so [fuel] at least the length of [f] is never used up. *)
Fixpoint read_from (fuel : nat) (f : string) (city_vec : list City) : cities_read :=
  match fuel, f with
  | S fuel', String _ _ =>
      let '(buffer, rest) := fgets 999 f in
      match sscanf buffer with
      | Some (_, x, y) => read_from fuel' rest (city_vec ++ [mkCity x y])
      | None => Indeterminate
      end
  | _, _ => Cities city_vec
  end.

(** [cities.read(f)] on the empty [cities], [f] being the content of the file. *)
Definition read (f : string) : cities_read := read_from (String.length f) f [].

(** What [sscanf(buffer, "%d %d %d", &id, &x, &y)] leaves in [id], [x] and
    [y], given what they held before the call: every conversion that
    succeeds stores its number, and the first that fails ends the call and
    leaves the variables not yet assigned as they were. *)
Definition sscanf_stored (vars : Z * Z * Z) (buffer : string) : Z * Z * Z :=
  let '(id, x, y) := vars in
  match scan_int buffer with
  | None => (id, x, y)
  | Some (v0, r1) =>
      match scan_int (skip_space r1) with
      | None => (to_int v0, x, y)
      | Some (v1, r2) =>
          match scan_int (skip_space r2) with
          | None => (to_int v0, to_int v1, y)
          | Some (v2, _) => (to_int v0, to_int v1, to_int v2)
          end
      end
  end.

(** The loop of [read] as the compiled program runs it.  [read] does not
    look at what [sscanf] returns and pushes a city in every turn.  [id],
    [x] and [y] are not initialised; they have the same storage in every
    turn, so a variable [sscanf] did not assign holds the value of the turn
    before, and in the first turn what the storage held on entry, [vars]. *)
Fixpoint read_stored_from (fuel : nat) (f : string) (vars : Z * Z * Z)
    (city_vec : list City) : list City :=
  match fuel, f with
  | S fuel', String _ _ =>
      let '(buffer, rest) := fgets 999 f in
      let '(id, x, y) := sscanf_stored vars buffer in
      read_stored_from fuel' rest (id, x, y) (city_vec ++ [mkCity x y])
  | _, _ => city_vec
  end.

Definition read_stored (vars : Z * Z * Z) (f : string) : list City :=
  read_stored_from (String.length f) f vars [].

(** The line [fprintf(f, "%d %d %d\n", i, x, y)] writes. *)
Definition city_line (i : Z) (c : City) : string :=
  pretty i +:+ " " +:+ pretty (city_x c) +:+ " " +:+ pretty (city_y c)
  +:+ String newline "".

(** The text [print] writes to a non-null [f]. *)
Definition print (city_vec : list City) : string :=
  foldr String.append "" (imap (fun i c => city_line (Z.of_nat i) c) city_vec).

(** The text [printPath] writes to a non-null [outfile]: the cost, then the
    cities of the tour, one number to a line. *)
Definition printPath (p : Path) : string :=
  pretty (pathcost p) +:+ String newline ""
  +:+ foldr String.append "" ((fun c => pretty c +:+ String newline "") <$> path p).

(** ** The command line and the whole program ([main]) *)

(** The variables the argument loop of [main] sets; [arg_stop_time] is
    [global_stop_time].  A file that was opened is kept by its name. *)
Record settings : Type := mkSettings {
  verbose_flag : bool;
  arg_start_city : Z;
  arg_num_threads : Z;
  arg_stop_time : Z;
  infile : option string;
  outfile : option string
}.

(** Their values before the loop:
      int num_threads = 1;  int start_city = 0;
      FILE *infile = NULL, *outfile = NULL;  verbose_flag = false;
    and the initialiser [time_t global_stop_time = 0]. *)
Definition defaults : settings := mkSettings false 0 1 0 None None.

(** What a run meets outside the program:
    - [time_at i]: the value of [time(NULL)] when argument [i] is a [-T];
    - [opens_for_reading], [opens_for_writing]: whether [fopen(name, "r")]
      and [fopen(name, "w")] succeed;
    - [input]: the characters the input stream delivers to [read];
    - [stack]: what the storage of [id], [x] and [y] holds when [read] is
      entered;
    - [clock], [lock_order]: as for the search. *)
Record system : Type := mkSystem {
  time_at : nat -> Z;
  opens_for_reading : string -> bool;
  opens_for_writing : string -> bool;
  input : string;
  stack : Z * Z * Z;
  clock : nat -> nat -> Z;
  lock_order : list nat
}.

(** How the argument loop ends:
    - [Parse_exit msg]: [msg] on stderr (for [perror], its argument), then
      [exit(-1)];
    - [Null_argument]: an option that takes a value is the last argument;
      [i++] moves to [argv[argc]], which is null, and [atoi] reads through it;
    - [Parsed st]: the loop ran to its end. *)
Inductive parse_end : Type :=
| Parse_exit (msg : string)
| Null_argument
| Parsed (st : settings).

(** The loop [for (int i=1; i<argc; i++)] from [argv[i]] on; [args] are
    [argv[i]], ..., [argv[argc-1]].  [time_t] is a 64-bit integer, so the sum
    [time(NULL) + timelimit] is exact. *)
Fixpoint parse_args (sys : system) (i : nat) (args : list string) (st : settings)
    : parse_end :=
  match args with
  | [] => Parsed st
  | a :: rest =>
      if String.eqb a "-v" then
        parse_args sys (S i) rest
          (mkSettings true (arg_start_city st) (arg_num_threads st) (arg_stop_time st)
             (infile st) (outfile st))
      else if String.eqb a "-s" then
        match rest with
        | [] => Null_argument
        | v :: rest' =>
            let start_city := atoi v in
            parse_args sys (S (S i)) rest'
              (mkSettings (verbose_flag st) start_city (arg_num_threads st)
                 (arg_stop_time st) (infile st) (outfile st))
        end
      else if String.eqb a "-T" then
        match rest with
        | [] => Null_argument
        | v :: rest' =>
            let timelimit := atoi v in
            parse_args sys (S (S i)) rest'
              (mkSettings (verbose_flag st) (arg_start_city st) (arg_num_threads st)
                 (time_at sys i + timelimit) (infile st) (outfile st))
        end
      else if String.eqb a "-t" then
        match rest with
        | [] => Null_argument
        | v :: rest' =>
            let num_threads := atoi v in
            parse_args sys (S (S i)) rest'
              (mkSettings (verbose_flag st) (arg_start_city st) num_threads
                 (arg_stop_time st) (infile st) (outfile st))
        end
      else
        match infile st, outfile st with
        | None, _ =>
            if opens_for_reading sys a then
              parse_args sys (S i) rest
                (mkSettings (verbose_flag st) (arg_start_city st) (arg_num_threads st)
                   (arg_stop_time st) (Some a) (outfile st))
            else Parse_exit "failed to open input file"
        | Some _, None =>
            if opens_for_writing sys a then
              parse_args sys (S i) rest
                (mkSettings (verbose_flag st) (arg_start_city st) (arg_num_threads st)
                   (arg_stop_time st) (infile st) (Some a))
            else Parse_exit "failed to open output file"
        | Some _, Some _ => Parse_exit ("Error on argument: '" +:+ a +:+ "'")
        end
  end.

(** How a run of the program ends:
    - [Usage]: no argument; the usage text on stderr, then [exit(0)];
    - [Stopped e]: the argument loop ended in [e], or, with [e] the message
      "No input file specified", the check after it failed;
    - [Ran o written]: the search ended in [o]; [written] is absent if no
      output file was named, and otherwise the text in the output file,
      which [fopen] emptied and to which only [printPath] writes.
    What [-v] prints on stdout is not part of the result. *)
Inductive finish : Type :=
| Usage
| Stopped (e : parse_end)
| Ran (o : outcome) (written : option string).

Definition no_input_file (prog : string) : string :=
  prog +:+ " : No input file specified ... exiting".

(** The program, [main(argc, argv)] with [argv[0]] = [prog] and the
    arguments [args].  Whatever [read] made of the input, the search runs
    on it. *)
Definition tsp (sys : system) (prog : string) (args : list string) : finish :=
  match args with
  | [] => Usage
  | _ :: _ =>
      match parse_args sys 1 args defaults with
      | Parsed st =>
          match infile st with
          | None => Stopped (Parse_exit (no_input_file prog))
          | Some _ =>
              let city_vec := read_stored (stack sys) (input sys) in
              let o := main city_vec (arg_start_city st) (arg_num_threads st)
                         (arg_stop_time st) (clock sys) (lock_order sys) in
              Ran o (match outfile st with
                     | None => None
                     | Some _ => Some (match o with
                                       | Printed p => printPath p
                                       | _ => ""%string
                                       end)
                     end)
          end
      | e => Stopped e
      end
  end.

(** ** Reading a matrix and a tour, for the statements *)

(** [matrix[i][j]], with 0 where the subscript is wild. *)
Definition entry (m : Cost) (i j : Z) : Z :=
  match getCost m i j with
  | Ok v => v
  | Fault _ => 0
  end.

Definition is_square (m : Cost) (n : Z) : Prop :=
  Z.of_nat (length m) = n /\ Forall (fun row => Z.of_nat (length row) = n) m.

(** The invariant of the distance matrix: symmetric, zero diagonal,
    non-negative entries. *)
Record distance_matrix (m : Cost) (n : Z) : Prop := {
  dm_square : is_square m n;
  dm_sym : forall i j, 0 <= i < n -> 0 <= j < n -> entry m i j = entry m j i;
  dm_diag : forall i, 0 <= i < n -> entry m i i = 0;
  dm_nonneg : forall i j, 0 <= i < n -> 0 <= j < n -> 0 <= entry m i j
}.

(** [tour[k]], with 0 where the subscript is wild. *)
Definition tour_at (tour : list Z) (k : nat) : Z := default 0 (tour !! k).

(** The cost of a tour recomputed from the matrix:
    [sum (matrix[tour[k]][tour[k+1]] for k in 0..N-2) + matrix[tour[N-1]][tour[0]]]. *)
Definition edge_sum (m : Cost) (tour : list Z) : Z :=
  foldr Z.add 0 ((fun k => entry m (tour_at tour k) (tour_at tour (S k)))
                   <$> seq 0 (length tour - 1)).

Definition tour_cost (m : Cost) (tour : list Z) : Z :=
  edge_sum m tour + entry m (tour_at tour (length tour - 1)) (tour_at tour 0).

(** [nxt] is an unvisited city nearest to [cur], and the lowest-numbered
    among the nearest. *)
Definition nearest_unvisited (m : Cost) (n : Z) (visited : list Z) (cur nxt : Z) : Prop :=
  0 <= nxt < n /\ (nxt ∉ visited) /\
  forall j, 0 <= j < n -> (j ∉ visited) ->
    entry m cur nxt <= entry m cur j /\ (entry m cur j = entry m cur nxt -> nxt <= j).

(** Every step of the tour is a nearest-neighbour choice with respect to
    the cities visited before it. *)
Definition greedy_tour (m : Cost) (n : Z) (tour : list Z) : Prop :=
  forall (k : nat) (cur nxt : Z),
    tour !! k = Some cur -> tour !! S k = Some nxt ->
    nearest_unvisited m n (take (S k) tour) cur nxt.

(** The cost [initCosts] computes for the cities numbered [i] and [j]. *)
Definition cost_at (city_vec : list City) (i j : Z) : Z :=
  match city_vec !! Z.to_nat i, city_vec !! Z.to_nat j with
  | Some a, Some b => city_cost a b
  | _, _ => 0
  end.

(** The Euclidean distance of two cities, as a real number. *)
Definition euclid (a b : City) : R :=
  sqrt ((IZR (city_x a) - IZR (city_x b)) * (IZR (city_x a) - IZR (city_x b))
        + (IZR (city_y a) - IZR (city_y b)) * (IZR (city_y a) - IZR (city_y b)))%R.

(** [e] is [x] rounded to the nearest integer, a tie going up:
    [e - 1/2 <= x < e + 1/2]. *)
Definition rounds_half_up (x : R) (e : Z) : Prop :=
  (IZR e - / 2 <= x < IZR e + / 2)%R.

(** The squared distance of two cities, computed exactly. *)
Definition sq_dist (a b : City) : Z :=
  (city_x a - city_x b) * (city_x a - city_x b)
  + (city_y a - city_y b) * (city_y a - city_y b).

(** No intermediate value of [initCosts] leaves the [int] range: the squared
    distance of every two cities fits. *)
Definition coords_fit (city_vec : list City) : Prop :=
  Forall (fun a => Forall (fun b => sq_dist a b <= INT_MAX) city_vec) city_vec.

(** The tour [calcPath] builds from [c]. *)
Definition tour_of (m : Cost) (n c : Z) : Path :=
  match calcPath m n c with
  | Ok p => p
  | Fault _ => mkPath [] INT_MAX
  end.

(** The least of a list of costs, as comparisons starting from [INT_MAX]
    find it. *)
Definition least (costs : list Z) : Z := foldr Z.min INT_MAX costs.

(** How many start cities a worker evaluates before a deadline check
    succeeds: [cnt] remain and [k] checks were made so far. *)
Fixpoint stop_index (global_stop_time : Z) (clock : nat -> Z) (cnt k : nat) : nat :=
  match cnt with
  | O => O
  | S cnt' => if deadline_passed global_stop_time (clock k) then O
              else S (stop_index global_stop_time clock cnt' (S k))
  end.

(** The run of a worker that no deadline stops: every start city of its
    clamped range, and the best of their tours. *)
Definition full_run (m : Cost) (n : Z) (b : bounds_t) : thread_run :=
  let starts := cities_of (clamp_end n b) in
  mkRun ((fun c => (c, tour_of m n c)) <$> starts)
        (Thread_done (foldl adopt (mkLocal INT_MAX None) (tour_of m n <$> starts))).

(** The least tour cost over the start cities [start_city .. n-1], as the
    comparisons against [INT_MAX] compute it. *)
Definition min_cost (m : Cost) (n start_city : Z) : Z :=
  least ((fun c => pathcost (tour_of m n c)) <$> seqZ start_city (n - start_city)).

(** ** Loop invariants *)

(** [initCosts]: the pairs already filled when the loops stand at row [r],
    column [c]. *)
Definition filled (r c i j : Z) : Prop :=
  Z.min i j < r \/ (Z.min i j = r /\ Z.max i j < c).

Definition filled_upto (city_vec : list City) (r c : Z) (m : Cost) : Prop :=
  is_square m (Z.of_nat (length city_vec)) /\
  forall i j, 0 <= i < Z.of_nat (length city_vec) ->
              0 <= j < Z.of_nat (length city_vec) ->
    entry m i j =
      if bool_decide (filled r c i j)
      then cost_at city_vec (Z.min i j) (Z.max i j) else 0.

(** [calcPath]: what the scan of row [cur] knows after the columns below
    [ix]: either nothing unvisited was met, or [st] holds the first of the
    nearest unvisited cities met. *)
Definition scan_inv (m : Cost) (inp : list bool) (cur ix : Z) (st : Z * Z) : Prop :=
  (st = (-1, INT_MAX) /\
   forall j, 0 <= j < ix -> inp !! Z.to_nat j = Some true)
  \/
  (0 <= st.1 < ix /\ inp !! Z.to_nat st.1 = Some false /\
   st.2 = entry m cur st.1 /\
   forall j, 0 <= j < ix -> inp !! Z.to_nat j = Some false ->
     st.2 <= entry m cur j /\ (entry m cur j = st.2 -> st.1 <= j)).

(** [calcPath]: the invariant of the main loop when [i] cities are on the
    path. *)
Definition calc_inv (m : Cost) (n start_city i : Z) (st : calc_state) : Prop :=
  Z.of_nat (length (inpath st)) = n /\
  Z.of_nat (length (cs_path st)) = i /\
  NoDup (cs_path st) /\
  (forall c, c ∈ cs_path st -> 0 <= c < n) /\
  (forall c, 0 <= c < n ->
     inpath st !! Z.to_nat c = Some (bool_decide (c ∈ cs_path st))) /\
  head (cs_path st) = Some start_city /\
  last (cs_path st) = Some (curr_city st) /\
  cs_pathcost st = Int.wrap (edge_sum m (cs_path st)) /\
  greedy_tour m n (cs_path st).

(** The best length a worker hands over: [INT_MAX] unless it returned. *)
Definition run_length (r : thread_run) : Z :=
  match ending r with
  | Thread_done l => local_best_length l
  | _ => INT_MAX
  end.

(** The registry holds the cost of the tour it holds, and holds a tour as
    soon as its length is below [INT_MAX]. *)
Definition registry_ok (g : registry) : Prop :=
  global_best_length g <= INT_MAX /\
  (forall p, global_best_path g = Some p -> pathcost p = global_best_length g) /\
  (global_best_length g < INT_MAX -> is_Some (global_best_path g)).

Definition local_ok (l : local_best) : Prop :=
  local_best_length l <= INT_MAX /\
  (forall p, local_best_path l = Some p -> pathcost p = local_best_length l) /\
  (local_best_length l < INT_MAX -> is_Some (local_best_path l)).

Definition run_ok (r : thread_run) : Prop :=
  match ending r with
  | Thread_done l => local_ok l
  | _ => True
  end.

(** ** Further notions for the statements *)

(** The costs of the tours a worker evaluated, and of all workers together. *)
Definition run_costs (r : thread_run) : list Z := pathcost <$> (evaluated r).*2.

Definition evaluated_costs (runs : list thread_run) : list Z :=
  mjoin (run_costs <$> runs).

(** The local best a worker returns is what the comparisons of [adopt] leave
    of the tours it evaluated, in the order it evaluated them. *)
Definition run_consistent (r : thread_run) : Prop :=
  ending r = Thread_done (foldl adopt (mkLocal INT_MAX None) (evaluated r).*2).

(** A city moved by [(dx, dy)]. *)
Definition translate (dx dy : Z) (c : City) : City :=
  mkCity (city_x c + dx) (city_y c + dy).

(** Every character of [s] satisfies [P]. *)
Fixpoint all_chars (P : ascii -> bool) (s : string) : bool :=
  match s with
  | String c s' => P c && all_chars P s'
  | EmptyString => true
  end.

Definition not_newline (c : ascii) : bool := negb (Ascii.eqb c newline).

(** [s] is not empty and its last character is a newline. *)
Fixpoint ends_with_newline (s : string) : bool :=
  match s with
  | EmptyString => false
  | String c EmptyString => Ascii.eqb c newline
  | String _ s' => ends_with_newline s'
  end.

(** A line of the input file: an id, the coordinates of [c] and free text
    after them, closed by a newline. *)
Definition input_line (id : Z) (c : City) (tail : string) : string :=
  pretty id +:+ " " +:+ pretty (city_x c) +:+ " " +:+ pretty (city_y c)
  +:+ tail +:+ String newline "".

(** The numbers are [int]s, the text after them does not go on with a digit
    and the line, newline included, fits the buffer of [read]. *)
Definition well_formed_line (id : Z) (c : City) (tail : string) : Prop :=
  Int.in_range id /\ Int.in_range (city_x c) /\ Int.in_range (city_y c) /\
  starts_with_digit tail = false /\ all_chars not_newline tail = true /\
  (String.length tail <= 960)%nat.

(** A file of such lines. *)
Definition input_text (rows : list (Z * City * string)) : string :=
  foldr String.append "" ((fun '(id, c, tail) => input_line id c tail) <$> rows).

(** White space other than the newline. *)
Definition blank (c : ascii) : bool := Ascii.is_space c && not_newline c.

(** The arguments the loop takes for options. *)
Definition is_option (a : string) : bool :=
  String.eqb a "-v" || String.eqb a "-s" || String.eqb a "-T" || String.eqb a "-t".

(** The options that take a value. *)
Definition takes_value (a : string) : bool :=
  String.eqb a "-s" || String.eqb a "-T" || String.eqb a "-t".

(** ** Facts about [int] arithmetic *)

Module IntFacts.

Lemma wrap_in_range z : Int.in_range (Int.wrap z).
Proof.
  unfold Int.in_range, Int.wrap, INT_MIN, INT_MAX.
  pose proof (Z.mod_pos_bound (z - -2147483648) 4294967296). lia.
Qed.

Lemma wrap_id z : Int.in_range z -> Int.wrap z = z.
Proof.
  unfold Int.in_range, Int.wrap, INT_MIN, INT_MAX. intros Hz.
  rewrite Z.mod_small by lia. lia.
Qed.

(** [wrap] is compatible with addition: accumulating with wrap-around at
    every step gives the wrap of the exact sum. *)
Lemma wrap_add_l a b : Int.wrap (Int.wrap a + b) = Int.wrap (a + b).
Proof.
  unfold Int.wrap. f_equal.
  replace ((a - INT_MIN) `mod` 4294967296 + INT_MIN + b - INT_MIN)
    with ((a - INT_MIN) `mod` 4294967296 + b)
    by (generalize ((a - INT_MIN) `mod` 4294967296); intros; lia).
  rewrite Zplus_mod_idemp_l. f_equal. lia.
Qed.

End IntFacts.

(** ** Loops and checked subscripts *)

Lemma for_range_inv {St : Type} (P : Z -> St -> Prop) (body : Z -> St -> result St)
    (cnt : nat) (lo : Z) (st : St) :
  P lo st ->
  (forall i s, lo <= i < lo + Z.of_nat cnt -> P i s ->
     exists s', body i s = Ok s' /\ P (i + 1) s') ->
  exists s', for_range cnt lo body st = Ok s' /\ P (lo + Z.of_nat cnt) s'.
Proof.
  revert lo st. induction cnt as [|cnt IH]; intros lo st H0 Hstep.
  - exists st. split; [done|]. by replace (lo + Z.of_nat 0) with lo by lia.
  - destruct (Hstep lo st) as (s1 & Hb & H1); [lia | done |].
    destruct (IH (lo + 1) s1) as (s2 & Hr & H2); [done | |].
    + intros i s Hi. apply Hstep. lia.
    + exists s2. split.
      * simpl. by rewrite Hb.
      * by replace (lo + Z.of_nat (S cnt)) with (lo + 1 + Z.of_nat cnt) by lia.
Qed.

Lemma vec_get_Some {A : Type} (v : list A) (i : Z) (a : A) :
  0 <= i -> v !! Z.to_nat i = Some a -> vec_get v i = Ok a.
Proof.
  intros Hi Hl. unfold vec_get.
  destruct (Z.ltb_spec i 0); [lia|]. by rewrite Hl.
Qed.

Lemma vec_get_lt {A : Type} (v : list A) (i : Z) :
  0 <= i < Z.of_nat (length v) ->
  exists a, vec_get v i = Ok a /\ v !! Z.to_nat i = Some a.
Proof.
  intros Hi. destruct (lookup_lt_is_Some_2 v (Z.to_nat i)) as [a Ha]; [lia|].
  exists a. split; [|done]. apply vec_get_Some; [lia | done].
Qed.

Lemma vec_set_lt {A : Type} (v : list A) (i : Z) (a : A) :
  0 <= i < Z.of_nat (length v) -> vec_set v i a = Ok (<[Z.to_nat i := a]> v).
Proof.
  intros Hi. unfold vec_set.
  destruct (Z.leb_spec 0 i); [|lia].
  destruct (Z.ltb_spec i (Z.of_nat (length v))); [done | lia].
Qed.

(** ** The matrix as a function of its subscripts *)

Lemma square_row (m : Cost) (n i : Z) :
  is_square m n -> 0 <= i < n ->
  exists row, m !! Z.to_nat i = Some row /\ Z.of_nat (length row) = n.
Proof.
  intros [Hlen Hrows] Hi.
  destruct (lookup_lt_is_Some_2 m (Z.to_nat i)) as [row Hrow]; [lia|].
  exists row. split; [done|].
  rewrite Forall_forall in Hrows. apply Hrows.
  apply list_elem_of_lookup. eauto.
Qed.

Lemma getCost_square (m : Cost) (n i j : Z) :
  is_square m n -> 0 <= i < n -> 0 <= j < n -> getCost m i j = Ok (entry m i j).
Proof.
  intros Hsq Hi Hj. destruct (square_row m n i Hsq Hi) as (row & Hrow & Hlen).
  destruct (vec_get_lt row j) as (v & Hv & _); [lia|].
  unfold entry, getCost. rewrite (vec_get_Some m i row) by (done || lia).
  simpl. by rewrite Hv.
Qed.

Lemma setCost_square (m : Cost) (n r c v : Z) :
  is_square m n -> 0 <= r < n -> 0 <= c < n ->
  exists m', setCost m r c v = Ok m' /\ is_square m' n /\
    forall i j, 0 <= i < n -> 0 <= j < n ->
      entry m' i j = if (i =? r) && (j =? c) then v else entry m i j.
Proof.
  intros Hsq Hr Hc. destruct (square_row m n r Hsq Hr) as (row & Hrow & Hlen).
  pose proof Hsq as [Hm Hrows].
  exists (<[Z.to_nat r := <[Z.to_nat c := v]> row]> m). split; [|split].
  - unfold setCost. rewrite (vec_get_Some m r row) by (done || lia). simpl.
    rewrite vec_set_lt by lia. simpl. by rewrite vec_set_lt by lia.
  - split.
    + by rewrite length_insert.
    + apply Forall_insert; [done|]. by rewrite length_insert.
  - intros i j Hi Hj. unfold entry, getCost.
    destruct (Z.eqb_spec i r) as [->|Hne]; simpl.
    + rewrite (vec_get_Some _ r (<[Z.to_nat c := v]> row)).
      2: lia. 2: { apply list_lookup_insert_eq. lia. }
      rewrite (vec_get_Some m r row) by (done || lia). simpl.
      destruct (Z.eqb_spec j c) as [->|Hnc].
      * rewrite (vec_get_Some _ c v); [done | lia |].
        apply list_lookup_insert_eq. lia.
      * unfold vec_get. rewrite list_lookup_insert_ne by lia. done.
    + unfold vec_get at 1 3. rewrite list_lookup_insert_ne by lia. done.
Qed.

Lemma resize_square (n : Z) : 0 <= n -> is_square (resize n) n.
Proof.
  intros Hn. unfold resize. split.
  - rewrite length_replicate. lia.
  - apply Forall_replicate. rewrite length_replicate. lia.
Qed.

(** ** [initCosts] fills the matrix *)

Section InitCosts.

Variable city_vec : list City.
Let n : Z := Z.of_nat (length city_vec).

Lemma initCosts_body_spec (r c : Z) (m : Cost) :
  is_square m n -> 0 <= r <= c -> c < n ->
  exists m', initCosts_body city_vec r c m = Ok m' /\ is_square m' n /\
    forall i j, 0 <= i < n -> 0 <= j < n ->
      entry m' i j =
        if bool_decide ((i = r /\ j = c) \/ (i = c /\ j = r))
        then cost_at city_vec r c else entry m i j.
Proof.
  intros Hsq Hr Hc.
  destruct (vec_get_lt city_vec r) as (cr & Hcr & Hlr); [unfold n in *; lia|].
  destruct (vec_get_lt city_vec c) as (cc & Hcc & Hlc); [unfold n in *; lia|].
  destruct (setCost_square m n r c (city_cost cr cc) Hsq) as (m1 & Hm1 & Hsq1 & He1);
    [lia | lia |].
  destruct (setCost_square m1 n c r (entry m1 r c) Hsq1) as (m2 & Hm2 & Hsq2 & He2);
    [lia | lia |].
  exists m2. split; [|split; [done|]].
  - unfold initCosts_body. rewrite Hcr, Hcc. simpl. rewrite Hm1. simpl.
    rewrite (getCost_square m1 n) by (done || lia). simpl. done.
  - intros i j Hi Hj. rewrite He2, (He1 r c), !Z.eqb_refl by lia. simpl.
    rewrite He1 by lia. unfold cost_at. rewrite Hlr, Hlc.
    destruct (Z.eqb_spec i c), (Z.eqb_spec j r), (Z.eqb_spec i r), (Z.eqb_spec j c);
      simpl; case_bool_decide; (done || lia).
Qed.

Lemma resize_entry (i j : Z) : 0 <= i < n -> 0 <= j < n -> entry (resize n) i j = 0.
Proof.
  intros Hi Hj. unfold entry, getCost, resize.
  rewrite (vec_get_Some _ i (replicate (Z.to_nat n) 0)).
  2: lia. 2: { apply lookup_replicate_2. lia. }
  simpl. rewrite (vec_get_Some _ j 0); [done | lia |].
  apply lookup_replicate_2. lia.
Qed.

Lemma initCosts_row (r : Z) (m : Cost) :
  0 <= r < n -> filled_upto city_vec r r m ->
  exists m', for_range (Z.to_nat (n - r)) r (initCosts_body city_vec r) m = Ok m'
             /\ filled_upto city_vec (r + 1) (r + 1) m'.
Proof.
  intros Hr Hm.
  destruct (for_range_inv (fun c m => filled_upto city_vec r c m)
              (initCosts_body city_vec r) (Z.to_nat (n - r)) r m Hm)
    as (m' & Hrun & [Hsq' He']).
  - intros c s Hc [Hsq He].
    destruct (initCosts_body_spec r c s Hsq) as (s' & Hs' & Hsq' & He'); [lia | lia |].
    exists s'. split; [done|]. split; [done|].
    intros i j Hi Hj. rewrite He', He by done. unfold filled.
    repeat case_bool_decide; try done; try lia.
    all: f_equal; lia.
  - exists m'. split; [done|]. split; [done|].
    intros i j Hi Hj. rewrite He' by done. unfold filled.
    repeat case_bool_decide; try done; lia.
Qed.

Lemma initCosts_spec :
  exists m, initCosts city_vec = Ok m /\ is_square m n /\
    forall i j, 0 <= i < n -> 0 <= j < n ->
      entry m i j = cost_at city_vec (Z.min i j) (Z.max i j).
Proof.
  destruct (for_range_inv (fun r m => filled_upto city_vec r r m)
              (fun r m => for_range (Z.to_nat (n - r)) r (initCosts_body city_vec r) m)
              (Z.to_nat n) 0 (resize n))
    as (m & Hrun & [Hsq He]).
  - split; [apply resize_square; unfold n; lia|].
    intros i j Hi Hj. rewrite resize_entry by done. unfold filled.
    case_bool_decide; [lia | done].
  - intros r s Hr Hs. apply initCosts_row; [lia | done].
  - exists m. split; [|split; [done|]].
    + unfold initCosts. fold n. done.
    + intros i j Hi Hj. rewrite He by done. unfold filled.
      case_bool_decide; [done | lia].
Qed.

End InitCosts.

(** ** Rounding and the cost of a pair of cities *)

Lemma round_sqrt_int (k : Z) :
  0 <= k ->
  0 <= round_sqrt k /\
  (2 * round_sqrt k - 1 <= 0 \/
   (2 * round_sqrt k - 1) * (2 * round_sqrt k - 1) <= 4 * k) /\
  4 * k < (2 * round_sqrt k + 1) * (2 * round_sqrt k + 1).
Proof.
  intros Hk. unfold round_sqrt. destruct (Z.ltb_spec k 0); [lia|].
  pose proof (Z.sqrt_spec (4 * k) ltac:(lia)) as [Hlo Hhi].
  pose proof (Z.sqrt_nonneg (4 * k)) as Hs.
  set (t := Z.sqrt (4 * k)) in *.
  pose proof (Z.div_mod (t + 1) 2 ltac:(lia)) as Hdm.
  pose proof (Z.mod_pos_bound (t + 1) 2 ltac:(lia)) as Hmb.
  set (e := (t + 1) / 2) in *.
  generalize dependent ((t + 1) `mod` 2). intros r Hdm Hmb.
  split; [lia|]. split.
  - destruct (Z.le_gt_cases (2 * e - 1) 0); [by left | right]. nia.
  - unfold Z.succ in Hhi. nia.
Qed.

(** [round_sqrt k] is the real square root of [k] rounded half up. *)
Lemma round_sqrt_real (k : Z) :
  0 <= k -> rounds_half_up (sqrt (IZR k)) (round_sqrt k).
Proof.
  intros Hk. destruct (round_sqrt_int k Hk) as (He & Hlo & Hhi).
  unfold rounds_half_up. set (e := round_sqrt k) in *.
  assert (0 <= IZR k)%R as Hk' by (apply IZR_le; done).
  assert (0 <= IZR e)%R as He' by (apply IZR_le; done).
  split.
  - destruct Hlo as [Hlo|Hlo].
    + apply IZR_le in Hlo. rewrite minus_IZR, mult_IZR in Hlo.
      pose proof (sqrt_pos (IZR k)). lra.
    + apply IZR_le in Hlo. rewrite !mult_IZR, !minus_IZR, !mult_IZR in Hlo.
      destruct (Rle_or_lt (IZR e - / 2) 0) as [Hneg|Hpos].
      * pose proof (sqrt_pos (IZR k)). lra.
      * rewrite <- (sqrt_square (IZR e - / 2)) by lra.
        apply sqrt_le_1_alt. nra.
  - apply IZR_lt in Hhi. rewrite !mult_IZR, !plus_IZR, !mult_IZR in Hhi.
    rewrite <- (sqrt_square (IZR e + / 2)) by lra.
    apply sqrt_lt_1_alt. split; [done|]. nra.
Qed.

Lemma round_sqrt_le (k : Z) : k <= INT_MAX -> round_sqrt k <= 46341.
Proof.
  intros Hk. unfold round_sqrt. destruct (Z.ltb_spec k 0); [done|].
  assert (Z.sqrt (4 * k) <= Z.sqrt (4 * INT_MAX)) as Hle
    by (apply Z.sqrt_le_mono; lia).
  change (Z.sqrt (4 * INT_MAX)) with 92681 in Hle.
  assert ((Z.sqrt (4 * k) + 1) / 2 <= (92681 + 1) / 2) as Hdiv
    by (apply Z.div_le_mono; lia).
  by change ((92681 + 1) / 2) with 46341 in Hdiv.
Qed.

(** Any approximation of [sqrt k + 1/2] within [1/400000] truncates to
    [round_sqrt k]: the model of the floating-point expression does not
    depend on how its last bits are rounded. *)
Lemma round_sqrt_margin (k : Z) (x : R) :
  0 <= k <= INT_MAX ->
  (Rabs (x - (sqrt (IZR k) + / 2)) < / 400000)%R ->
  (IZR (round_sqrt k) <= x < IZR (round_sqrt k) + 1)%R.
Proof.
  intros Hk Hx. destruct (round_sqrt_int k ltac:(lia)) as (He & Hlo & Hhi).
  pose proof (round_sqrt_le k ltac:(lia)) as Hmax.
  set (e := round_sqrt k) in *.
  assert (e = 0 \/ e * e - e + 1 <= k) as Hlo' by nia.
  assert (k <= e * e + e) as Hhi' by nia.
  assert (0 <= IZR e <= 46341)%R as He'.
  { split; [apply (IZR_le 0) | apply (IZR_le e 46341)]; lia. }
  assert (IZR k <= IZR e * IZR e + IZR e)%R as HhiR.
  { rewrite <- mult_IZR, <- plus_IZR. by apply IZR_le. }
  assert (0 <= IZR k)%R as HkR by (apply (IZR_le 0); lia).
  pose proof (sqrt_pos (IZR k)) as Hs0.
  pose proof (sqrt_sqrt (IZR k) HkR) as Hss.
  set (s := sqrt (IZR k)) in *.
  apply Rabs_def2 in Hx as [Hx1 Hx2].
  assert (s <= IZR e + / 2 - / 400000)%R as Hup.
  { destruct (Rle_or_lt s (IZR e + / 2 - / 400000)) as [|Hgt]; [done|].
    exfalso. assert (0 <= IZR e + / 2 - / 400000)%R by lra.
    assert ((IZR e + / 2 - / 400000) * (IZR e + / 2 - / 400000) < s * s)%R by nra.
    nra. }
  split; [|lra].
  destruct Hlo' as [He0|Hlo'].
  - rewrite He0. lra.
  - assert (IZR e * IZR e - IZR e + 1 <= IZR k)%R as HloR.
    { rewrite <- mult_IZR, <- minus_IZR, <- (plus_IZR _ 1). by apply IZR_le. }
    assert (IZR e - / 2 + / 400000 <= s)%R as Hdown.
    { destruct (Rle_or_lt (IZR e - / 2 + / 400000) s) as [|Hlt]; [done|].
      exfalso. destruct (Rle_or_lt (IZR e - / 2 + / 400000) 0) as [Hneg|Hpos]; [nra|].
      assert (s * s < (IZR e - / 2 + / 400000) * (IZR e - / 2 + / 400000))%R by nra.
      nra. }
    lra.
Qed.

Lemma city_cost_le (a b : City) : city_cost a b <= 46341.
Proof.
  unfold city_cost. apply round_sqrt_le.
  unfold Int.add. apply IntFacts.wrap_in_range.
Qed.

Lemma city_cost_diag (a : City) : city_cost a a = 0.
Proof. unfold city_cost, Int.sub. rewrite !Z.sub_diag. reflexivity. Qed.

Lemma city_cost_exact (a b : City) :
  sq_dist a b <= INT_MAX -> city_cost a b = round_sqrt (sq_dist a b).
Proof.
  unfold sq_dist. intros Hfit.
  set (dx := city_x a - city_x b) in *. set (dy := city_y a - city_y b) in *.
  assert (-46341 < dx < 46341 /\ -46341 < dy < 46341) as [Hdx Hdy]
    by (unfold INT_MAX in Hfit; nia).
  unfold city_cost, Int.add, Int.mul, Int.sub. fold dx dy.
  rewrite (IntFacts.wrap_id dx), (IntFacts.wrap_id dy) by int_range.
  rewrite (IntFacts.wrap_id (dx * dx)), (IntFacts.wrap_id (dy * dy)) by int_range.
  rewrite IntFacts.wrap_id by int_range. done.
Qed.

Lemma sq_dist_sym (a b : City) : sq_dist a b = sq_dist b a.
Proof. unfold sq_dist. ring. Qed.

Lemma sq_dist_nonneg (a b : City) : 0 <= sq_dist a b.
Proof.
  unfold sq_dist.
  pose proof (Z.square_nonneg (city_x a - city_x b)).
  pose proof (Z.square_nonneg (city_y a - city_y b)). lia.
Qed.

Lemma euclid_sq_dist (a b : City) : euclid a b = sqrt (IZR (sq_dist a b)).
Proof.
  unfold euclid, sq_dist. by rewrite plus_IZR, !mult_IZR, !minus_IZR.
Qed.

Lemma cost_at_le (city_vec : list City) (i j : Z) : cost_at city_vec i j <= 46341.
Proof.
  unfold cost_at. destruct (city_vec !! Z.to_nat i); [|done].
  destruct (city_vec !! Z.to_nat j); [|done]. apply city_cost_le.
Qed.

Lemma cost_at_lt_max (city_vec : list City) (i j : Z) :
  cost_at city_vec i j < INT_MAX.
Proof. pose proof (cost_at_le city_vec i j). unfold INT_MAX. lia. Qed.

(** The matrix [initCosts] builds is square, and none of its entries
    reaches [INT_MAX], whatever the coordinates. *)
Lemma initCosts_below_max (city_vec : list City) :
  exists m, initCosts city_vec = Ok m /\
    is_square m (Z.of_nat (length city_vec)) /\
    forall i j, 0 <= i < Z.of_nat (length city_vec) ->
                0 <= j < Z.of_nat (length city_vec) -> entry m i j < INT_MAX.
Proof.
  destruct (initCosts_spec city_vec) as (m & Hm & Hsq & He).
  exists m. split; [done|]. split; [done|].
  intros i j Hi Hj. rewrite He by done. apply cost_at_lt_max.
Qed.

(** ** The tour builder *)

Lemma foldr_add_init (x : Z) (l : list Z) : foldr Z.add x l = foldr Z.add 0 l + x.
Proof. induction l as [|y l IH]; simpl; lia. Qed.

Lemma edge_sum_snoc (m : Cost) (p : list Z) (z c : Z) :
  last p = Some z -> edge_sum m (p ++ [c]) = edge_sum m p + entry m z c.
Proof.
  intros Hlast. unfold edge_sum. rewrite length_app. simpl.
  rewrite last_lookup in Hlast.
  assert (exists k, length p = S k) as [k Hk].
  { destruct p; [done | eauto]. }
  rewrite Hk in *. simpl in Hlast.
  replace (S k + 1 - 1)%nat with (S k) by lia.
  replace (S k - 1)%nat with k by lia.
  rewrite seq_S, fmap_app, foldr_app. simpl.
  rewrite foldr_add_init. f_equal.
  - f_equal. apply list_fmap_ext. intros i j Hj.
    apply lookup_seq in Hj as [-> Hi]. simpl.
    unfold tour_at. rewrite !lookup_app_l by lia. done.
  - unfold tour_at. rewrite lookup_app_l by lia. rewrite Hlast. simpl.
    rewrite lookup_app_r by lia. rewrite Hk, Nat.sub_diag. simpl. lia.
Qed.

Section CalcPath.

Variable m : Cost.
Variable n : Z.
Hypothesis Hsq : is_square m n.
Hypothesis Hlt : forall i j, 0 <= i < n -> 0 <= j < n -> entry m i j < INT_MAX.

Lemma scan_body_spec (inp : list bool) (cur ix : Z) (st : Z * Z) :
  Z.of_nat (length inp) = n -> 0 <= cur < n -> 0 <= ix < n ->
  scan_inv m inp cur ix st ->
  exists st', scan_body m inp cur ix st = Ok st' /\ scan_inv m inp cur (ix + 1) st'.
Proof.
  intros Hlen Hcur Hix Hinv.
  destruct (vec_get_lt inp ix) as (b & Hget & Hb); [lia|].
  unfold scan_body. rewrite Hget. simpl. destruct b.
  - exists st. split; [done|].
    destruct Hinv as [[-> Hall]|(Hc & Hun & Hcost & Hmin)]; [left | right].
    + split; [done|]. intros j Hj.
      destruct (decide (j = ix)) as [->|]; [done | apply Hall; lia].
    + split; [lia|]. do 2 (split; [done|]).
      intros j Hj Hfalse. destruct (decide (j = ix)) as [->|]; [congruence|].
      apply Hmin; [lia | done].
  - rewrite (getCost_square m n) by done. simpl.
    destruct (Z.ltb_spec (entry m cur ix) st.2) as [Hless|Hge].
    + eexists. split; [done|]. right. simpl.
      split; [lia|]. do 2 (split; [done|]).
      intros j Hj Hfalse. destruct (decide (j = ix)) as [->|Hne]; [lia|].
      destruct Hinv as [[-> Hall]|(Hc & Hun & Hcost & Hmin)].
      * rewrite Hall in Hfalse by lia. done.
      * destruct (Hmin j) as [Hle _]; [lia | done |]. lia.
    + exists st. split; [done|].
      destruct Hinv as [[-> Hall]|(Hc & Hun & Hcost & Hmin)].
      * simpl in Hge. pose proof (Hlt cur ix Hcur Hix). lia.
      * right. split; [lia|]. do 2 (split; [done|]).
        intros j Hj Hfalse. destruct (decide (j = ix)) as [->|Hne]; [lia|].
        apply Hmin; [lia | done].
Qed.

Lemma scan_spec (inp : list bool) (cur : Z) :
  Z.of_nat (length inp) = n -> 0 <= cur < n ->
  exists st, scan m n inp cur = Ok st /\ scan_inv m inp cur n st.
Proof.
  intros Hlen Hcur.
  destruct (for_range_inv (scan_inv m inp cur) (scan_body m inp cur)
              (Z.to_nat n) 0 (-1, INT_MAX)) as (st & Hrun & Hinv).
  - left. split; [done|]. intros j Hj. lia.
  - intros ix st Hix Hinv. apply scan_body_spec; [done | done | lia | done].
  - exists st. split; [done|].
    by replace (0 + Z.of_nat (Z.to_nat n)) with n in Hinv by lia.
Qed.

Lemma calc_body_spec (start_city i : Z) (st : calc_state) :
  1 <= i < n -> calc_inv m n start_city i st ->
  exists st', calc_body m n i st = Ok st' /\ calc_inv m n start_city (i + 1) st'.
Proof.
  intros Hi (Hlen & Hplen & Hnd & Hrange & Hmark & Hhead & Hlast & Hcost & Hgreedy).
  assert (0 <= curr_city st < n) as Hcur.
  { apply Hrange. apply last_Some_elem_of. done. }
  destruct (scan_spec (inpath st) (curr_city st) Hlen Hcur) as ([cl cc] & Hscan & Hinv).
  unfold calc_body. rewrite Hscan. simpl.
  destruct Hinv as [[[= -> ->] Hall]|(Hc & Hun & Hcc & Hmin)]; simpl in *.
  { (* every city visited although fewer than [n] are on the path *)
    exfalso.
    assert (seqZ 0 n ⊆+ cs_path st) as Hsub.
    { apply NoDup_submseteq; [apply NoDup_seqZ|].
      intros c Hc. apply elem_of_seqZ in Hc.
      specialize (Hmark c ltac:(lia)). rewrite Hall in Hmark by lia.
      injection Hmark as Hmark. symmetry in Hmark.
      by apply bool_decide_eq_true in Hmark. }
    apply submseteq_length in Hsub. rewrite length_seqZ in Hsub. lia. }
  destruct (Z.eqb_spec cl (-1)) as [->|_]; [lia|].
  rewrite vec_set_lt by lia. simpl.
  rewrite (getCost_square m n) by (done || lia). simpl.
  eexists. split; [done|].
  assert (cl ∉ cs_path st) as Hfresh.
  { intros Hin. rewrite Hmark in Hun by lia.
    injection Hun as Hun. by apply bool_decide_eq_false in Hun. }
  unfold calc_inv. simpl. split_and!.
  - by rewrite length_insert.
  - rewrite length_app. simpl. lia.
  - apply NoDup_app. split_and!; [done | | apply NoDup_singleton].
    intros x Hx ->%list_elem_of_singleton. done.
  - intros c [Hc'| ->%list_elem_of_singleton]%elem_of_app; [by apply Hrange | lia].
  - intros c Hc'. destruct (decide (c = cl)) as [->|Hne].
    + rewrite list_lookup_insert_eq by lia. f_equal. symmetry.
      apply bool_decide_eq_true. apply elem_of_app. right.
      by apply list_elem_of_singleton.
    + rewrite list_lookup_insert_ne by lia. rewrite Hmark by done. f_equal.
      apply bool_decide_ext. rewrite elem_of_app, list_elem_of_singleton.
      split; [by left | by intros [?|?]].
  - destruct (cs_path st); [done | done].
  - apply last_snoc.
  - rewrite Hcost. unfold Int.add. rewrite IntFacts.wrap_add_l.
    by rewrite (edge_sum_snoc m (cs_path st) (curr_city st) cl).
  - intros k cur nxt Hk HSk.
    assert (S k < length (cs_path st) + 1)%nat as Hklt.
    { apply lookup_lt_Some in HSk. rewrite length_app in HSk. simpl in HSk. lia. }
    destruct (decide (S k < length (cs_path st))%nat) as [Hin|Hout].
    + rewrite lookup_app_l in Hk, HSk by lia.
      rewrite take_app_le by lia. by apply Hgreedy.
    + assert (S k = length (cs_path st)) as Hk' by lia.
      rewrite lookup_app_l in Hk by lia.
      rewrite lookup_app_r in HSk by lia.
      rewrite Hk', Nat.sub_diag in HSk. injection HSk as <-.
      rewrite last_lookup in Hlast.
      replace (pred (length (cs_path st))) with k in Hlast by lia.
      assert (cur = curr_city st) as -> by congruence.
      rewrite Hk', take_app_length.
      split; [lia|]. split; [done|].
      intros j Hj Hjfresh. rewrite <- Hcc. apply Hmin; [done|].
      rewrite Hmark by done. f_equal. by apply bool_decide_eq_false.
Qed.

Lemma calc_inv_init (start_city : Z) :
  0 <= start_city < n ->
  calc_inv m n start_city 1
    (mkCalc (<[Z.to_nat start_city := true]> (replicate (Z.to_nat n) false))
            [start_city] 0 start_city).
Proof.
  intros Hs. unfold calc_inv. simpl. split_and!.
  - rewrite length_insert, length_replicate. lia.
  - done.
  - apply NoDup_singleton.
  - intros c ->%list_elem_of_singleton. done.
  - intros c Hc. destruct (decide (c = start_city)) as [->|Hne].
    + rewrite list_lookup_insert_eq by (rewrite length_replicate; lia).
      f_equal. symmetry. apply bool_decide_eq_true. by apply list_elem_of_singleton.
    + rewrite list_lookup_insert_ne by lia.
      rewrite lookup_replicate_2 by lia.
      f_equal. symmetry. apply bool_decide_eq_false.
      by intros ?%list_elem_of_singleton.
  - done.
  - done.
  - done.
  - intros k cur nxt _ HSk. done.
Qed.

(** [calcPath] returns, and what it returns is a greedy tour through all
    the cities with its cost (up to wrap-around). *)
Lemma calcPath_spec (start_city : Z) :
  0 <= start_city < n ->
  exists p, calcPath m n start_city = Ok p /\
    Z.of_nat (length (path p)) = n /\
    NoDup (path p) /\
    (forall c, c ∈ path p -> 0 <= c < n) /\
    head (path p) = Some start_city /\
    pathcost p = Int.wrap (tour_cost m (path p)) /\
    greedy_tour m n (path p).
Proof.
  intros Hs.
  destruct (for_range_inv (calc_inv m n start_city) (calc_body m n) (Z.to_nat (n - 1)) 1
              (mkCalc (<[Z.to_nat start_city := true]> (replicate (Z.to_nat n) false))
                      [start_city] 0 start_city))
    as (st & Hrun & Hinv).
  - by apply calc_inv_init.
  - intros i st Hi Hinv. apply calc_body_spec; [lia | done].
  - replace (1 + Z.of_nat (Z.to_nat (n - 1))) with n in Hinv by lia.
    destruct Hinv as (Hlen & Hplen & Hnd & Hrange & Hmark & Hhead & Hlast & Hcost & Hgreedy).
    assert (0 <= curr_city st < n) as Hcur.
    { apply Hrange. by apply last_Some_elem_of. }
    exists (mkPath (cs_path st)
              (Int.add (cs_pathcost st) (entry m (curr_city st) start_city))).
    split; [|simpl; split_and!; try done].
    + unfold calcPath. rewrite vec_set_lt by (rewrite length_replicate; lia). simpl.
      rewrite Hrun. simpl.
      rewrite (getCost_square m n) by done.
      done.
    + assert (tour_at (cs_path st) (length (cs_path st) - 1) = curr_city st) as Hz.
      { unfold tour_at. rewrite last_lookup in Hlast.
        replace (length (cs_path st) - 1)%nat with (pred (length (cs_path st))) by lia.
        by rewrite Hlast. }
      assert (tour_at (cs_path st) 0 = start_city) as Ha.
      { unfold tour_at. rewrite head_lookup in Hhead. by rewrite Hhead. }
      rewrite Hcost. unfold Int.add, tour_cost.
      rewrite IntFacts.wrap_add_l, Hz, Ha. reflexivity.
Qed.

Lemma calcPath_permutation (start_city : Z) (p : Path) :
  0 <= start_city < n -> calcPath m n start_city = Ok p ->
  path p ≡ₚ seqZ 0 n.
Proof.
  intros Hs Hp.
  destruct (calcPath_spec start_city Hs) as (p' & Hp' & Hlen & Hnd & Hrange & _).
  assert (p' = p) as -> by congruence.
  apply submseteq_length_Permutation.
  - apply NoDup_submseteq; [done|]. intros c Hc. apply elem_of_seqZ.
    specialize (Hrange c Hc). lia.
  - rewrite length_seqZ. lia.
Qed.

End CalcPath.

(** ** One worker *)

Lemma stop_index_le (stop : Z) (clock : nat -> Z) (cnt k : nat) :
  (stop_index stop clock cnt k <= cnt)%nat.
Proof.
  revert k. induction cnt as [|cnt IH]; intros k; simpl; [lia|].
  destruct (deadline_passed stop (clock k)); [lia|]. specialize (IH (S k)). lia.
Qed.

Lemma stop_index_no_deadline (stop : Z) (clock : nat -> Z) (cnt k : nat) :
  stop <= 0 -> stop_index stop clock cnt k = cnt.
Proof.
  intros Hstop. revert k. induction cnt as [|cnt IH]; intros k; simpl; [done|].
  unfold deadline_passed. destruct (Z.ltb_spec 0 stop); [lia|]. simpl. by rewrite IH.
Qed.

Lemma seqZ_succ (s0 : Z) (j : nat) :
  seqZ s0 (Z.of_nat (S j)) = s0 :: seqZ (s0 + 1) (Z.of_nat j).
Proof.
  rewrite seqZ_cons by lia. f_equal. f_equal; lia.
Qed.

Lemma adopt_length (lb : local_best) (p : Path) :
  local_best_length (adopt lb p) = Z.min (local_best_length lb) (pathcost p).
Proof.
  unfold adopt. destruct (Z.ltb_spec (pathcost p) (local_best_length lb)); simpl; lia.
Qed.

Lemma foldl_adopt_length (lb : local_best) (ps : list Path) :
  local_best_length lb <= INT_MAX ->
  local_best_length (foldl adopt lb ps)
    = Z.min (local_best_length lb) (least (pathcost <$> ps)).
Proof.
  revert lb. induction ps as [|p ps IH]; intros lb Hlb.
  - unfold least. simpl. lia.
  - change (foldl adopt lb (p :: ps)) with (foldl adopt (adopt lb p) ps).
    change (least (pathcost <$> p :: ps))
      with (Z.min (pathcost p) (least (pathcost <$> ps))).
    rewrite IH by (rewrite adopt_length; lia). rewrite adopt_length.
    symmetry. apply Z.min_assoc.
Qed.

Section Worker.

Variable m : Cost.
Variable n : Z.
Hypothesis Hsq : is_square m n.
Hypothesis Hlt : forall i j, 0 <= i < n -> 0 <= j < n -> entry m i j < INT_MAX.

Lemma calcPath_tour_of (c : Z) : 0 <= c < n -> calcPath m n c = Ok (tour_of m n c).
Proof.
  intros Hc. destruct (calcPath_spec m n Hsq Hlt c Hc) as (p & Hp & _).
  unfold tour_of. by rewrite Hp.
Qed.

Lemma worker_loop_spec (stop : Z) (clock : nat -> Z) (cnt k : nat) (s0 : Z)
    (lb : local_best) (ev : list (Z * Path)) :
  0 <= s0 -> s0 + Z.of_nat cnt <= n ->
  worker_loop m n stop clock cnt k s0 lb ev =
    mkRun (ev ++ ((fun c => (c, tour_of m n c))
                    <$> seqZ s0 (Z.of_nat (stop_index stop clock cnt k))))
          (Thread_done
             (foldl adopt lb
                (tour_of m n <$> seqZ s0 (Z.of_nat (stop_index stop clock cnt k))))).
Proof.
  revert k s0 lb ev. induction cnt as [|cnt IH]; intros k s0 lb ev Hs0 Hend; simpl.
  - by rewrite app_nil_r.
  - destruct (deadline_passed stop (clock k)).
    + simpl. by rewrite app_nil_r.
    + rewrite calcPath_tour_of by lia.
      rewrite IH by lia. rewrite seqZ_succ, !fmap_cons. simpl.
      by rewrite <- app_assoc.
Qed.

(** A worker whose range starts inside [0, n]: it runs over its clamped
    range up to the first successful deadline check. *)
Lemma runthread_spec (stop : Z) (clock : nat -> Z) (b : bounds_t) :
  0 <= b_start b <= n ->
  let b' := clamp_end n b in
  let j := stop_index stop clock (Z.to_nat (b_end b' - b_start b')) 0 in
  runthread m n stop clock b =
    mkRun ((fun c => (c, tour_of m n c)) <$> seqZ (b_start b) (Z.of_nat j))
          (Thread_done
             (foldl adopt (mkLocal INT_MAX None)
                (tour_of m n <$> seqZ (b_start b) (Z.of_nat j)))).
Proof.
  intros Hb b' j. unfold runthread.
  destruct (Z.ltb_spec n (b_start b)); [lia|]. fold b'.
  assert (b_start b' = b_start b /\ b_end b' <= n) as [Hst Hen].
  { unfold b', clamp_end. destruct (Z.ltb_spec n (b_end b)); simpl; lia. }
  rewrite worker_loop_spec; [unfold j; by rewrite Hst | lia | lia].
Qed.

End Worker.

(** ** Properties of the partition *)

Section Partition.

Variables ncities start_city num_threads : Z.
Hypothesis Hn : 0 <= ncities < INT_MAX.
Hypothesis Hs : INT_MIN <= start_city <= ncities.
Hypothesis Hns : ncities - start_city <= INT_MAX.
Hypothesis Hw : 1 <= num_threads <= INT_MAX.

Let range : Z := (ncities - start_city) `quot` num_threads.

Lemma range_bounds : 0 <= range /\ num_threads * range <= ncities - start_city.
Proof.
  unfold range. rewrite Z.quot_div_nonneg by lia. split.
  - apply Z.div_pos; lia.
  - apply Z.mul_div_le; lia.
Qed.

Lemma range_of_exact : range_of ncities start_city num_threads = range.
Proof.
  pose proof range_bounds as [Hr0 Hr1].
  unfold range_of, Int.div, Int.sub.
  rewrite (IntFacts.wrap_id (ncities - start_city)) by int_range.
  apply IntFacts.wrap_id. fold range. int_range.
Qed.

Lemma bounds_of_exact i :
  0 <= i < num_threads ->
  bounds_of ncities start_city num_threads range i =
    Bounds (i * range + start_city)
           (if i =? num_threads - 1 then ncities + 1
            else (i + 1) * range + start_city).
Proof.
  intros Hi. pose proof range_bounds as [Hr0 Hr1].
  assert (i * range <= (num_threads - 1) * range) by nia.
  unfold bounds_of, Int.add, Int.mul, Int.sub.
  rewrite (IntFacts.wrap_id (num_threads - 1)) by int_range.
  rewrite (IntFacts.wrap_id (i * range)) by int_range.
  rewrite (IntFacts.wrap_id (i * range + start_city)) by int_range.
  destruct (i =? num_threads - 1) eqn:Hlast.
  - rewrite IntFacts.wrap_id by int_range. done.
  - apply Z.eqb_neq in Hlast.
    rewrite IntFacts.wrap_id by int_range. f_equal. lia.
Qed.

(** Regular ranges of width [r], laid end to end from [s]. *)
Lemma regular_ranges_tile (r s : Z) (k : nat) :
  0 <= r ->
  mjoin ((fun i => seqZ (i * r + s) r) <$> seqZ 0 (Z.of_nat k))
    = seqZ s (Z.of_nat k * r).
Proof.
  intros Hr. induction k as [|k IH].
  - done.
  - rewrite seqZ_S, fmap_app, join_app, IH. simpl.
    rewrite app_nil_r, Z.add_0_l.
    replace (Z.of_nat (S k) * r) with (Z.of_nat k * r + r) by lia.
    rewrite seqZ_app by nia. do 2 f_equal. lia.
Qed.

Lemma partition_split :
  partition ncities start_city num_threads =
    ((fun i => Bounds (i * range + start_city) ((i + 1) * range + start_city))
       <$> seqZ 0 (num_threads - 1))
    ++ [Bounds ((num_threads - 1) * range + start_city) (ncities + 1)].
Proof.
  unfold partition. rewrite range_of_exact.
  replace num_threads with (Z.of_nat (S (Z.to_nat (num_threads - 1)))) at 2 by lia.
  rewrite seqZ_S, fmap_app, Z2Nat.id, Z.add_0_l by lia. simpl. f_equal.
  - apply list_fmap_ext. intros k i Hk.
    apply lookup_seqZ in Hk as [-> Hk].
    rewrite bounds_of_exact by lia.
    destruct (Z.eqb_spec (0 + Z.of_nat k) (num_threads - 1)); [lia | done].
  - rewrite bounds_of_exact by lia. by rewrite Z.eqb_refl.
Qed.

Lemma effective_partition :
  clamp_end ncities <$> partition ncities start_city num_threads =
    ((fun i => Bounds (i * range + start_city) ((i + 1) * range + start_city))
       <$> seqZ 0 (num_threads - 1))
    ++ [Bounds ((num_threads - 1) * range + start_city) ncities].
Proof.
  pose proof range_bounds as [Hr0 Hr1].
  rewrite partition_split, fmap_app. simpl. f_equal.
  - rewrite <- list_fmap_compose. apply list_fmap_ext. intros k i Hk.
    apply lookup_seqZ in Hk as [-> Hk]. unfold clamp_end, compose. simpl.
    destruct (Z.ltb_spec ncities ((0 + Z.of_nat k + 1) * range + start_city));
      [nia | done].
  - unfold clamp_end. simpl.
    destruct (Z.ltb_spec ncities (ncities + 1)); [done | lia].
Qed.

Lemma effective_partition_tiles :
  mjoin (cities_of <$> (clamp_end ncities <$> partition ncities start_city num_threads))
    = seqZ start_city (ncities - start_city).
Proof.
  pose proof range_bounds as [Hr0 Hr1].
  rewrite effective_partition, fmap_app, join_app, <- list_fmap_compose.
  simpl. rewrite app_nil_r.
  rewrite (list_fmap_ext _ (fun i => seqZ (i * range + start_city) range)
             (seqZ 0 (num_threads - 1))).
  2: { intros k i _. unfold compose, cities_of. simpl. f_equal. lia. }
  replace (num_threads - 1) with (Z.of_nat (Z.to_nat (num_threads - 1))) at 1 by lia.
  rewrite regular_ranges_tile by done. rewrite Z2Nat.id by lia.
  unfold cities_of. simpl.
  pose proof (seqZ_app start_city ((num_threads - 1) * range)
                (ncities - ((num_threads - 1) * range + start_city))) as Happ.
  replace ((num_threads - 1) * range
           + (ncities - ((num_threads - 1) * range + start_city)))
    with (ncities - start_city) in Happ by lia.
  rewrite Happ by nia. do 2 f_equal. lia.
Qed.

Lemma partition_lookup (i : Z) :
  0 <= i < num_threads ->
  partition ncities start_city num_threads !! Z.to_nat i =
    Some (Bounds (i * range + start_city)
            (if i =? num_threads - 1 then ncities + 1
             else (i + 1) * range + start_city)).
Proof.
  intros Hi. unfold partition. rewrite range_of_exact, list_lookup_fmap.
  rewrite lookup_seqZ_lt by lia. simpl.
  rewrite Z2Nat.id, Z.add_0_l by lia. f_equal. by apply bounds_of_exact.
Qed.

Lemma partition_length :
  length (partition ncities start_city num_threads) = Z.to_nat num_threads.
Proof. unfold partition. by rewrite length_fmap, length_seqZ. Qed.

Lemma partition_start_range (b : bounds_t) :
  b ∈ partition ncities start_city num_threads ->
  start_city <= b_start b <= ncities.
Proof.
  pose proof range_bounds as [Hr0 Hr1].
  intros (k & Hk)%list_elem_of_lookup.
  assert (k < Z.to_nat num_threads)%nat as Hlt.
  { apply lookup_lt_Some in Hk. by rewrite partition_length in Hk. }
  pose proof (partition_lookup (Z.of_nat k) ltac:(lia)) as Hl.
  rewrite Nat2Z.id, Hk in Hl. injection Hl as ->. simpl. nia.
Qed.

End Partition.

(** ** The reduction into the shared best tour *)

Lemma least_le_max (l : list Z) : least l <= INT_MAX.
Proof. unfold least. induction l as [|x l IH]; simpl; lia. Qed.

Lemma least_app (l1 l2 : list Z) : least (l1 ++ l2) = Z.min (least l1) (least l2).
Proof.
  pose proof (least_le_max l2). unfold least in *.
  induction l1 as [|x l1 IH]; simpl; [lia|]. rewrite IH. lia.
Qed.

Lemma least_join (ls : list (list Z)) : least (mjoin ls) = least (least <$> ls).
Proof.
  induction ls as [|l ls IH]; [done|].
  change (mjoin (l :: ls)) with (l ++ mjoin ls).
  rewrite least_app, IH. done.
Qed.

Lemma least_permutation (l1 l2 : list Z) : l1 ≡ₚ l2 -> least l1 = least l2.
Proof.
  unfold least. induction 1 as [|x l1 l2 _ IH|x y l|l1 l2 l3 _ IH1 _ IH2]; simpl.
  - done.
  - by rewrite IH.
  - lia.
  - by rewrite IH1.
Qed.

Lemma adopt_ok (lb : local_best) (p : Path) : local_ok lb -> local_ok (adopt lb p).
Proof.
  intros (Hle & Hp & Hs). unfold adopt.
  destruct (Z.ltb_spec (pathcost p) (local_best_length lb)); [|done].
  split_and!; simpl; [lia | by intros ? [= ->] | eauto].
Qed.

Lemma foldl_adopt_ok (lb : local_best) (ps : list Path) :
  local_ok lb -> local_ok (foldl adopt lb ps).
Proof.
  revert lb. induction ps as [|p ps IH]; intros lb Hlb; [done|].
  simpl. apply IH. by apply adopt_ok.
Qed.

Lemma offer_run_ok (g : registry) (r : thread_run) :
  registry_ok g -> run_ok r ->
  registry_ok (offer_run g r) /\
  global_best_length (offer_run g r) = Z.min (global_best_length g) (run_length r).
Proof.
  intros (Hle & Hp & Hs) Hr. unfold offer_run, run_length, run_ok in *.
  destruct (ending r) as [msg|f|l]; [split; [done | lia].. |].
  unfold offer. destruct Hr as (Hle' & Hp' & Hs').
  destruct (Z.ltb_spec (local_best_length l) (global_best_length g)); simpl.
  - split; [|lia]. split_and!; simpl; [lia | done |]. intros _. apply Hs'. lia.
  - split; [done | lia].
Qed.

Lemma least_cons (x : Z) (l : list Z) : least (x :: l) = Z.min x (least l).
Proof. reflexivity. Qed.

Lemma reduce_from_ok (runs : list thread_run) (order : list nat) (g : registry) :
  Forall run_ok runs -> registry_ok g ->
  registry_ok (foldl (take_turn runs) g order) /\
  global_best_length (foldl (take_turn runs) g order) =
    Z.min (global_best_length g)
          (least ((fun i => from_option run_length INT_MAX (runs !! i)) <$> order)).
Proof.
  intros Hruns. revert g. induction order as [|i order IH]; intros g Hg.
  - split; [done|]. destruct Hg as [Hle _]. unfold least. simpl. lia.
  - cbn [foldl]. rewrite fmap_cons, least_cons.
    pose proof (least_le_max
      ((fun i => from_option run_length INT_MAX (runs !! i)) <$> order)) as Hmax.
    unfold take_turn at 2 4.
    destruct (runs !! i) as [r|] eqn:Hi; simpl.
    + assert (run_ok r) as Hr.
      { rewrite Forall_forall in Hruns. apply Hruns.
        apply list_elem_of_lookup. eauto. }
      destruct (offer_run_ok g r Hg Hr) as [Hg' Hlen].
      destruct (IH _ Hg') as [Hok Heq]. split; [done|].
      rewrite Heq, Hlen. lia.
    + destruct (IH _ Hg) as [Hok Heq]. split; [done|].
      rewrite Heq. destruct Hg as [Hle _]. lia.
Qed.

Lemma registry_init_ok : registry_ok registry_init.
Proof. split_and!; simpl; [done | done | lia]. Qed.

Lemma fmap_lookup_seq {A B : Type} (f : A -> B) (d : B) (l : list A) :
  (fun i => from_option f d (l !! i)) <$> seq 0 (length l) = f <$> l.
Proof.
  apply list_eq. intros i. rewrite !list_lookup_fmap.
  destruct (decide (i < length l)%nat) as [Hlt|Hge].
  - rewrite lookup_seq_lt by done. simpl.
    destruct (lookup_lt_is_Some_2 l i Hlt) as [x Hx]. by rewrite Hx.
  - rewrite lookup_seq_ge by lia. by rewrite lookup_ge_None_2 by lia.
Qed.

(** Whatever the order in which the workers take the mutex, the registry
    ends with the least of their lengths. *)
Lemma reduce_length (runs : list thread_run) (order : list nat) :
  Forall run_ok runs -> order ≡ₚ seq 0 (length runs) ->
  registry_ok (reduce runs order) /\
  global_best_length (reduce runs order) = least (run_length <$> runs).
Proof.
  intros Hruns Hperm.
  destruct (reduce_from_ok runs order registry_init Hruns registry_init_ok)
    as [Hok Heq].
  split; [done|]. unfold reduce. rewrite Heq. simpl.
  rewrite (least_permutation _ (run_length <$> runs)).
  - pose proof (least_le_max (run_length <$> runs)). lia.
  - rewrite <- (fmap_lookup_seq run_length INT_MAX runs). by apply fmap_Permutation.
Qed.


(** ** The whole search *)

Lemma fmap_join {A B : Type} (f : A -> B) (ls : list (list A)) :
  f <$> mjoin ls = mjoin (fmap f <$> ls).
Proof.
  induction ls as [|l ls IH]; [done|].
  change (mjoin (l :: ls)) with (l ++ mjoin ls).
  rewrite fmap_app, IH. done.
Qed.

Lemma seqZ_to_nat (a len : Z) : seqZ a (Z.of_nat (Z.to_nat len)) = seqZ a len.
Proof. unfold seqZ. by rewrite Nat2Z.id. Qed.

Lemma local_init_ok : local_ok (mkLocal INT_MAX None).
Proof. split_and!; simpl; [done | done | lia]. Qed.

Lemma full_run_ok (m : Cost) (n : Z) (b : bounds_t) : run_ok (full_run m n b).
Proof. unfold run_ok, full_run. simpl. apply foldl_adopt_ok, local_init_ok. Qed.

Lemma full_run_length (m : Cost) (n : Z) (b : bounds_t) :
  run_length (full_run m n b)
    = least ((fun c => pathcost (tour_of m n c)) <$> cities_of (clamp_end n b)).
Proof.
  unfold run_length, full_run. simpl.
  rewrite foldl_adopt_length by done. simpl.
  rewrite <- list_fmap_compose.
  pose proof (least_le_max
    ((pathcost ∘ tour_of m n) <$> cities_of (clamp_end n b))) as Hmax.
  unfold compose in *. lia.
Qed.

Lemma fst_tagged {A B : Type} (g : A -> B) (l : list A) :
  ((fun c => (c, g c)) <$> l).*1 = l.
Proof. induction l as [|x l IH]; [done|]. rewrite !fmap_cons, IH. done. Qed.

Lemma full_run_starts (m : Cost) (n : Z) (b : bounds_t) :
  (evaluated (full_run m n b)).*1 = cities_of (clamp_end n b).
Proof. unfold full_run. simpl. apply fst_tagged. Qed.

Section Search.

Variable m : Cost.
Variables n start_city num_threads : Z.
Hypothesis Hsq : is_square m n.
Hypothesis Hlt : forall i j, 0 <= i < n -> 0 <= j < n -> entry m i j < INT_MAX.
Hypothesis Hn : 0 <= n < INT_MAX.
Hypothesis Hs : 0 <= start_city <= n.
Hypothesis Hw : 1 <= num_threads <= INT_MAX.

Lemma partition_start_ok (b : bounds_t) :
  b ∈ partition n start_city num_threads -> start_city <= b_start b <= n.
Proof. apply partition_start_range; unfold INT_MIN, INT_MAX in *; lia. Qed.

(** Each worker, whatever the deadline and the clock. *)
Lemma thread_runs_lookup (stop : Z) (clock : nat -> nat -> Z) (i : nat) (r : thread_run) :
  thread_runs m n start_city num_threads stop clock !! i = Some r ->
  exists b, partition n start_city num_threads !! i = Some b /\
    start_city <= b_start b <= n /\
    let b' := clamp_end n b in
    let j := stop_index stop (clock i) (Z.to_nat (b_end b' - b_start b')) 0 in
    r = mkRun ((fun c => (c, tour_of m n c)) <$> seqZ (b_start b) (Z.of_nat j))
              (Thread_done
                 (foldl adopt (mkLocal INT_MAX None)
                    (tour_of m n <$> seqZ (b_start b) (Z.of_nat j)))).
Proof.
  unfold thread_runs. rewrite list_lookup_imap.
  destruct (partition n start_city num_threads !! i) as [b|] eqn:Hb; [|done].
  simpl. intros [= <-]. exists b. split; [done|].
  assert (start_city <= b_start b <= n) as Hst.
  { apply partition_start_ok, list_elem_of_lookup. eauto. }
  split; [done|]. apply (runthread_spec m n Hsq Hlt). lia.
Qed.

Lemma thread_runs_no_deadline (stop : Z) (clock : nat -> nat -> Z) :
  stop <= 0 ->
  thread_runs m n start_city num_threads stop clock
    = full_run m n <$> partition n start_city num_threads.
Proof.
  intros Hstop. apply list_eq. intros i. rewrite list_lookup_fmap.
  destruct (thread_runs m n start_city num_threads stop clock !! i) as [r|] eqn:Hr.
  - destruct (thread_runs_lookup stop clock i r Hr) as (b & Hb & Hst & ->).
    rewrite Hb. simpl. f_equal. unfold full_run, cities_of.
    rewrite stop_index_no_deadline by done. rewrite seqZ_to_nat.
    assert (b_start (clamp_end n b) = b_start b) as ->; [|done].
    unfold clamp_end. by destruct (n <? b_end b).
  - unfold thread_runs in Hr. rewrite list_lookup_imap in Hr.
    destruct (partition n start_city num_threads !! i); [done | done].
Qed.

Lemma evaluated_no_deadline (stop : Z) (clock : nat -> nat -> Z) :
  stop <= 0 ->
  mjoin ((fun r => (evaluated r).*1)
           <$> thread_runs m n start_city num_threads stop clock)
    = seqZ start_city (n - start_city).
Proof.
  intros Hstop. rewrite thread_runs_no_deadline by done.
  rewrite <- list_fmap_compose.
  rewrite (list_fmap_ext _ (cities_of ∘ clamp_end n)).
  2: { intros i b _. apply full_run_starts. }
  rewrite list_fmap_compose.
  apply effective_partition_tiles; unfold INT_MIN, INT_MAX in *; lia.
Qed.

(** Without a deadline the registry ends with the least tour cost over
    the start cities, in whatever order the workers took the mutex. *)
Lemma reduce_no_deadline (stop : Z) (clock : nat -> nat -> Z) (order : list nat) :
  stop <= 0 -> order ≡ₚ seq 0 (Z.to_nat num_threads) ->
  registry_ok (reduce (thread_runs m n start_city num_threads stop clock) order) /\
  global_best_length
    (reduce (thread_runs m n start_city num_threads stop clock) order)
    = min_cost m n start_city.
Proof.
  intros Hstop Horder. rewrite thread_runs_no_deadline by done.
  destruct (reduce_length (full_run m n <$> partition n start_city num_threads) order)
    as [Hok Hlen].
  - apply Forall_fmap, Forall_forall. intros b _. apply full_run_ok.
  - rewrite length_fmap.
    rewrite partition_length; [done | unfold INT_MIN, INT_MAX in *; lia..].
  - split; [done|]. rewrite Hlen. unfold min_cost.
    rewrite <- effective_partition_tiles with (num_threads := num_threads)
      by (unfold INT_MIN, INT_MAX in *; lia).
    rewrite fmap_join, least_join, <- !list_fmap_compose. f_equal.
    apply list_fmap_ext. intros i b _. apply full_run_length.
Qed.

End Search.

(** ** [main] *)

Lemma coords_fit_elem (city_vec : list City) (a b : City) :
  coords_fit city_vec -> a ∈ city_vec -> b ∈ city_vec -> sq_dist a b <= INT_MAX.
Proof.
  unfold coords_fit. rewrite Forall_forall. intros Hfit Ha Hb.
  specialize (Hfit a Ha). rewrite Forall_forall in Hfit. by apply Hfit.
Qed.

Lemma all_done_no_exit (runs : list thread_run) :
  (forall r, r ∈ runs -> exists l, ending r = Thread_done l) ->
  first_exit runs = None /\ first_fault runs = None.
Proof.
  induction runs as [|r runs IH]; intros Hall; [done|].
  destruct (Hall r) as [l Hl]; [left|]. simpl. rewrite Hl. apply IH.
  intros r' Hr'. apply Hall. by right.
Qed.

Section StartBeyond.

Variables n start_city num_threads : Z.
Hypothesis Hn : 0 <= n.
Hypothesis Hs : n < start_city <= INT_MAX.
Hypothesis Hw : 1 <= num_threads <= INT_MAX.

(** With the start offset beyond the city count every worker's range
    starts beyond it too. *)
Lemma partition_start_beyond (b : bounds_t) :
  b ∈ partition n start_city num_threads -> n < b_start b.
Proof.
  unfold partition. intros (i & -> & Hi)%list_elem_of_fmap.
  apply elem_of_seqZ in Hi.
  set (q := (start_city - n) / num_threads).
  assert (0 <= q /\ num_threads * q <= start_city - n) as [Hq0 Hq1].
  { split; [apply Z.div_pos; lia | apply Z.mul_div_le; lia]. }
  assert (range_of n start_city num_threads = - q) as ->.
  { unfold range_of, Int.div, Int.sub.
    rewrite (IntFacts.wrap_id (n - start_city)) by int_range.
    replace (n - start_city) with (- (start_city - n)) by lia.
    rewrite Z.quot_opp_l by lia. rewrite Z.quot_div_nonneg by lia.
    fold q. apply IntFacts.wrap_id. int_range. }
  assert (i * q < start_city - n) as Hiq by nia.
  assert (b_start (bounds_of n start_city num_threads (- q) i)
          = start_city - i * q) as ->.
  { unfold bounds_of, Int.add, Int.mul.
    rewrite (IntFacts.wrap_id (i * - q)) by int_range.
    rewrite (IntFacts.wrap_id (i * - q + start_city)) by int_range.
    destruct (i =? Int.sub num_threads 1); simpl; lia. }
  lia.
Qed.

Lemma thread_runs_beyond (m : Cost) (stop : Z) (clock : nat -> nat -> Z) (r : thread_run) :
  r ∈ thread_runs m n start_city num_threads stop clock ->
  r = mkRun [] (Thread_exit "Start city exceeds city count").
Proof.
  intros (i & Hi)%list_elem_of_lookup. unfold thread_runs in Hi.
  rewrite list_lookup_imap in Hi.
  destruct (partition n start_city num_threads !! i) as [b|] eqn:Hb; [|done].
  simpl in Hi. injection Hi as <-.
  assert (n < b_start b) as Hlt.
  { apply partition_start_beyond, list_elem_of_lookup. eauto. }
  unfold runthread. by destruct (Z.ltb_spec n (b_start b)); [|lia].
Qed.

Lemma first_exit_beyond (m : Cost) (stop : Z) (clock : nat -> nat -> Z) :
  first_exit (thread_runs m n start_city num_threads stop clock)
    = Some "Start city exceeds city count"%string.
Proof.
  pose proof (thread_runs_beyond m stop clock) as Hall.
  assert (length (thread_runs m n start_city num_threads stop clock)
          = Z.to_nat num_threads) as Hlen.
  { unfold thread_runs, partition.
    by rewrite length_imap, length_fmap, length_seqZ. }
  destruct (thread_runs m n start_city num_threads stop clock) as [|r runs].
  - simpl in Hlen. lia.
  - rewrite (Hall r) by left. done.
Qed.

End StartBeyond.

Section MainSearch.

Variable city_vec : list City.
Variables start_city num_threads : Z.
Let n : Z := Z.of_nat (length city_vec).
Hypothesis Hn : n < INT_MAX.
Hypothesis Hs : 0 <= start_city <= n.
Hypothesis Hw : 1 <= num_threads <= INT_MAX.

(** With the start offset inside [0, n] every worker returns normally,
    and [main] goes on to print what the registry holds. *)
Lemma main_reaches_print (m : Cost) (stop : Z) (clock : nat -> nat -> Z)
    (order : list nat) :
  initCosts city_vec = Ok m ->
  is_square m n ->
  (forall i j, 0 <= i < n -> 0 <= j < n -> entry m i j < INT_MAX) ->
  (forall r, r ∈ thread_runs m n start_city num_threads stop clock ->
             exists l, ending r = Thread_done l) /\
  main city_vec start_city num_threads stop clock order =
    match global_best_path
            (reduce (thread_runs m n start_city num_threads stop clock) order) with
    | None => Null_best_path
    | Some p => Printed p
    end.
Proof.
  intros Hm Hsq Hlt.
  assert (forall r, r ∈ thread_runs m n start_city num_threads stop clock ->
                    exists l, ending r = Thread_done l) as Hdone.
  { intros r (i & Hi)%list_elem_of_lookup.
    destruct (thread_runs_lookup m n start_city num_threads Hsq Hlt
                ltac:(unfold n in *; lia) Hs Hw stop clock i r Hi)
      as (b & _ & _ & ->).
    simpl. eauto. }
  split; [done|].
  destruct (all_done_no_exit _ Hdone) as [Hexit Hfault].
  unfold main. rewrite Hm. fold n.
  destruct (Z.ltb_spec num_threads 0); [lia|].
  destruct (Z.eqb_spec num_threads 0); [lia|].
  simpl. by rewrite Hexit, Hfault.
Qed.

End MainSearch.

(** * The properties of the specification *)

(** ** The distance matrix *)

Lemma cost_at_cities (city_vec : list City) (i j : nat) (a b : City) :
  city_vec !! i = Some a -> city_vec !! j = Some b ->
  cost_at city_vec (Z.of_nat i) (Z.of_nat j) = city_cost a b.
Proof. intros Ha Hb. unfold cost_at. by rewrite !Nat2Z.id, Ha, Hb. Qed.

Lemma initCosts_entry (city_vec : list City) (m : Cost) (i j : nat) (a b : City) :
  coords_fit city_vec ->
  (forall i j, 0 <= i < Z.of_nat (length city_vec) ->
               0 <= j < Z.of_nat (length city_vec) ->
     entry m i j = cost_at city_vec (Z.min i j) (Z.max i j)) ->
  city_vec !! i = Some a -> city_vec !! j = Some b ->
  entry m (Z.of_nat i) (Z.of_nat j) = round_sqrt (sq_dist a b).
Proof.
  intros Hfit He Ha Hb.
  assert (a ∈ city_vec /\ b ∈ city_vec) as [Hina Hinb]
    by (split; apply list_elem_of_lookup; eauto).
  apply lookup_lt_Some in Ha as Hi. apply lookup_lt_Some in Hb as Hj.
  rewrite He by lia.
  destruct (Z.le_ge_cases (Z.of_nat i) (Z.of_nat j)) as [Hle|Hge].
  - rewrite Z.min_l, Z.max_r by done.
    rewrite (cost_at_cities city_vec i j a b) by done.
    apply city_cost_exact. by apply coords_fit_elem with city_vec.
  - rewrite Z.min_r, Z.max_l by done.
    rewrite (cost_at_cities city_vec j i b a) by done.
    rewrite (sq_dist_sym a b).
    apply city_cost_exact. by apply coords_fit_elem with city_vec.
Qed.

(** The integer half of the matter: the invariant of the matrix, and each
    entry as the rounded root of the squared distance. *)
Lemma initCosts_invariant (city_vec : list City) :
  coords_fit city_vec ->
  exists m, initCosts city_vec = Ok m /\
    distance_matrix m (Z.of_nat (length city_vec)) /\
    (forall i j, 0 <= i < Z.of_nat (length city_vec) ->
                 0 <= j < Z.of_nat (length city_vec) -> entry m i j <= 46341) /\
    forall (i j : nat) (a b : City),
      city_vec !! i = Some a -> city_vec !! j = Some b ->
      entry m (Z.of_nat i) (Z.of_nat j) = round_sqrt (sq_dist a b).
Proof.
  intros Hfit. destruct (initCosts_spec city_vec) as (m & Hm & Hsq & He).
  exists m. split; [done|].
  assert (forall i, 0 <= i < Z.of_nat (length city_vec) ->
            exists a, city_vec !! Z.to_nat i = Some a) as Hcity.
  { intros i Hi. apply lookup_lt_is_Some_2. lia. }
  split; [constructor|split].
  - done.
  - intros i j Hi Hj. rewrite !He by done. by rewrite Z.min_comm, Z.max_comm.
  - intros i Hi. destruct (Hcity i Hi) as [a Ha].
    rewrite He, Z.min_id, Z.max_id by done.
    unfold cost_at. rewrite Ha. apply city_cost_diag.
  - intros i j Hi Hj. destruct (Hcity i Hi) as [a Ha], (Hcity j Hj) as [b Hb].
    replace i with (Z.of_nat (Z.to_nat i)) by lia.
    replace j with (Z.of_nat (Z.to_nat j)) by lia.
    rewrite (initCosts_entry city_vec m _ _ a b) by done.
    apply round_sqrt_int, sq_dist_nonneg.
  - intros i j Hi Hj. rewrite He by done. apply cost_at_le.
  - intros i j a b Ha Hb. by apply (initCosts_entry city_vec).
Qed.

(** C9, counterexample. Two cities 46341 apart: the squared distance,
    2147488281, does not fit an [int]; it wraps to a negative number, whose
    square root is a NaN, and the entry stored for the pair is [INT_MIN]:
    negative, and not the distance 46341 rounded. *)
Lemma overflowing_distance_is_negative :
  exists m, initCosts [mkCity 0 0; mkCity 46341 0] = Ok m /\
    m = [[0; -2147483648]; [-2147483648; 0]] /\
    entry m 0 1 < 0 /\
    ~ rounds_half_up (euclid (mkCity 0 0) (mkCity 46341 0)) (entry m 0 1).
Proof.
  exists [[0; -2147483648]; [-2147483648; 0]].
  split; [vm_compute; reflexivity|]. split; [reflexivity|].
  assert (entry [[0; -2147483648]; [-2147483648; 0]] 0 1 = -2147483648) as ->
    by reflexivity.
  split; [lia|]. unfold rounds_half_up, euclid. intros [_ Hlt].
  pose proof (sqrt_pos
    ((IZR (city_x (mkCity 0 0)) - IZR (city_x (mkCity 46341 0)))
     * (IZR (city_x (mkCity 0 0)) - IZR (city_x (mkCity 46341 0)))
     + (IZR (city_y (mkCity 0 0)) - IZR (city_y (mkCity 46341 0)))
       * (IZR (city_y (mkCity 0 0)) - IZR (city_y (mkCity 46341 0))))) as Hpos.
  lra.
Qed.

(** C9, amended. The matrix [initCosts] builds from any list of cities is
    square, symmetric and zero on the diagonal.  If the squared distance of
    every two cities fits in an [int], every entry is moreover non-negative
    and is the Euclidean distance of its two cities rounded to the nearest
    integer, a tie going up. *)
Theorem initCosts_distance_matrix (city_vec : list City) :
  exists m, initCosts city_vec = Ok m /\
    let n := Z.of_nat (length city_vec) in
    is_square m n /\
    (forall i j, 0 <= i < n -> 0 <= j < n -> entry m i j = entry m j i) /\
    (forall i, 0 <= i < n -> entry m i i = 0) /\
    (coords_fit city_vec ->
       distance_matrix m n /\
       forall (i j : nat) (a b : City),
         city_vec !! i = Some a -> city_vec !! j = Some b ->
         rounds_half_up (euclid a b) (entry m (Z.of_nat i) (Z.of_nat j))).
Proof.
  destruct (initCosts_spec city_vec) as (m & Hm & Hsq & He).
  exists m. split; [done|]. cbv zeta. split_and!.
  - done.
  - intros i j Hi Hj. rewrite !He by done. by rewrite Z.min_comm, Z.max_comm.
  - intros i Hi.
    destruct (lookup_lt_is_Some_2 city_vec (Z.to_nat i)) as [a Ha]; [lia|].
    rewrite He, Z.min_id, Z.max_id by done.
    unfold cost_at. rewrite Ha. apply city_cost_diag.
  - intros Hfit.
    destruct (initCosts_invariant city_vec Hfit) as (m' & Hm' & Hdm & _ & Hround).
    assert (m' = m) as -> by congruence.
    split; [done|].
    intros i j a b Ha Hb. rewrite (Hround i j a b) by done.
    rewrite euclid_sq_dist. apply round_sqrt_real, sq_dist_nonneg.
Qed.

Lemma initCosts_distance_matrix_witness :
  exists m, initCosts [mkCity 0 0; mkCity 0 3; mkCity 4 3; mkCity 4 0] = Ok m /\
    distance_matrix m 4 /\
    forall (i j : nat) (a b : City),
      [mkCity 0 0; mkCity 0 3; mkCity 4 3; mkCity 4 0] !! i = Some a ->
      [mkCity 0 0; mkCity 0 3; mkCity 4 3; mkCity 4 0] !! j = Some b ->
      rounds_half_up (euclid a b) (entry m (Z.of_nat i) (Z.of_nat j)).
Proof.
  destruct (initCosts_distance_matrix [mkCity 0 0; mkCity 0 3; mkCity 4 3; mkCity 4 0])
    as (m & Hm & _ & _ & _ & Hfit).
  exists m. split; [exact Hm|]. apply Hfit.
  unfold coords_fit. repeat constructor; vm_compute; discriminate.
Defined.

(** ** The tour builder *)

Lemma foldr_add_bounds (B : Z) (l : list Z) :
  Forall (fun x => 0 <= x <= B) l ->
  0 <= foldr Z.add 0 l <= Z.of_nat (length l) * B.
Proof.
  induction 1 as [|x l Hx _ IH]; simpl; [lia|]. nia.
Qed.

Lemma at_in_range (p : list Z) (n : Z) (k : nat) :
  (forall c, c ∈ p -> 0 <= c < n) -> (k < length p)%nat -> 0 <= tour_at p k < n.
Proof.
  intros Hrange Hk. destruct (lookup_lt_is_Some_2 p k Hk) as [c Hc].
  unfold tour_at. rewrite Hc. simpl. apply Hrange, list_elem_of_lookup. eauto.
Qed.

Lemma tour_cost_bounds (m : Cost) (n B : Z) (p : list Z) :
  (forall i j, 0 <= i < n -> 0 <= j < n -> 0 <= entry m i j <= B) ->
  (forall c, c ∈ p -> 0 <= c < n) -> (0 < length p)%nat ->
  0 <= tour_cost m p <= Z.of_nat (length p) * B.
Proof.
  intros He Hrange Hlen. unfold tour_cost, edge_sum.
  pose proof (foldr_add_bounds B
    ((fun k => entry m (tour_at p k) (tour_at p (S k))) <$> seq 0 (length p - 1))) as Hsum.
  rewrite length_fmap, length_seq in Hsum.
  pose proof (He (tour_at p (length p - 1)) (tour_at p 0)
    ltac:(apply at_in_range; [done | lia])
    ltac:(apply at_in_range; [done | lia])) as Hclose.
  destruct Hsum as [Hs0 Hs1].
  - apply Forall_fmap, Forall_forall. intros k Hk%elem_of_seq. simpl.
    apply He; apply at_in_range; (done || lia).
  - nia.
Qed.

(** C4. From any list of cities and any start city in range, [calcPath] on
    the matrix of [initCosts] returns a tour that is a permutation of
    [0 .. N-1]: as long as the list of cities, without repetition, and
    beginning with the start city. *)
Theorem calcPath_tour_is_permutation (city_vec : list City) (start_city : Z) :
  0 <= start_city < Z.of_nat (length city_vec) ->
  exists m p, initCosts city_vec = Ok m /\
    calcPath m (Z.of_nat (length city_vec)) start_city = Ok p /\
    length (path p) = length city_vec /\
    path p ≡ₚ seqZ 0 (Z.of_nat (length city_vec)) /\
    NoDup (path p) /\
    head (path p) = Some start_city.
Proof.
  intros Hs. destruct (initCosts_below_max city_vec) as (m & Hm & Hsq & Hlt).
  destruct (calcPath_spec m _ Hsq Hlt start_city Hs)
    as (p & Hp & Hlen & Hnd & Hrange & Hhead & _).
  exists m, p. split_and!; try done.
  - lia.
  - by apply (calcPath_permutation m _ Hsq Hlt start_city).
Qed.

Lemma calcPath_tour_is_permutation_witness :
  exists m p,
    initCosts [mkCity 0 0; mkCity 0 3; mkCity 4 3; mkCity 4 0] = Ok m /\
    calcPath m 4 2 = Ok p /\
    length (path p) = 4%nat /\
    path p ≡ₚ seqZ 0 4 /\
    NoDup (path p) /\
    head (path p) = Some 2.
Proof.
  apply (calcPath_tour_is_permutation
           [mkCity 0 0; mkCity 0 3; mkCity 4 3; mkCity 4 0] 2).
  simpl. lia.
Defined.

(** C5, counterexample. For two cities 46341 apart both entries off the
    diagonal are [INT_MIN] (the squared distance overflows).  The cost
    [calcPath] returns for the tour [0; 1] is 0, the sum of the two entries
    reduced to an [int]; the sum itself is -4294967296. *)
Lemma overflowing_cost_is_not_tour_cost :
  exists m p, initCosts [mkCity 0 0; mkCity 46341 0] = Ok m /\
    calcPath m 2 0 = Ok p /\
    path p = [0; 1] /\
    pathcost p = 0 /\
    tour_cost m (path p) = -4294967296 /\
    pathcost p <> tour_cost m (path p).
Proof.
  exists [[0; -2147483648]; [-2147483648; 0]], (mkPath [0; 1] 0).
  split_and!; try (vm_compute; reflexivity). vm_compute. discriminate.
Qed.

(** C5, amended. From every start city [calcPath] returns a tour of all N
    cities, and the cost it returns is the sum of the matrix entries over
    the consecutive pairs of the tour plus the entry from the last city back
    to the first, reduced to an [int]; it is that sum itself when no
    squared distance overflows and at most 46340 cities are given, so that
    the sum fits.  A single city gives the tour [0] of cost 0. *)
Theorem calcPath_cost_is_tour_cost (city_vec : list City) (start_city : Z) :
  0 <= start_city < Z.of_nat (length city_vec) ->
  exists m p, initCosts city_vec = Ok m /\
    calcPath m (Z.of_nat (length city_vec)) start_city = Ok p /\
    length (path p) = length city_vec /\
    path p ≡ₚ seqZ 0 (Z.of_nat (length city_vec)) /\
    head (path p) = Some start_city /\
    pathcost p = Int.wrap (tour_cost m (path p)) /\
    (coords_fit city_vec -> Z.of_nat (length city_vec) <= 46340 ->
       pathcost p = tour_cost m (path p)) /\
    (length city_vec = 1%nat -> p = mkPath [0] 0).
Proof.
  intros Hs.
  destruct (initCosts_spec city_vec) as (m & Hm & Hsq & He).
  destruct (initCosts_below_max city_vec) as (m' & Hm' & _ & Hlt).
  assert (m' = m) as -> by congruence.
  destruct (calcPath_spec m _ Hsq Hlt start_city Hs)
    as (p & Hp & Hlen & Hnd & Hrange & Hhead & Hcost & _).
  exists m, p. split_and!; try done.
  - lia.
  - by apply (calcPath_permutation m _ Hsq Hlt start_city).
  - intros Hfit Hn.
    destruct (initCosts_invariant city_vec Hfit) as (m2 & Hm2 & Hdm & Hle & _).
    assert (m2 = m) as -> by congruence.
    destruct Hdm as [_ _ _ Hnonneg].
    assert (forall i j, 0 <= i < Z.of_nat (length city_vec) ->
                        0 <= j < Z.of_nat (length city_vec) ->
              0 <= entry m i j <= 46341) as Hbound.
    { intros i j Hi Hj. split; [by apply Hnonneg | by apply Hle]. }
    pose proof (tour_cost_bounds m _ 46341 (path p) Hbound Hrange ltac:(lia)) as Htc.
    rewrite Hcost. apply IntFacts.wrap_id. int_range.
  - intros H1. destruct p as [tour cost]. simpl in *.
    assert (start_city = 0) as -> by lia.
    destruct tour as [|c [|c' tour]]; simpl in *; try lia.
    injection Hhead as ->. rewrite Hcost. f_equal.
    unfold tour_cost, edge_sum, tour_at. simpl.
    destruct city_vec as [|a [|a' city_vec]]; simpl in *; try lia.
    rewrite He by (simpl; lia).
    unfold cost_at. simpl. rewrite city_cost_diag. reflexivity.
Qed.

Lemma calcPath_cost_is_tour_cost_witness :
  exists m p,
    initCosts [mkCity 0 0; mkCity 0 3; mkCity 4 3; mkCity 4 0] = Ok m /\
    calcPath m 4 0 = Ok p /\
    length (path p) = 4%nat /\
    path p ≡ₚ seqZ 0 4 /\
    head (path p) = Some 0 /\
    pathcost p = Int.wrap (tour_cost m (path p)) /\
    (coords_fit [mkCity 0 0; mkCity 0 3; mkCity 4 3; mkCity 4 0] -> 4 <= 46340 ->
       pathcost p = tour_cost m (path p)) /\
    (4%nat = 1%nat -> p = mkPath [0] 0).
Proof.
  apply (calcPath_cost_is_tour_cost
           [mkCity 0 0; mkCity 0 3; mkCity 4 3; mkCity 4 0] 0).
  simpl. lia.
Defined.

(** C6. Every step of the tour [calcPath] returns goes to an unvisited city
    at the least distance from the current one, the lowest-numbered of them
    in case of a tie; for the cities (0,0), (0,3), (4,3), (4,0) and start city 0
    the tour is 0, 1, 2, 3 and its cost 14. *)
Theorem calcPath_nearest_neighbour (city_vec : list City) (start_city : Z) :
  0 <= start_city < Z.of_nat (length city_vec) ->
  (exists m p, initCosts city_vec = Ok m /\
     calcPath m (Z.of_nat (length city_vec)) start_city = Ok p /\
     length (path p) = length city_vec /\
     greedy_tour m (Z.of_nat (length city_vec)) (path p)) /\
  (exists m, initCosts [mkCity 0 0; mkCity 0 3; mkCity 4 3; mkCity 4 0] = Ok m /\
     calcPath m 4 0 = Ok (mkPath [0; 1; 2; 3] 14)).
Proof.
  intros Hs. split.
  - destruct (initCosts_below_max city_vec) as (m & Hm & Hsq & Hlt).
    destruct (calcPath_spec m _ Hsq Hlt start_city Hs)
      as (p & Hp & Hlen & _ & _ & _ & _ & Hgreedy).
    exists m, p. split_and!; try done. lia.
  - eexists. split; [vm_compute; reflexivity|]. vm_compute. reflexivity.
Qed.

Lemma calcPath_nearest_neighbour_witness :
  (exists m p, initCosts [mkCity 0 0; mkCity 1 0; mkCity 2 0] = Ok m /\
     calcPath m 3 1 = Ok p /\
     length (path p) = 3%nat /\
     greedy_tour m 3 (path p)) /\
  (exists m, initCosts [mkCity 0 0; mkCity 0 3; mkCity 4 3; mkCity 4 0] = Ok m /\
     calcPath m 4 0 = Ok (mkPath [0; 1; 2; 3] 14)).
Proof.
  apply (calcPath_nearest_neighbour [mkCity 0 0; mkCity 1 0; mkCity 2 0] 1).
  simpl. lia.
Defined.

(** ** The worker and its deadline *)

Lemma least_spec (l : list Z) :
  Forall (fun x => x <= INT_MAX) l -> l <> [] ->
  least l ∈ l /\ forall x, x ∈ l -> least l <= x.
Proof.
  induction 1 as [|x l Hx Hl IH]; [done|]. intros _.
  rewrite least_cons. destruct l as [|y l].
  - unfold least. simpl. rewrite Z.min_l by done. split; [left|].
    intros z ->%list_elem_of_singleton. done.
  - destruct IH as [Hin Hle]; [done|].
    destruct (Z.le_ge_cases x (least (y :: l))) as [Hxl|Hxl].
    + rewrite Z.min_l by done. split; [left|].
      intros z [->|Hz]%elem_of_cons; [done|]. specialize (Hle z Hz). lia.
    + rewrite Z.min_r by done. split; [by right|].
      intros z [->|Hz]%elem_of_cons; [done|]. by apply Hle.
Qed.

Section Deadline.

Variable m : Cost.
Variable n : Z.
Hypothesis Hsq : is_square m n.
Hypothesis Hlt : forall i j, 0 <= i < n -> 0 <= j < n -> entry m i j < INT_MAX.

Variable b : bounds_t.
Hypothesis Hb : 0 <= b_start b.

Lemma clamp_end_bounds :
  b_start (clamp_end n b) = b_start b /\ b_end (clamp_end n b) <= n.
Proof. unfold clamp_end. destruct (Z.ltb_spec n (b_end b)); simpl; lia. Qed.

Lemma runthread_beyond (stop : Z) (clock : nat -> Z) :
  n < b_start b ->
  runthread m n stop clock b = mkRun [] (Thread_exit "Start city exceeds city count")
  /\ cities_of (clamp_end n b) = [].
Proof.
  intros Hbeyond. pose proof clamp_end_bounds as [Hst Hen]. split.
  - unfold runthread. by destruct (Z.ltb_spec n (b_start b)); [|lia].
  - unfold cities_of. apply seqZ_nil. lia.
Qed.

Lemma runthread_no_deadline (stop : Z) (clock : nat -> Z) :
  stop <= 0 -> (evaluated (runthread m n stop clock b)).*1 = cities_of (clamp_end n b).
Proof.
  intros Hstop. destruct (Z.le_gt_cases (b_start b) n) as [Hin|Hout].
  - rewrite (runthread_spec m n Hsq Hlt) by lia. cbv zeta.
    rewrite stop_index_no_deadline by done. rewrite seqZ_to_nat.
    pose proof clamp_end_bounds as [Hst _]. rewrite <- Hst at 1.
    apply (full_run_starts m n b).
  - destruct (runthread_beyond stop clock) as [-> ->]; [lia | done].
Qed.

Lemma runthread_deadline_passed (stop : Z) (clock : nat -> Z) (g : registry) :
  0 < stop -> stop < clock 0%nat -> global_best_length g <= INT_MAX ->
  evaluated (runthread m n stop clock b) = [] /\
  offer_run g (runthread m n stop clock b) = g.
Proof.
  intros Hset Hpassed Hg. destruct (Z.le_gt_cases (b_start b) n) as [Hin|Hout].
  - rewrite (runthread_spec m n Hsq Hlt) by lia. cbv zeta.
    assert (forall cnt, stop_index stop clock cnt 0 = 0%nat) as ->.
    { intros [|cnt]; [done|]. simpl. unfold deadline_passed.
      destruct (Z.ltb_spec 0 stop); [|lia].
      destruct (Z.ltb_spec stop (clock 0%nat)); [done | lia]. }
    split; [done|]. unfold offer_run, offer. simpl.
    destruct (Z.ltb_spec INT_MAX (global_best_length g)); [lia | done].
  - destruct (runthread_beyond stop clock) as [-> _]; [lia | done].
Qed.

Lemma runthread_prefix (stop : Z) (clock : nat -> Z) :
  (evaluated (runthread m n stop clock b)).*1 `prefix_of` cities_of (clamp_end n b)
  /\ forall c p, (c, p) ∈ evaluated (runthread m n stop clock b) ->
       b_start b <= c < n /\ calcPath m n c = Ok p.
Proof.
  destruct (Z.le_gt_cases (b_start b) n) as [Hin|Hout].
  - rewrite (runthread_spec m n Hsq Hlt) by lia. cbv zeta. simpl.
    pose proof clamp_end_bounds as [Hst Hen].
    set (cnt := Z.to_nat (b_end (clamp_end n b) - b_start (clamp_end n b))).
    pose proof (stop_index_le stop clock cnt 0) as Hj.
    set (j := stop_index stop clock cnt 0) in *.
    split.
    + rewrite fst_tagged. unfold cities_of.
      rewrite <- (seqZ_to_nat _ (b_end (clamp_end n b) - b_start (clamp_end n b))).
      fold cnt. rewrite Hst.
      exists (seqZ (b_start b + Z.of_nat j) (Z.of_nat cnt - Z.of_nat j)).
      rewrite <- seqZ_app by lia. f_equal. lia.
    + intros c p (c' & [= -> ->] & Hc)%list_elem_of_fmap.
      apply elem_of_seqZ in Hc.
      assert (b_start b <= c' < n) as Hrange by lia.
      split; [done|]. apply (calcPath_tour_of m n Hsq Hlt). lia.
  - destruct (runthread_beyond stop clock) as [-> ->]; [lia|]. simpl.
    split; [done|]. intros c p Hin. by apply elem_of_nil in Hin.
Qed.

End Deadline.

(** C8. A worker whose range starts at a valid city: without a deadline it
    evaluates every start city of its clamped range; when the deadline is
    set and the first check finds it passed, it evaluates none and its offer
    leaves the registry as it was; and in every case the start cities it
    evaluates are an initial part of its range, each with the finished tour
    of [calcPath], since the deadline is looked at only between two tours. *)
Theorem worker_deadline_semantics (city_vec : list City) (b : bounds_t)
    (stop : Z) (clock : nat -> Z) :
  0 <= b_start b ->
  exists m, initCosts city_vec = Ok m /\
    let n := Z.of_nat (length city_vec) in
    let r := runthread m n stop clock b in
    (stop <= 0 -> (evaluated r).*1 = cities_of (clamp_end n b)) /\
    (0 < stop -> stop < clock 0%nat ->
       evaluated r = [] /\
       forall g, global_best_length g <= INT_MAX -> offer_run g r = g) /\
    (evaluated r).*1 `prefix_of` cities_of (clamp_end n b) /\
    (forall c p, (c, p) ∈ evaluated r -> calcPath m n c = Ok p).
Proof.
  intros Hb. destruct (initCosts_below_max city_vec) as (m & Hm & Hsq & Hlt).
  exists m. split; [done|]. cbv zeta. split_and!.
  - by apply runthread_no_deadline.
  - intros Hset Hpassed. split.
    + by apply (runthread_deadline_passed m _ Hsq Hlt b Hb stop clock registry_init).
    + intros g Hg. by apply runthread_deadline_passed.
  - by apply runthread_prefix.
  - intros c p Hin. by apply (runthread_prefix m _ Hsq Hlt b Hb stop clock).
Qed.

Lemma worker_deadline_semantics_witness :
  exists m, initCosts [mkCity 0 0; mkCity 0 3; mkCity 4 3; mkCity 4 0] = Ok m /\
    let n := 4 in
    let r := runthread m n 100 (fun k => 101 + Z.of_nat k) (Bounds 1 5) in
    (100 <= 0 -> (evaluated r).*1 = cities_of (clamp_end n (Bounds 1 5))) /\
    (0 < 100 -> 100 < 101 + 0 ->
       evaluated r = [] /\
       forall g, global_best_length g <= INT_MAX -> offer_run g r = g) /\
    (evaluated r).*1 `prefix_of` cities_of (clamp_end n (Bounds 1 5)) /\
    (forall c p, (c, p) ∈ evaluated r -> calcPath m n c = Ok p).
Proof.
  apply (worker_deadline_semantics
           [mkCity 0 0; mkCity 0 3; mkCity 4 3; mkCity 4 0]
           (Bounds 1 5) 100 (fun k => 101 + Z.of_nat k)).
  simpl. lia.
Defined.

(** ** The partition of the start cities *)

(** C1 as stated fails: for 10 cities, 3 workers and offset 0 the loop of
    [main] gives the last worker the end 11, not 10. *)
Lemma partition_last_end_not_ncities :
  partition 10 0 3 = [Bounds 0 3; Bounds 3 6; Bounds 6 11] /\
  partition 10 0 3 <> [Bounds 0 3; Bounds 3 6; Bounds 6 10].
Proof. split; [reflexivity | discriminate]. Qed.

(** C1, amended. With [range = (N - s) / w], [main] assigns worker [i] the
    bounds [i*range + s] and [(i+1)*range + s], except that the last
    worker's end is [N + 1]; the clamp at the head of [runthread] turns that
    end into [N], and the clamped ranges, laid end to end, are exactly
    [s, s+1, ..., N-1].  For [N = 10], [w = 3], [s = 0] the assigned ranges
    are [0,3), [3,6), [6,11) and the clamped ones [0,3), [3,6), [6,10). *)
Theorem partition_ranges (ncities start_city num_threads : Z) :
  0 <= ncities < INT_MAX ->
  INT_MIN <= start_city <= ncities ->
  ncities - start_city <= INT_MAX ->
  1 <= num_threads <= INT_MAX ->
  let range := (ncities - start_city) `quot` num_threads in
  let bounds := partition ncities start_city num_threads in
  length bounds = Z.to_nat num_threads /\
  (forall i, 0 <= i < num_threads ->
     bounds !! Z.to_nat i =
       Some (Bounds (i * range + start_city)
               (if i =? num_threads - 1 then ncities + 1
                else (i + 1) * range + start_city)) /\
     (clamp_end ncities <$> bounds) !! Z.to_nat i =
       Some (Bounds (i * range + start_city)
               (if i =? num_threads - 1 then ncities
                else (i + 1) * range + start_city))) /\
  mjoin (cities_of <$> (clamp_end ncities <$> bounds))
    = seqZ start_city (ncities - start_city) /\
  partition 10 0 3 = [Bounds 0 3; Bounds 3 6; Bounds 6 11] /\
  clamp_end 10 <$> partition 10 0 3 = [Bounds 0 3; Bounds 3 6; Bounds 6 10].
Proof.
  intros Hn Hs Hns Hw range bounds. split_and!.
  - by apply partition_length.
  - intros i Hi.
    pose proof (partition_lookup ncities start_city num_threads Hn Hs Hns Hw i Hi)
      as Hl.
    split; [done|]. rewrite list_lookup_fmap. fold bounds range in Hl |- *.
    rewrite Hl. simpl. f_equal. unfold clamp_end. simpl.
    pose proof (range_bounds ncities start_city num_threads Hs Hw) as [Hr0 Hr1].
    fold range in Hr0, Hr1.
    destruct (Z.eqb_spec i (num_threads - 1)) as [->|Hne].
    + destruct (Z.ltb_spec ncities (ncities + 1)); [done | lia].
    + destruct (Z.ltb_spec ncities ((i + 1) * range + start_city)); [nia | done].
  - by apply effective_partition_tiles.
  - reflexivity.
  - reflexivity.
Qed.

Lemma partition_ranges_witness :
  let range := (10 - 0) `quot` 3 in
  let bounds := partition 10 0 3 in
  length bounds = Z.to_nat 3 /\
  (forall i, 0 <= i < 3 ->
     bounds !! Z.to_nat i =
       Some (Bounds (i * range + 0)
               (if i =? 3 - 1 then 10 + 1 else (i + 1) * range + 0)) /\
     (clamp_end 10 <$> bounds) !! Z.to_nat i =
       Some (Bounds (i * range + 0)
               (if i =? 3 - 1 then 10 else (i + 1) * range + 0))) /\
  mjoin (cities_of <$> (clamp_end 10 <$> bounds)) = seqZ 0 (10 - 0) /\
  partition 10 0 3 = [Bounds 0 3; Bounds 3 6; Bounds 6 11] /\
  clamp_end 10 <$> partition 10 0 3 = [Bounds 0 3; Bounds 3 6; Bounds 6 10].
Proof.
  apply (partition_ranges 10 0 3); unfold INT_MIN, INT_MAX; lia.
Defined.

(** ** Configuration errors *)

(** C2 as stated fails: with a worker count of 0 (or a negative one) the
    run does not end in a reported error. *)
Lemma zero_threads_no_report :
  ~ (exists msg, main [mkCity 0 0; mkCity 3 4] 0 0 0 (fun _ _ => 0) [] = Exit_failure msg)
  /\ ~ (exists msg, main [mkCity 0 0; mkCity 3 4] 0 (-1) 0 (fun _ _ => 0) [] = Exit_failure msg).
Proof.
  split; intros [msg Hmsg]; vm_compute in Hmsg; discriminate.
Qed.

(** C2, amended. With at least one worker and a start offset beyond the
    city count, the run ends with the message "Start city exceeds city
    count" and [exit(-1)], and no worker has evaluated a start city. *)
Theorem start_beyond_city_count_exits (city_vec : list City)
    (start_city num_threads stop : Z) (clock : nat -> nat -> Z) (order : list nat) :
  Z.of_nat (length city_vec) < start_city <= INT_MAX ->
  1 <= num_threads <= INT_MAX ->
  main city_vec start_city num_threads stop clock order
    = Exit_failure "Start city exceeds city count" /\
  exists m, initCosts city_vec = Ok m /\
    forall r, r ∈ thread_runs m (Z.of_nat (length city_vec))
                    start_city num_threads stop clock ->
      evaluated r = [].
Proof.
  intros Hs Hw. destruct (initCosts_spec city_vec) as (m & Hm & _).
  split.
  - unfold main. rewrite Hm.
    destruct (Z.ltb_spec num_threads 0); [lia|].
    destruct (Z.eqb_spec num_threads 0); [lia|].
    cbv zeta. by rewrite first_exit_beyond by lia.
  - exists m. split; [done|]. intros r Hr.
    by rewrite (thread_runs_beyond _ start_city num_threads
                  (Nat2Z.is_nonneg _) Hs Hw m stop clock r Hr).
Qed.

Lemma start_beyond_city_count_exits_witness :
  main [mkCity 0 0; mkCity 3 4] 5 2 0 (fun _ _ => 0) [0; 1]%nat
    = Exit_failure "Start city exceeds city count" /\
  exists m, initCosts [mkCity 0 0; mkCity 3 4] = Ok m /\
    forall r, r ∈ thread_runs m 2 5 2 0 (fun _ _ => 0) -> evaluated r = [].
Proof.
  apply (start_beyond_city_count_exits [mkCity 0 0; mkCity 3 4] 5 2 0
           (fun _ _ => 0) [0; 1]%nat).
  - simpl. unfold INT_MAX. lia.
  - unfold INT_MAX. lia.
Defined.

(** C3. When no worker produces a tour, [main] reaches
    [global_best_path->printPath(outfile)] with [global_best_path] still
    null: on empty input, with the start offset equal to the city count, and
    when the deadline has passed before the first tour. *)
Theorem no_tour_null_best_path :
  main [] 0 1 0 (fun _ _ => 0) [0%nat] = Null_best_path /\
  main [mkCity 0 0; mkCity 3 4] 2 1 0 (fun _ _ => 0) [0%nat] = Null_best_path /\
  main [mkCity 0 0; mkCity 3 4] 0 1 100 (fun _ _ => 101) [0%nat] = Null_best_path.
Proof. split_and!; vm_compute; reflexivity. Qed.

(** ** The search as a whole *)

Section MinCost.

Variable m : Cost.
Variables n start_city : Z.
Hypothesis Hsq : is_square m n.
Hypothesis Hlt : forall i j, 0 <= i < n -> 0 <= j < n -> entry m i j < INT_MAX.
Hypothesis Hs : 0 <= start_city.

Lemma tour_of_cost_le_max (c : Z) : 0 <= c < n -> pathcost (tour_of m n c) <= INT_MAX.
Proof.
  intros Hc. destruct (calcPath_spec m n Hsq Hlt c Hc) as (p & Hp & _ & _ & _ & _ & Hcost & _).
  unfold tour_of. rewrite Hp, Hcost. apply IntFacts.wrap_in_range.
Qed.

(** [min_cost] is the least of the tour costs over the start cities
    [start_city .. n-1]. *)
Lemma min_cost_spec :
  (forall c p, start_city <= c < n -> calcPath m n c = Ok p ->
     min_cost m n start_city <= pathcost p) /\
  (start_city < n ->
     exists c p, start_city <= c < n /\ calcPath m n c = Ok p /\
       pathcost p = min_cost m n start_city).
Proof.
  unfold min_cost.
  set (costs := (fun c => pathcost (tour_of m n c)) <$> seqZ start_city (n - start_city)).
  assert (Forall (fun x => x <= INT_MAX) costs) as Hmax.
  { apply Forall_fmap, Forall_seqZ. intros c Hc. simpl.
    apply tour_of_cost_le_max. lia. }
  split.
  - intros c p Hc Hp.
    assert (pathcost p ∈ costs) as Hin.
    { apply list_elem_of_fmap. exists c. split.
      - unfold tour_of. by rewrite Hp.
      - apply elem_of_seqZ. lia. }
    destruct costs as [|x costs]; [by apply elem_of_nil in Hin|].
    by apply (least_spec (x :: costs) Hmax).
  - intros Hne.
    assert (costs <> []) as Hcosts.
    { unfold costs. rewrite (seqZ_cons start_city) by lia. done. }
    destruct (least_spec costs Hmax Hcosts) as [Hin _].
    apply list_elem_of_fmap in Hin as (c & Heq & Hc).
    apply elem_of_seqZ in Hc.
    exists c, (tour_of m n c). split; [lia|]. split; [|done].
    apply (calcPath_tour_of m n Hsq Hlt). lia.
Qed.

End MinCost.

(** C7. Without a deadline, the registry ends with the same length whether
    one worker or [k > 1] workers share the start cities, and in whatever
    order the workers take the mutex: the least tour cost over the start
    cities from the offset on ([INT_MAX] when there is none).  A tour that
    [main] prints has that cost. *)
Theorem search_cost_independent_of_workers (city_vec : list City)
    (start_city k stop : Z) (clock1 clockk : nat -> nat -> Z)
    (order1 orderk : list nat) :
  Z.of_nat (length city_vec) < INT_MAX ->
  0 <= start_city <= Z.of_nat (length city_vec) ->
  1 < k <= INT_MAX ->
  stop <= 0 ->
  order1 ≡ₚ seq 0 1 ->
  orderk ≡ₚ seq 0 (Z.to_nat k) ->
  exists m, initCosts city_vec = Ok m /\
    let n := Z.of_nat (length city_vec) in
    global_best_length (reduce (thread_runs m n start_city 1 stop clock1) order1)
      = min_cost m n start_city /\
    global_best_length (reduce (thread_runs m n start_city k stop clockk) orderk)
      = min_cost m n start_city /\
    (forall p, main city_vec start_city 1 stop clock1 order1 = Printed p ->
       pathcost p = min_cost m n start_city) /\
    (forall p, main city_vec start_city k stop clockk orderk = Printed p ->
       pathcost p = min_cost m n start_city) /\
    (forall c p, start_city <= c < n -> calcPath m n c = Ok p ->
       min_cost m n start_city <= pathcost p) /\
    (start_city < n ->
       exists c p, start_city <= c < n /\ calcPath m n c = Ok p /\
         pathcost p = min_cost m n start_city).
Proof.
  intros Hn Hs Hk Hstop Ho1 Hok.
  destruct (initCosts_below_max city_vec) as (m & Hm & Hsq & Hlt).
  exists m. split; [done|]. cbv zeta.
  set (n := Z.of_nat (length city_vec)) in *.
  assert (0 <= n < INT_MAX) as Hn' by (unfold n; lia).
  assert (1 <= 1 <= INT_MAX) as H1 by (unfold INT_MAX; lia).
  assert (1 <= k <= INT_MAX) as Hk' by lia.
  destruct (reduce_no_deadline m n start_city 1 Hsq Hlt Hn' Hs H1 stop clock1 order1
              Hstop Ho1) as [Hok1 Hlen1].
  destruct (reduce_no_deadline m n start_city k Hsq Hlt Hn' Hs Hk' stop clockk orderk
              Hstop Hok) as [Hokk Hlenk].
  destruct (main_reaches_print city_vec start_city 1 Hn Hs H1 m stop clock1 order1
              Hm Hsq Hlt) as [_ Hmain1].
  destruct (main_reaches_print city_vec start_city k Hn Hs Hk' m stop clockk orderk
              Hm Hsq Hlt) as [_ Hmaink].
  fold n in Hmain1, Hmaink.
  destruct (min_cost_spec m n start_city Hsq Hlt ltac:(lia)) as [Hleast Hattained].
  split_and!; try done.
  - intros p Hp. rewrite Hmain1 in Hp. destruct Hok1 as (_ & Hpath & _).
    destruct (global_best_path _) as [p'|] eqn:Hbest; [|done].
    injection Hp as ->. rewrite <- Hlen1. by apply Hpath.
  - intros p Hp. rewrite Hmaink in Hp. destruct Hokk as (_ & Hpath & _).
    destruct (global_best_path _) as [p'|] eqn:Hbest; [|done].
    injection Hp as ->. rewrite <- Hlenk. by apply Hpath.
Qed.

Lemma search_cost_independent_of_workers_witness :
  exists m, initCosts [mkCity 0 0; mkCity 0 3; mkCity 4 3; mkCity 4 0] = Ok m /\
    let n := 4 in
    global_best_length
      (reduce (thread_runs m n 1 1 0 (fun _ _ => 0)) [0%nat])
      = min_cost m n 1 /\
    global_best_length
      (reduce (thread_runs m n 1 2 0 (fun _ _ => 0)) [1%nat; 0%nat])
      = min_cost m n 1 /\
    (forall p, main [mkCity 0 0; mkCity 0 3; mkCity 4 3; mkCity 4 0] 1 1 0
                 (fun _ _ => 0) [0%nat] = Printed p ->
       pathcost p = min_cost m n 1) /\
    (forall p, main [mkCity 0 0; mkCity 0 3; mkCity 4 3; mkCity 4 0] 1 2 0
                 (fun _ _ => 0) [1%nat; 0%nat] = Printed p ->
       pathcost p = min_cost m n 1) /\
    (forall c p, 1 <= c < n -> calcPath m n c = Ok p -> min_cost m n 1 <= pathcost p) /\
    (1 < n ->
       exists c p, 1 <= c < n /\ calcPath m n c = Ok p /\ pathcost p = min_cost m n 1).
Proof.
  apply (search_cost_independent_of_workers
           [mkCity 0 0; mkCity 0 3; mkCity 4 3; mkCity 4 0] 1 2 0
           (fun _ _ => 0) (fun _ _ => 0) [0%nat] [1%nat; 0%nat]).
  - simpl. unfold INT_MAX. lia.
  - simpl. lia.
  - unfold INT_MAX. lia.
  - lia.
  - reflexivity.
  - simpl. apply perm_swap.
Defined.




(** * Further properties of the code *)

(** ** Ties: who keeps the best tour *)

(** What a run of comparisons with [<] leaves: the start value if nothing is
    strictly below it, otherwise the first of the least candidates. *)
Lemma foldl_adopt_first (lb : local_best) (ps : list Path) :
  (foldl adopt lb ps = lb /\
   forall j q, ps !! j = Some q -> local_best_length lb <= pathcost q)
  \/
  (exists k p, ps !! k = Some p /\
     foldl adopt lb ps = mkLocal (pathcost p) (Some p) /\
     pathcost p < local_best_length lb /\
     (forall j q, (j < k)%nat -> ps !! j = Some q -> pathcost p < pathcost q) /\
     (forall j q, ps !! j = Some q -> pathcost p <= pathcost q)).
Proof.
  revert lb. induction ps as [|p0 ps IH]; intros lb.
  - left. split; [done|]. intros j q Hq. by rewrite lookup_nil in Hq.
  - change (foldl adopt lb (p0 :: ps)) with (foldl adopt (adopt lb p0) ps).
    destruct (Z.lt_ge_cases (pathcost p0) (local_best_length lb)) as [Hless|Hge].
    + assert (adopt lb p0 = mkLocal (pathcost p0) (Some p0)) as ->.
      { unfold adopt. cbv zeta.
        by destruct (Z.ltb_spec (pathcost p0) (local_best_length lb)); [|lia]. }
      right. destruct (IH (mkLocal (pathcost p0) (Some p0)))
        as [[Heq Hall]|(k & p & Hk & Heq & Hlt & Hbefore & Hall)]; simpl in *.
      * exists 0%nat, p0. split_and!; try done.
        -- intros j q Hj. lia.
        -- intros [|j] q Hq; simpl in Hq; [injection Hq as ->; lia | by eapply Hall].
      * exists (S k), p. split_and!; try done.
        -- lia.
        -- intros [|j] q Hj Hq; simpl in Hq.
           ++ injection Hq as ->. done.
           ++ eapply Hbefore; [|done]. lia.
        -- intros [|j] q Hq; simpl in Hq; [injection Hq as ->; lia | by eapply Hall].
    + assert (adopt lb p0 = lb) as ->.
      { unfold adopt. cbv zeta.
        by destruct (Z.ltb_spec (pathcost p0) (local_best_length lb)); [lia|]. }
      destruct (IH lb) as [[Heq Hall]|(k & p & Hk & Heq & Hlt & Hbefore & Hall)].
      * left. split; [done|].
        intros [|j] q Hq; simpl in Hq; [by injection Hq as -> | by eapply Hall].
      * right. exists (S k), p. split_and!; try done.
        -- intros [|j] q Hj Hq; simpl in Hq.
           ++ injection Hq as ->. lia.
           ++ eapply Hbefore; [|done]. lia.
        -- intros [|j] q Hq; simpl in Hq; [injection Hq as ->; lia | by eapply Hall].
Qed.

Lemma reduce_first (runs : list thread_run) (order : list nat) (g : registry) :
  global_best_length g <= INT_MAX ->
  (foldl (take_turn runs) g order = g /\
   forall j i, order !! j = Some i ->
     global_best_length g <= from_option run_length INT_MAX (runs !! i))
  \/
  (exists k i r l, order !! k = Some i /\ runs !! i = Some r /\
     ending r = Thread_done l /\
     foldl (take_turn runs) g order
       = mkRegistry (local_best_length l) (local_best_path l) /\
     local_best_length l < global_best_length g /\
     (forall j i', (j < k)%nat -> order !! j = Some i' ->
        local_best_length l < from_option run_length INT_MAX (runs !! i')) /\
     (forall j i', order !! j = Some i' ->
        local_best_length l <= from_option run_length INT_MAX (runs !! i'))).
Proof.
  revert g. induction order as [|i0 order IH]; intros g Hg.
  - left. split; [done|]. intros j i Hi. by rewrite lookup_nil in Hi.
  - cbn [foldl].
    assert (take_turn runs g i0 = g /\
            global_best_length g <= from_option run_length INT_MAX (runs !! i0)
            \/ exists r l, runs !! i0 = Some r /\ ending r = Thread_done l /\
                 take_turn runs g i0
                   = mkRegistry (local_best_length l) (local_best_path l) /\
                 local_best_length l < global_best_length g /\
                 from_option run_length INT_MAX (runs !! i0) = local_best_length l)
      as [[Hsame Hle]|(r & l & Hr & Hl & Hnew & Hless & Hrl)].
    { unfold take_turn. destruct (runs !! i0) as [r|] eqn:Hr; simpl; [|by left].
      unfold offer_run, run_length.
      destruct (ending r) as [msg|f|l] eqn:Hl; [by left | by left |].
      unfold offer.
      destruct (Z.ltb_spec (local_best_length l) (global_best_length g)).
      - right. by exists r, l.
      - by left. }
    + rewrite Hsame.
      destruct (IH g Hg) as [[Heq Hall]|(k & i & r & l & Hk & Hr & Hl & Heq & Hlt & Hbefore & Hall)].
      * left. split; [done|].
        intros [|j] i Hi; simpl in Hi; [by injection Hi as <- | by eapply Hall].
      * right. exists (S k), i, r, l. split_and!; try done.
        -- intros [|j] i' Hj Hi; simpl in Hi.
           ++ injection Hi as <-. lia.
           ++ eapply Hbefore; [|done]. lia.
        -- intros [|j] i' Hi; simpl in Hi; [injection Hi as <-; lia | by eapply Hall].
    + rewrite Hnew.
      destruct (IH (mkRegistry (local_best_length l) (local_best_path l)))
        as [[Heq Hall]|(k & i & r' & l' & Hk & Hr' & Hl' & Heq & Hlt & Hbefore & Hall)];
        simpl in *; [lia | |].
      * right. exists 0%nat, i0, r, l. split_and!; try done.
        -- intros j i' Hj. lia.
        -- intros [|j] i' Hi; simpl in Hi; [injection Hi as <-; lia | by eapply Hall].
      * right. exists (S k), i, r', l'. split_and!; try done.
        -- lia.
        -- intros [|j] i' Hj Hi; simpl in Hi.
           ++ injection Hi as <-. lia.
           ++ eapply Hbefore; [|done]. lia.
        -- intros [|j] i' Hi; simpl in Hi; [injection Hi as <-; lia | by eapply Hall].
Qed.

Lemma snd_tagged {A B : Type} (g : A -> B) (l : list A) :
  ((fun c => (c, g c)) <$> l).*2 = g <$> l.
Proof. induction l as [|x l IH]; [done|]. rewrite !fmap_cons, IH. done. Qed.

Lemma run_consistent_ok (r : thread_run) : run_consistent r -> run_ok r.
Proof.
  unfold run_consistent, run_ok. intros ->. apply foldl_adopt_ok, local_init_ok.
Qed.

Lemma run_consistent_length (r : thread_run) :
  run_consistent r -> run_length r = least (run_costs r).
Proof.
  unfold run_consistent, run_length, run_costs. intros ->.
  rewrite foldl_adopt_length by done. simpl.
  pose proof (least_le_max (pathcost <$> (evaluated r).*2)). lia.
Qed.

Lemma consistent_lengths (runs : list thread_run) :
  Forall run_consistent runs ->
  least (run_length <$> runs) = least (evaluated_costs runs).
Proof.
  intros Hruns. unfold evaluated_costs. rewrite least_join, <- list_fmap_compose.
  f_equal. apply list_fmap_ext. intros i r Hr. simpl.
  apply run_consistent_length. rewrite Forall_forall in Hruns.
  apply Hruns, list_elem_of_lookup. eauto.
Qed.

(** The registry after all offers, for workers whose local best is
    consistent with what they evaluated. *)
Lemma reduce_consistent (runs : list thread_run) (order : list nat) :
  Forall run_consistent runs -> order ≡ₚ seq 0 (length runs) ->
  global_best_length (reduce runs order) = least (evaluated_costs runs) /\
  (global_best_path (reduce runs order) = None <->
   least (evaluated_costs runs) = INT_MAX) /\
  (forall p, global_best_path (reduce runs order) = Some p ->
     pathcost p = least (evaluated_costs runs) /\
     exists r c, r ∈ runs /\ (c, p) ∈ evaluated r).
Proof.
  intros Hruns Hperm.
  assert (Forall run_ok runs) as Hok.
  { eapply Forall_impl; [exact Hruns|]. apply run_consistent_ok. }
  destruct (reduce_length runs order Hok Hperm) as [Hreg Hlen].
  rewrite consistent_lengths in Hlen by done.
  split; [done|].
  destruct (reduce_first runs order registry_init ltac:(done))
    as [[Heq _]|(k & i & r & l & Hk & Hr & Hl & Heq & Hlt & _)];
    fold (reduce runs order) in Heq.
  - rewrite <- Hlen, Heq. simpl. split; [done|]. intros p Hp. done.
  - assert (run_consistent r) as Hcons.
    { rewrite Forall_forall in Hruns. apply Hruns, list_elem_of_lookup. eauto. }
    assert (r ∈ runs) as Hin by (apply list_elem_of_lookup; eauto).
    unfold run_consistent in Hcons. rewrite Hl in Hcons. injection Hcons as ->.
    destruct (foldl_adopt_first (mkLocal INT_MAX None) (evaluated r).*2)
      as [[Hsame _]|(j & p & Hj & Hbest & _)].
    + rewrite Hsame in Hlt. simpl in Hlt. lia.
    + rewrite Hbest in Heq, Hlt. simpl in Heq, Hlt.
      rewrite <- Hlen, Heq. simpl.
      split; [split; [done | lia]|].
      intros p' [= <-]. split; [done|].
      rewrite list_lookup_fmap in Hj.
      destruct (evaluated r !! j) as [[c p0]|] eqn:Hev; [|done].
      simpl in Hj. injection Hj as ->.
      exists r, c. split; [done|]. apply list_elem_of_lookup. eauto.
Qed.

Section Outcome.

Variable city_vec : list City.
Variable m : Cost.
Variables start_city num_threads : Z.
Let n : Z := Z.of_nat (length city_vec).
Hypothesis Hm : initCosts city_vec = Ok m.
Hypothesis Hn : n < INT_MAX.
Hypothesis Hs : 0 <= start_city <= n.
Hypothesis Hw : 1 <= num_threads <= INT_MAX.

Lemma initCosts_ready :
  is_square m n /\
  forall i j, 0 <= i < n -> 0 <= j < n -> entry m i j < INT_MAX.
Proof.
  destruct (initCosts_below_max city_vec) as (m' & Hm' & Hsq & Hlt).
  assert (m' = m) as -> by congruence. done.
Qed.

Lemma thread_runs_consistent (stop : Z) (clock : nat -> nat -> Z) :
  Forall run_consistent (thread_runs m n start_city num_threads stop clock).
Proof.
  destruct initCosts_ready as [Hsq Hlt].
  apply Forall_forall. intros r (i & Hi)%list_elem_of_lookup.
  destruct (thread_runs_lookup m n start_city num_threads Hsq Hlt
              ltac:(unfold n in *; lia) Hs Hw stop clock i r Hi)
    as (b & _ & _ & ->).
  unfold run_consistent. simpl. by rewrite snd_tagged.
Qed.

Lemma thread_runs_length (stop : Z) (clock : nat -> nat -> Z) :
  length (thread_runs m n start_city num_threads stop clock) = Z.to_nat num_threads.
Proof.
  unfold thread_runs, partition. by rewrite length_imap, length_fmap, length_seqZ.
Qed.

(** Every tour a worker evaluated is the tour of [calcPath] from a start
    city of [start_city .. n-1]. *)
Lemma thread_runs_evaluated (stop : Z) (clock : nat -> nat -> Z)
    (r : thread_run) (c : Z) (p : Path) :
  r ∈ thread_runs m n start_city num_threads stop clock ->
  (c, p) ∈ evaluated r ->
  start_city <= c < n /\ calcPath m n c = Ok p.
Proof.
  destruct initCosts_ready as [Hsq Hlt].
  intros (i & Hi)%list_elem_of_lookup Hin.
  unfold thread_runs in Hi. rewrite list_lookup_imap in Hi.
  destruct (partition n start_city num_threads !! i) as [b|] eqn:Hb; [|done].
  simpl in Hi. injection Hi as <-.
  assert (start_city <= b_start b <= n) as Hst.
  { apply (partition_start_ok n start_city num_threads
             ltac:(unfold n in *; lia) Hs Hw).
    apply list_elem_of_lookup. eauto. }
  destruct (runthread_prefix m n Hsq Hlt b ltac:(lia) stop (clock i)) as [_ Hev].
  destruct (Hev c p Hin) as [Hc Hp]. split; [lia | done].
Qed.

(** How [main] ends when the start offset lies in [0, n]: it prints the tour
    in the registry, or finds the registry empty. *)
Lemma main_outcome (stop : Z) (clock : nat -> nat -> Z) (order : list nat) :
  order ≡ₚ seq 0 (Z.to_nat num_threads) ->
  let runs := thread_runs m n start_city num_threads stop clock in
  (least (evaluated_costs runs) = INT_MAX /\
   main city_vec start_city num_threads stop clock order = Null_best_path)
  \/
  (exists p r c, main city_vec start_city num_threads stop clock order = Printed p /\
     pathcost p = least (evaluated_costs runs) /\
     pathcost p < INT_MAX /\
     r ∈ runs /\ (c, p) ∈ evaluated r).
Proof.
  intros Hperm runs. destruct initCosts_ready as [Hsq Hlt].
  destruct (main_reaches_print city_vec start_city num_threads Hn Hs Hw m stop clock
              order Hm Hsq Hlt) as [_ Hmain].
  fold n runs in Hmain.
  destruct (reduce_consistent runs order (thread_runs_consistent stop clock))
    as (Hlen & Hnone & Hsome).
  { unfold runs. by rewrite thread_runs_length. }
  destruct (global_best_path (reduce runs order)) as [p|] eqn:Hpath.
  - right. destruct (Hsome p eq_refl) as (Hcost & r & c & Hr & Hc).
    exists p, r, c. split_and!; try done.
    pose proof (least_le_max (evaluated_costs runs)) as Hmax.
    destruct (Z.eq_dec (least (evaluated_costs runs)) INT_MAX) as [Heq|Hne]; [|lia].
    apply Hnone in Heq. done.
  - left. split; [|done]. by apply Hnone.
Qed.

End Outcome.

Lemma least_le_elem (l : list Z) (x : Z) : x ∈ l -> least l <= x.
Proof.
  induction l as [|y l IH]; intros Hx; [by apply elem_of_nil in Hx|].
  rewrite least_cons. apply elem_of_cons in Hx as [->|Hx]; [lia|].
  specialize (IH Hx). lia.
Qed.

Lemma evaluated_cost_elem (runs : list thread_run) (r : thread_run) (c : Z) (p : Path) :
  r ∈ runs -> (c, p) ∈ evaluated r -> pathcost p ∈ evaluated_costs runs.
Proof.
  intros Hr Hc. unfold evaluated_costs. apply list_elem_of_join.
  exists (run_costs r). split; [|by apply list_elem_of_fmap_2].
  unfold run_costs. apply list_elem_of_fmap. exists p. split; [done|].
  apply list_elem_of_fmap. by exists (c, p).
Qed.

(** X1. Whatever the deadline and the order at the mutex, a run with the
    start offset in [0, N] ends in one of two ways.  Either [main] prints a
    tour: then some worker evaluated it, it is the tour of [calcPath] from a
    start city of [offset, N), and it costs no more than any tour any worker
    evaluated.  Or no evaluated tour costs less than [INT_MAX] (in
    particular, none was evaluated) and [main] reaches [printPath] with a
    null [global_best_path]. *)
Theorem printed_tour_is_best_evaluated (city_vec : list City)
    (start_city num_threads stop : Z) (clock : nat -> nat -> Z) (order : list nat) :
  Z.of_nat (length city_vec) < INT_MAX ->
  0 <= start_city <= Z.of_nat (length city_vec) ->
  1 <= num_threads <= INT_MAX ->
  order ≡ₚ seq 0 (Z.to_nat num_threads) ->
  exists m, initCosts city_vec = Ok m /\
    let n := Z.of_nat (length city_vec) in
    let runs := thread_runs m n start_city num_threads stop clock in
    (main city_vec start_city num_threads stop clock order = Null_best_path /\
     forall r c p, r ∈ runs -> (c, p) ∈ evaluated r -> INT_MAX <= pathcost p)
    \/
    (exists p r c,
       main city_vec start_city num_threads stop clock order = Printed p /\
       r ∈ runs /\ (c, p) ∈ evaluated r /\
       start_city <= c < n /\ calcPath m n c = Ok p /\
       pathcost p < INT_MAX /\
       forall r' c' p', r' ∈ runs -> (c', p') ∈ evaluated r' ->
         pathcost p <= pathcost p').
Proof.
  intros Hn Hs Hw Hperm. destruct (initCosts_spec city_vec) as (m & Hm & _).
  exists m. split; [done|]. cbv zeta.
  destruct (main_outcome city_vec m start_city num_threads Hm Hn Hs Hw stop clock
              order Hperm) as [[Hleast Hmain]|(p & r & c & Hmain & Hcost & Hlt & Hr & Hc)].
  - left. split; [done|]. intros r c p Hr Hc. rewrite <- Hleast.
    apply least_le_elem. by apply (evaluated_cost_elem _ r c).
  - right. exists p, r, c.
    destruct (thread_runs_evaluated city_vec m start_city num_threads Hm Hn Hs Hw
                stop clock r c p Hr Hc) as [Hrange Hcalc].
    split_and!; try done; try lia.
    intros r' c' p' Hr' Hc'. rewrite Hcost.
    apply least_le_elem. by apply (evaluated_cost_elem _ r' c').
Qed.

Lemma printed_tour_is_best_evaluated_witness :
  exists m, initCosts [mkCity 0 0; mkCity 0 3; mkCity 4 3; mkCity 9 9] = Ok m /\
    let n := 4 in
    let runs := thread_runs m n 1 2 5 (fun i k => 5 + Z.of_nat i + Z.of_nat k) in
    (main [mkCity 0 0; mkCity 0 3; mkCity 4 3; mkCity 9 9] 1 2 5
       (fun i k => 5 + Z.of_nat i + Z.of_nat k) [1%nat; 0%nat] = Null_best_path /\
     forall r c p, r ∈ runs -> (c, p) ∈ evaluated r -> INT_MAX <= pathcost p)
    \/
    (exists p r c,
       main [mkCity 0 0; mkCity 0 3; mkCity 4 3; mkCity 9 9] 1 2 5
         (fun i k => 5 + Z.of_nat i + Z.of_nat k) [1%nat; 0%nat] = Printed p /\
       r ∈ runs /\ (c, p) ∈ evaluated r /\
       1 <= c < n /\ calcPath m n c = Ok p /\
       pathcost p < INT_MAX /\
       forall r' c' p', r' ∈ runs -> (c', p') ∈ evaluated r' ->
         pathcost p <= pathcost p').
Proof.
  apply (printed_tour_is_best_evaluated
           [mkCity 0 0; mkCity 0 3; mkCity 4 3; mkCity 9 9] 1 2 5
           (fun i k => 5 + Z.of_nat i + Z.of_nat k) [1%nat; 0%nat]).
  - simpl. unfold INT_MAX. lia.
  - simpl. lia.
  - unfold INT_MAX. lia.
  - simpl. apply perm_swap.
Defined.

(** X2. When no start city gets evaluated, because the start offset equals
    the city count (this includes empty input with offset 0) or because the
    deadline is set and has passed at every worker's first check, [main]
    reaches [global_best_path->printPath] with a null pointer, whatever the
    number of workers. *)
Theorem no_evaluation_null_best_path (city_vec : list City)
    (start_city num_threads stop : Z) (clock : nat -> nat -> Z) (order : list nat) :
  Z.of_nat (length city_vec) < INT_MAX ->
  0 <= start_city <= Z.of_nat (length city_vec) ->
  1 <= num_threads <= INT_MAX ->
  order ≡ₚ seq 0 (Z.to_nat num_threads) ->
  start_city = Z.of_nat (length city_vec) \/
    (0 < stop /\ forall i, stop < clock i 0%nat) ->
  main city_vec start_city num_threads stop clock order = Null_best_path.
Proof.
  intros Hn Hs Hw Hperm Hcase. destruct (initCosts_spec city_vec) as (m & Hm & _).
  destruct (initCosts_ready city_vec m Hm) as [Hsq Hlt].
  destruct (main_outcome city_vec m start_city num_threads Hm Hn Hs Hw stop clock
              order Hperm) as [[_ Hmain]|(p & r & c & _ & _ & _ & Hr & Hc)]; [done|].
  exfalso. apply list_elem_of_lookup in Hr as (i & Hi).
  unfold thread_runs in Hi. rewrite list_lookup_imap in Hi.
  destruct (partition (Z.of_nat (length city_vec)) start_city num_threads !! i)
    as [b|] eqn:Hb; [|done].
  simpl in Hi. injection Hi as <-.
  assert (start_city <= b_start b <= Z.of_nat (length city_vec)) as Hst.
  { apply (partition_start_ok _ start_city num_threads
             (conj (Nat2Z.is_nonneg _) Hn) Hs Hw).
    apply list_elem_of_lookup. eauto. }
  destruct Hcase as [->|[Hset Hpassed]].
  - destruct (runthread_prefix m _ Hsq Hlt b ltac:(lia) stop (clock i)) as [_ Hev].
    destruct (Hev c p Hc) as [Hrange _]. lia.
  - destruct (runthread_deadline_passed m _ Hsq Hlt b ltac:(lia) stop (clock i)
                registry_init Hset (Hpassed i) ltac:(done)) as [Hnil _].
    rewrite Hnil in Hc. by apply elem_of_nil in Hc.
Qed.

Lemma no_evaluation_null_best_path_witness :
  main [mkCity 0 0; mkCity 0 3; mkCity 4 3] 3 2 0 (fun _ _ => 0) [0%nat; 1%nat]
    = Null_best_path.
Proof.
  apply (no_evaluation_null_best_path [mkCity 0 0; mkCity 0 3; mkCity 4 3] 3 2 0
           (fun _ _ => 0) [0%nat; 1%nat]).
  - simpl. unfold INT_MAX. lia.
  - simpl. lia.
  - unfold INT_MAX. lia.
  - reflexivity.
  - left. reflexivity.
Defined.

(** ** The search from end to end *)

(** With coordinates that fit and at most 46340 cities the cost of a tour
    is exact and well below [INT_MAX]. *)
Lemma calcPath_fit (city_vec : list City) (m : Cost) (c : Z) (p : Path) :
  coords_fit city_vec ->
  Z.of_nat (length city_vec) <= 46340 ->
  initCosts city_vec = Ok m ->
  0 <= c < Z.of_nat (length city_vec) ->
  calcPath m (Z.of_nat (length city_vec)) c = Ok p ->
  pathcost p = tour_cost m (path p) /\
  0 <= pathcost p <= Z.of_nat (length city_vec) * 46341 /\
  path p ≡ₚ seqZ 0 (Z.of_nat (length city_vec)).
Proof.
  intros Hfit Hn Hm Hc Hp.
  destruct (initCosts_invariant city_vec Hfit) as (m' & Hm' & Hdm & Hle & _).
  assert (m' = m) as -> by congruence.
  destruct Hdm as [Hsq _ _ Hnonneg].
  assert (forall i j, 0 <= i < Z.of_nat (length city_vec) ->
                      0 <= j < Z.of_nat (length city_vec) ->
            0 <= entry m i j <= 46341) as Hbound.
  { intros i j Hi Hj. split; [by apply Hnonneg | by apply Hle]. }
  assert (forall i j, 0 <= i < Z.of_nat (length city_vec) ->
                      0 <= j < Z.of_nat (length city_vec) ->
            entry m i j < INT_MAX) as Hlt.
  { intros i j Hi Hj. specialize (Hbound i j Hi Hj). unfold INT_MAX. lia. }
  destruct (calcPath_spec m _ Hsq Hlt c Hc)
    as (p' & Hp' & Hlen & Hnd & Hrange & Hhead & Hcost & _).
  assert (p' = p) as -> by congruence.
  pose proof (tour_cost_bounds m _ 46341 (path p) Hbound Hrange ltac:(lia)) as Htc.
  assert (pathcost p = tour_cost m (path p)) as Hexact.
  { rewrite Hcost. apply IntFacts.wrap_id. int_range. }
  split; [done|]. split; [lia|].
  by apply (calcPath_permutation m _ Hsq Hlt c).
Qed.

Lemma evaluated_all_no_deadline (city_vec : list City) (m : Cost)
    (start_city num_threads stop : Z) (clock : nat -> nat -> Z) (c : Z) :
  initCosts city_vec = Ok m ->
  Z.of_nat (length city_vec) < INT_MAX ->
  0 <= start_city <= Z.of_nat (length city_vec) ->
  1 <= num_threads <= INT_MAX ->
  stop <= 0 ->
  start_city <= c < Z.of_nat (length city_vec) ->
  exists r p,
    r ∈ thread_runs m (Z.of_nat (length city_vec)) start_city num_threads stop clock
    /\ (c, p) ∈ evaluated r.
Proof.
  intros Hm Hn Hs Hw Hstop Hc.
  destruct (initCosts_ready city_vec m Hm) as [Hsq Hlt].
  pose proof (evaluated_no_deadline m _ start_city num_threads Hsq Hlt
                (conj (Nat2Z.is_nonneg _) Hn) Hs Hw stop clock Hstop) as Hall.
  assert (c ∈ seqZ start_city (Z.of_nat (length city_vec) - start_city)) as Hin
    by (apply elem_of_seqZ; lia).
  rewrite <- Hall in Hin. apply list_elem_of_join in Hin as (l & Hcl & Hl).
  apply list_elem_of_fmap in Hl as (r & -> & Hr).
  apply list_elem_of_fmap in Hcl as ([c' p] & -> & Hcp).
  by exists r, p.
Qed.

(** Without a deadline the tour [main] prints is least in cost among the
    tours of all start cities from the offset on. *)
Lemma main_least_cost_tour (city_vec : list City)
    (start_city num_threads stop : Z) (clock : nat -> nat -> Z) (order : list nat) :
  coords_fit city_vec ->
  Z.of_nat (length city_vec) <= 46340 ->
  0 <= start_city < Z.of_nat (length city_vec) ->
  1 <= num_threads <= INT_MAX ->
  stop <= 0 ->
  order ≡ₚ seq 0 (Z.to_nat num_threads) ->
  exists m p c, initCosts city_vec = Ok m /\
    main city_vec start_city num_threads stop clock order = Printed p /\
    start_city <= c < Z.of_nat (length city_vec) /\
    calcPath m (Z.of_nat (length city_vec)) c = Ok p /\
    forall c' p', start_city <= c' < Z.of_nat (length city_vec) ->
      calcPath m (Z.of_nat (length city_vec)) c' = Ok p' ->
      pathcost p <= pathcost p'.
Proof.
  intros Hfit Hn Hs Hw Hstop Hperm.
  destruct (initCosts_spec city_vec) as (m & Hm & _).
  assert (Z.of_nat (length city_vec) < INT_MAX) as Hn' by (unfold INT_MAX; lia).
  assert (0 <= start_city <= Z.of_nat (length city_vec)) as Hs' by lia.
  assert (forall c p, start_city <= c < Z.of_nat (length city_vec) ->
            calcPath m (Z.of_nat (length city_vec)) c = Ok p ->
            pathcost p ∈ evaluated_costs
              (thread_runs m (Z.of_nat (length city_vec)) start_city num_threads
                 stop clock)) as Hcovered.
  { intros c p Hc Hp.
    destruct (evaluated_all_no_deadline city_vec m start_city num_threads stop clock c
                Hm Hn' Hs' Hw Hstop Hc) as (r & p' & Hr & Hcp).
    destruct (thread_runs_evaluated city_vec m start_city num_threads Hm Hn' Hs' Hw
                stop clock r c p' Hr Hcp) as [_ Hp'].
    assert (p' = p) as -> by congruence.
    by apply (evaluated_cost_elem _ r c). }
  destruct (main_outcome city_vec m start_city num_threads Hm Hn' Hs' Hw stop clock
              order Hperm) as [[Hleast _]|(p & r & c & Hmain & Hcost & Hlt & Hr & Hc)].
  - exfalso.
    destruct (initCosts_ready city_vec m Hm) as [Hsq Hlt].
    destruct (calcPath_spec m _ Hsq Hlt start_city ltac:(lia)) as (p0 & Hp0 & _).
    destruct (calcPath_fit city_vec m start_city p0 Hfit Hn Hm ltac:(lia) Hp0)
      as (_ & Hbound & _).
    pose proof (least_le_elem _ _ (Hcovered start_city p0 ltac:(lia) Hp0)) as Hle.
    rewrite Hleast in Hle. unfold INT_MAX in Hle. lia.
  - destruct (thread_runs_evaluated city_vec m start_city num_threads Hm Hn' Hs' Hw
                stop clock r c p Hr Hc) as [Hrange Hcalc].
    exists m, p, c. split_and!; try done; try lia.
    intros c' p' Hc' Hp'. rewrite Hcost. apply least_le_elem.
    by apply (Hcovered c').
Qed.

(** X3. A run on N >= 1 cities whose coordinates fit, N <= 46340, with the
    start offset in [0, N), at least one worker, no deadline and any order at
    the mutex prints a tour: the tour [calcPath] builds from one of the
    start cities [offset .. N-1], a permutation of [0 .. N-1], whose cost is
    the exact cost of its closed path and is least among the tours from all
    those start cities. *)
Theorem main_prints_least_cost_tour (city_vec : list City)
    (start_city num_threads stop : Z) (clock : nat -> nat -> Z) (order : list nat) :
  coords_fit city_vec ->
  Z.of_nat (length city_vec) <= 46340 ->
  0 <= start_city < Z.of_nat (length city_vec) ->
  1 <= num_threads <= INT_MAX ->
  stop <= 0 ->
  order ≡ₚ seq 0 (Z.to_nat num_threads) ->
  exists m p c, initCosts city_vec = Ok m /\
    let n := Z.of_nat (length city_vec) in
    main city_vec start_city num_threads stop clock order = Printed p /\
    start_city <= c < n /\ calcPath m n c = Ok p /\
    path p ≡ₚ seqZ 0 n /\
    pathcost p = tour_cost m (path p) /\
    forall c' p', start_city <= c' < n -> calcPath m n c' = Ok p' ->
      pathcost p <= pathcost p'.
Proof.
  intros Hfit Hn Hs Hw Hstop Hperm.
  destruct (main_least_cost_tour city_vec start_city num_threads stop clock order
              Hfit Hn Hs Hw Hstop Hperm) as (m & p & c & Hm & Hmain & Hc & Hcalc & Hleast).
  destruct (calcPath_fit city_vec m c p Hfit Hn Hm ltac:(lia) Hcalc)
    as (Hexact & _ & Hpermutation).
  exists m, p, c. split; [done|]. cbv zeta. split_and!; try done; lia.
Qed.

Lemma main_prints_least_cost_tour_witness :
  exists m p c,
    initCosts [mkCity 0 0; mkCity 0 3; mkCity 4 3; mkCity 9 9] = Ok m /\
    let n := 4 in
    main [mkCity 0 0; mkCity 0 3; mkCity 4 3; mkCity 9 9] 1 2 0 (fun _ _ => 0)
      [1%nat; 0%nat] = Printed p /\
    1 <= c < n /\ calcPath m n c = Ok p /\
    path p ≡ₚ seqZ 0 n /\
    pathcost p = tour_cost m (path p) /\
    forall c' p', 1 <= c' < n -> calcPath m n c' = Ok p' -> pathcost p <= pathcost p'.
Proof.
  apply (main_prints_least_cost_tour
           [mkCity 0 0; mkCity 0 3; mkCity 4 3; mkCity 9 9] 1 2 0 (fun _ _ => 0)
           [1%nat; 0%nat]).
  - unfold coords_fit. repeat constructor; vm_compute; discriminate.
  - simpl. lia.
  - simpl. lia.
  - unfold INT_MAX. lia.
  - lia.
  - simpl. apply perm_swap.
Defined.

(** ** Ties *)

(** X4. The local best a worker returns is the first of its least-cost
    tours: its length is the cost of its tour, no tour the worker evaluated
    costs less, and every tour it evaluated from a lower start city costs
    strictly more. *)
Theorem worker_keeps_lowest_start (city_vec : list City) (b : bounds_t)
    (stop : Z) (clock : nat -> Z) :
  0 <= b_start b ->
  exists m, initCosts city_vec = Ok m /\
    let n := Z.of_nat (length city_vec) in
    let r := runthread m n stop clock b in
    forall l p, ending r = Thread_done l -> local_best_path l = Some p ->
      local_best_length l = pathcost p /\
      exists c, (c, p) ∈ evaluated r /\
        forall c' p', (c', p') ∈ evaluated r ->
          pathcost p <= pathcost p' /\ (c' < c -> pathcost p < pathcost p').
Proof.
  intros Hb. destruct (initCosts_below_max city_vec) as (m & Hm & Hsq & Hlt).
  exists m. split; [done|]. cbv zeta. intros l p.
  destruct (Z.le_gt_cases (b_start b) (Z.of_nat (length city_vec))) as [Hin|Hout].
  - rewrite (runthread_spec m _ Hsq Hlt) by lia. cbv zeta. simpl.
    set (starts := seqZ (b_start b) _).
    intros [= <-] Hp.
    destruct (foldl_adopt_first (mkLocal INT_MAX None)
                (tour_of m (Z.of_nat (length city_vec)) <$> starts))
      as [[Hsame _]|(k & p0 & Hk & Hbest & _ & Hbefore & Hall)].
    + rewrite Hsame in Hp. done.
    + rewrite Hbest in Hp |- *. simpl in Hp |- *. injection Hp as ->.
      split; [done|].
      rewrite list_lookup_fmap in Hk.
      destruct (starts !! k) as [c|] eqn:Hc; [|done].
      simpl in Hk. injection Hk as <-.
      exists c. split.
      { apply list_elem_of_lookup. exists k. by rewrite list_lookup_fmap, Hc. }
      intros c' p' (i & Hi)%list_elem_of_lookup.
      rewrite list_lookup_fmap in Hi.
      destruct (starts !! i) as [c''|] eqn:Hc'; [|done].
      simpl in Hi. injection Hi as -> <-.
      assert ((tour_of m (Z.of_nat (length city_vec)) <$> starts) !! i
              = Some (tour_of m (Z.of_nat (length city_vec)) c')) as Hps
        by (by rewrite list_lookup_fmap, Hc').
      split; [by apply (Hall i)|].
      intros Hlow. apply (Hbefore i); [|done].
      apply lookup_seqZ in Hc as [-> _]. apply lookup_seqZ in Hc' as [-> _]. lia.
  - destruct (runthread_beyond m (Z.of_nat (length city_vec)) b stop clock Hout)
      as [-> _]. done.
Qed.

Lemma worker_keeps_lowest_start_witness :
  exists m, initCosts [mkCity 0 0; mkCity 0 3; mkCity 4 3; mkCity 4 0] = Ok m /\
    let n := 4 in
    let r := runthread m n 0 (fun _ => 0) (Bounds 1 5) in
    forall l p, ending r = Thread_done l -> local_best_path l = Some p ->
      local_best_length l = pathcost p /\
      exists c, (c, p) ∈ evaluated r /\
        forall c' p', (c', p') ∈ evaluated r ->
          pathcost p <= pathcost p' /\ (c' < c -> pathcost p < pathcost p').
Proof.
  apply (worker_keeps_lowest_start
           [mkCity 0 0; mkCity 0 3; mkCity 4 3; mkCity 4 0] (Bounds 1 5) 0 (fun _ => 0)).
  simpl. lia.
Defined.

(** X5. The tour left in the registry is the local best of the first worker,
    in the order of taking the mutex, whose local best length is the least:
    no worker returned a smaller length, and every worker that took the
    mutex earlier returned a strictly larger one. *)
Theorem first_to_lock_keeps_tour (runs : list thread_run) (order : list nat) (p : Path) :
  global_best_path (reduce runs order) = Some p ->
  exists k i r l,
    order !! k = Some i /\ runs !! i = Some r /\ ending r = Thread_done l /\
    local_best_path l = Some p /\
    global_best_length (reduce runs order) = local_best_length l /\
    forall j i' r' l',
      order !! j = Some i' -> runs !! i' = Some r' -> ending r' = Thread_done l' ->
      local_best_length l <= local_best_length l' /\
      ((j < k)%nat -> local_best_length l < local_best_length l').
Proof.
  intros Hp.
  destruct (reduce_first runs order registry_init ltac:(done))
    as [[Heq _]|(k & i & r & l & Hk & Hr & Hl & Heq & _ & Hbefore & Hall)];
    fold (reduce runs order) in Heq; rewrite Heq in Hp |- *; simpl in Hp |- *.
  - done.
  - exists k, i, r, l. split_and!; try done.
    intros j i' r' l' Hj Hr' Hl'.
    assert (from_option run_length INT_MAX (runs !! i') = local_best_length l') as Hrl.
    { rewrite Hr'. simpl. unfold run_length. by rewrite Hl'. }
    split.
    + rewrite <- Hrl. by apply (Hall j).
    + intros Hjk. rewrite <- Hrl. by apply (Hbefore j).
Qed.

Lemma first_to_lock_keeps_tour_witness :
  exists k i r l,
    [1%nat; 0%nat] !! k = Some i /\
    thread_runs [[0; 3; 5; 4]; [3; 0; 4; 5]; [5; 4; 0; 3]; [4; 5; 3; 0]]
      4 0 2 0 (fun _ _ => 0) !! i = Some r /\
    ending r = Thread_done l /\
    local_best_path l = Some (mkPath [2; 3; 0; 1] 14) /\
    global_best_length
      (reduce (thread_runs [[0; 3; 5; 4]; [3; 0; 4; 5]; [5; 4; 0; 3]; [4; 5; 3; 0]]
                 4 0 2 0 (fun _ _ => 0)) [1%nat; 0%nat])
      = local_best_length l /\
    forall j i' r' l',
      [1%nat; 0%nat] !! j = Some i' ->
      thread_runs [[0; 3; 5; 4]; [3; 0; 4; 5]; [5; 4; 0; 3]; [4; 5; 3; 0]]
        4 0 2 0 (fun _ _ => 0) !! i' = Some r' ->
      ending r' = Thread_done l' ->
      local_best_length l <= local_best_length l' /\
      ((j < k)%nat -> local_best_length l < local_best_length l').
Proof.
  apply (first_to_lock_keeps_tour
           (thread_runs [[0; 3; 5; 4]; [3; 0; 4; 5]; [5; 4; 0; 3]; [4; 5; 3; 0]]
              4 0 2 0 (fun _ _ => 0))
           [1%nat; 0%nat] (mkPath [2; 3; 0; 1] 14)).
  vm_compute. reflexivity.
Defined.

(** ** A negative start offset *)

Lemma calcPath_negative (m : Cost) (n c : Z) : c < 0 -> calcPath m n c = Fault OutOfBounds.
Proof.
  intros Hc. unfold calcPath, vec_set.
  destruct (Z.leb_spec 0 c); [lia | done].
Qed.

Lemma worker_loop_negative (m : Cost) (n stop : Z) (clock : nat -> Z) (cnt k : nat)
    (c : Z) (lb : local_best) (ev : list (Z * Path)) :
  stop <= 0 -> c < 0 ->
  worker_loop m n stop clock (S cnt) k c lb ev = mkRun ev (Thread_fault OutOfBounds).
Proof.
  intros Hstop Hc. simpl. unfold deadline_passed.
  destruct (Z.ltb_spec 0 stop); [lia|]. simpl. by rewrite calcPath_negative.
Qed.

Lemma first_fault_all (runs : list thread_run) (f : fault) :
  (forall r, r ∈ runs ->
     (exists l, ending r = Thread_done l) \/ ending r = Thread_fault f) ->
  (exists r, r ∈ runs /\ ending r = Thread_fault f) ->
  first_exit runs = None /\ first_fault runs = Some f.
Proof.
  induction runs as [|r runs IH]; intros Hall (r0 & Hr0 & Hf).
  - by apply elem_of_nil in Hr0.
  - simpl. destruct (Hall r ltac:(left)) as [[l Hl]|Hl]; rewrite Hl.
    + apply elem_of_cons in Hr0 as [->|Hr0]; [congruence|].
      apply IH; [|eauto]. intros r' Hr'. apply Hall. by right.
    + split; [|done].
      assert (forall rs, (forall r', r' ∈ rs ->
                (exists l, ending r' = Thread_done l) \/ ending r' = Thread_fault f) ->
              first_exit rs = None) as Hnoexit.
      { clear. induction rs as [|r' rs IH']; intros Hall'; [done|].
        simpl. destruct (Hall' r' ltac:(left)) as [[l Hl]|Hl]; rewrite Hl;
          apply IH'; intros r'' Hr''; apply Hall'; by right. }
      apply Hnoexit. intros r' Hr'. apply Hall. by right.
Qed.

(** X6. A negative start offset is not rejected.  Without a deadline, a
    worker whose range begins at the negative offset hands it to [calcPath],
    whose first statement [inpath[start_city] = true] then writes outside
    the vector: the run ends in that wild subscript, whatever the cities and
    the number of workers. *)
Theorem negative_start_out_of_bounds (city_vec : list City)
    (start_city num_threads stop : Z) (clock : nat -> nat -> Z) (order : list nat) :
  Z.of_nat (length city_vec) < INT_MAX ->
  INT_MIN <= start_city < 0 ->
  Z.of_nat (length city_vec) - start_city <= INT_MAX ->
  1 <= num_threads <= INT_MAX ->
  stop <= 0 ->
  main city_vec start_city num_threads stop clock order = Aborted OutOfBounds.
Proof.
  intros Hn Hs Hns Hw Hstop.
  destruct (initCosts_below_max city_vec) as (m & Hm & Hsq & Hlt).
  set (n := Z.of_nat (length city_vec)) in *.
  assert (0 <= n < INT_MAX) as Hn' by (unfold n; lia).
  assert (INT_MIN <= start_city <= n) as Hs' by lia.
  pose proof (range_bounds n start_city num_threads Hs' Hw) as [Hr0 Hr1].
  set (range := (n - start_city) `quot` num_threads) in *.
  (* every worker returns or hits the wild subscript *)
  assert (forall i b, partition n start_city num_threads !! i = Some b ->
            (exists l, ending (runthread m n stop (clock i) b) = Thread_done l)
            \/ ending (runthread m n stop (clock i) b) = Thread_fault OutOfBounds)
    as Hends.
  { intros i b Hb.
    assert (start_city <= b_start b <= n) as Hst.
    { apply (partition_start_range n start_city num_threads Hn' Hs' Hns Hw).
      apply list_elem_of_lookup. eauto. }
    destruct (Z.lt_ge_cases (b_start b) 0) as [Hneg|Hpos].
    - unfold runthread. destruct (Z.ltb_spec n (b_start b)); [lia|].
      assert (b_start (clamp_end n b) = b_start b) as ->.
      { unfold clamp_end. by destruct (n <? b_end b). }
      destruct (Z.to_nat (b_end (clamp_end n b) - b_start b)) as [|cnt].
      + left. simpl. eauto.
      + right. by rewrite worker_loop_negative.
    - left. rewrite (runthread_spec m n Hsq Hlt) by lia. simpl. eauto. }
  (* and one of them does hit it *)
  assert (exists i b, partition n start_city num_threads !! i = Some b /\
            ending (runthread m n stop (clock i) b) = Thread_fault OutOfBounds)
    as (i0 & b0 & Hb0 & Hfault).
  { set (i := if range =? 0 then num_threads - 1 else 0).
    assert (0 <= i < num_threads) as Hi by (unfold i; destruct (range =? 0); lia).
    pose proof (partition_lookup n start_city num_threads Hn' Hs' Hns Hw i Hi) as Hl.
    fold range in Hl.
    eexists (Z.to_nat i), _. split; [exact Hl|].
    assert (i * range = 0) as Hzero.
    { unfold i. destruct (Z.eqb_spec range 0) as [->|]; lia. }
    unfold runthread. simpl. rewrite Hzero, Z.add_0_l.
    destruct (Z.ltb_spec n start_city); [lia|].
    set (b := Bounds _ _).
    assert (b_start (clamp_end n b) = start_city /\
            start_city < b_end (clamp_end n b)) as [-> Hnonempty].
    { unfold b, clamp_end, i. simpl.
      destruct (Z.eqb_spec range 0) as [Hrz|Hrnz].
      - rewrite Z.eqb_refl.
        destruct (Z.ltb_spec n (n + 1)); simpl; lia.
      - destruct (Z.eqb_spec 0 (num_threads - 1)).
        + destruct (Z.ltb_spec n (n + 1)); simpl; lia.
        + destruct (Z.ltb_spec n ((0 + 1) * range + start_city)); simpl; lia. }
    destruct (Z.to_nat (b_end (clamp_end n b) - start_city)) as [|cnt] eqn:Hcnt; [lia|].
    by rewrite worker_loop_negative by lia. }
  destruct (first_fault_all (thread_runs m n start_city num_threads stop clock)
              OutOfBounds) as [Hexit Hff].
  - intros r (i & Hi)%list_elem_of_lookup. unfold thread_runs in Hi.
    rewrite list_lookup_imap in Hi.
    destruct (partition n start_city num_threads !! i) as [b|] eqn:Hb; [|done].
    simpl in Hi. injection Hi as <-. by apply Hends.
  - exists (runthread m n stop (clock i0) b0). split; [|done].
    apply list_elem_of_lookup. exists i0. unfold thread_runs.
    by rewrite list_lookup_imap, Hb0.
  - unfold main. rewrite Hm. fold n.
    destruct (Z.ltb_spec num_threads 0); [lia|].
    destruct (Z.eqb_spec num_threads 0); [lia|].
    cbv zeta. by rewrite Hexit, Hff.
Qed.

Lemma negative_start_out_of_bounds_witness :
  main [mkCity 0 0; mkCity 0 3; mkCity 4 3] (-1) 2 0 (fun _ _ => 0) [0%nat; 1%nat]
    = Aborted OutOfBounds.
Proof.
  apply (negative_start_out_of_bounds [mkCity 0 0; mkCity 0 3; mkCity 4 3] (-1) 2 0
           (fun _ _ => 0) [0%nat; 1%nat]).
  - simpl. unfold INT_MAX. lia.
  - unfold INT_MIN. lia.
  - simpl. unfold INT_MAX. lia.
  - unfold INT_MAX. lia.
  - lia.
Defined.

(** ** The matrix under a change of origin *)

Lemma for_range_ext {St : Type} (f g : Z -> St -> result St) (cnt : nat) (lo : Z) (st : St) :
  (forall i s, f i s = g i s) -> for_range cnt lo f st = for_range cnt lo g st.
Proof.
  intros Hfg. revert lo st. induction cnt as [|cnt IH]; intros lo st; [done|].
  simpl. rewrite Hfg. destruct (g lo st); simpl; [apply IH | done].
Qed.

Lemma vec_get_fmap {A B : Type} (f : A -> B) (v : list A) (i : Z) :
  vec_get (f <$> v) i = match vec_get v i with
                        | Ok a => Ok (f a)
                        | Fault e => Fault e
                        end.
Proof.
  unfold vec_get. destruct (i <? 0); [done|].
  rewrite list_lookup_fmap. by destruct (v !! Z.to_nat i).
Qed.

Lemma city_cost_translate (dx dy : Z) (a b : City) :
  city_cost (translate dx dy a) (translate dx dy b) = city_cost a b.
Proof.
  unfold city_cost, translate, Int.sub. simpl.
  replace (city_x a + dx - (city_x b + dx)) with (city_x a - city_x b) by lia.
  replace (city_y a + dy - (city_y b + dy)) with (city_y a - city_y b) by lia.
  reflexivity.
Qed.

Lemma initCosts_translate (dx dy : Z) (city_vec : list City) :
  initCosts (translate dx dy <$> city_vec) = initCosts city_vec.
Proof.
  unfold initCosts. rewrite length_fmap.
  apply for_range_ext. intros r m.
  apply for_range_ext. intros c m'.
  unfold initCosts_body. rewrite !vec_get_fmap.
  destruct (vec_get city_vec r) as [cr|]; [|done].
  destruct (vec_get city_vec c) as [cc|]; [|done].
  simpl. by rewrite city_cost_translate.
Qed.

(** X7. Only differences of coordinates reach the search: moving every city
    by the same offset leaves the distance matrix, and with it the outcome
    of the whole run, as they were.  With wrap-around subtraction this holds
    for every offset. *)
Theorem main_translation_invariant (dx dy : Z) (city_vec : list City)
    (start_city num_threads stop : Z) (clock : nat -> nat -> Z) (order : list nat) :
  initCosts (translate dx dy <$> city_vec) = initCosts city_vec /\
  main (translate dx dy <$> city_vec) start_city num_threads stop clock order
    = main city_vec start_city num_threads stop clock order.
Proof.
  split; [apply initCosts_translate|].
  unfold main. by rewrite initCosts_translate, length_fmap.
Qed.

(** ** The triangle inequality, after rounding *)

Lemma euclid_triangle (a b c : City) : (euclid a c <= euclid a b + euclid b c)%R.
Proof.
  pose proof (triangle (IZR (city_x a)) (IZR (city_y a)) (IZR (city_x c)) (IZR (city_y c))
                (IZR (city_x b)) (IZR (city_y b))) as Ht.
  unfold dist_euc, Rsqr in Ht. exact Ht.
Qed.

Lemma round_sqrt_triangle (a b c : City) :
  round_sqrt (sq_dist a c) <= round_sqrt (sq_dist a b) + round_sqrt (sq_dist b c) + 1.
Proof.
  pose proof (round_sqrt_real _ (sq_dist_nonneg a c)) as [Hac _].
  pose proof (round_sqrt_real _ (sq_dist_nonneg a b)) as [_ Hab].
  pose proof (round_sqrt_real _ (sq_dist_nonneg b c)) as [_ Hbc].
  rewrite <- !euclid_sq_dist in *.
  pose proof (euclid_triangle a b c) as Ht.
  assert (IZR (round_sqrt (sq_dist a c))
          < IZR (round_sqrt (sq_dist a b) + round_sqrt (sq_dist b c) + 2))%R as Hlt.
  { rewrite !plus_IZR. lra. }
  apply lt_IZR in Hlt. lia.
Qed.

(** X8. Rounding each distance to the nearest integer costs the matrix the
    triangle inequality, but by no more than one unit: for any three cities
    the direct entry exceeds the detour through the third by at most 1.
    The bound is attained: for the cities (0,0), (1,1), (2,2) the entries
    are 3 for the long leg and 1 for each short one. *)
Theorem rounded_triangle_inequality (city_vec : list City) :
  coords_fit city_vec ->
  exists m, initCosts city_vec = Ok m /\
    (forall i j k : Z,
       0 <= i < Z.of_nat (length city_vec) ->
       0 <= j < Z.of_nat (length city_vec) ->
       0 <= k < Z.of_nat (length city_vec) ->
       entry m i k <= entry m i j + entry m j k + 1) /\
    exists m', initCosts [mkCity 0 0; mkCity 1 1; mkCity 2 2] = Ok m' /\
      entry m' 0 2 = 3 /\ entry m' 0 1 = 1 /\ entry m' 1 2 = 1.
Proof.
  intros Hfit.
  destruct (initCosts_invariant city_vec Hfit) as (m & Hm & _ & _ & He).
  exists m. split; [done|]. split.
  - intros i j k Hi Hj Hk.
    destruct (lookup_lt_is_Some_2 city_vec (Z.to_nat i)) as [a Ha]; [lia|].
    destruct (lookup_lt_is_Some_2 city_vec (Z.to_nat j)) as [b Hb]; [lia|].
    destruct (lookup_lt_is_Some_2 city_vec (Z.to_nat k)) as [c Hc]; [lia|].
    pose proof (He _ _ _ _ Ha Hc) as Hac.
    pose proof (He _ _ _ _ Ha Hb) as Hab.
    pose proof (He _ _ _ _ Hb Hc) as Hbc.
    rewrite !Z2Nat.id in Hac, Hab, Hbc by lia.
    rewrite Hac, Hab, Hbc. apply round_sqrt_triangle.
  - eexists. split; [vm_compute; reflexivity|]. by vm_compute.
Qed.

Lemma rounded_triangle_inequality_witness :
  exists m, initCosts [mkCity 0 0; mkCity 0 3; mkCity 4 3] = Ok m /\
    (forall i j k : Z,
       0 <= i < 3 -> 0 <= j < 3 -> 0 <= k < 3 ->
       entry m i k <= entry m i j + entry m j k + 1) /\
    exists m', initCosts [mkCity 0 0; mkCity 1 1; mkCity 2 2] = Ok m' /\
      entry m' 0 2 = 3 /\ entry m' 0 1 = 1 /\ entry m' 1 2 = 1.
Proof.
  apply (rounded_triangle_inequality [mkCity 0 0; mkCity 0 3; mkCity 4 3]).
  unfold coords_fit. repeat constructor; vm_compute; discriminate.
Defined.

(** ** The size of each worker's share *)

(** X9. The start cities are shared out unevenly: every worker but the last
    gets [(N - s) / w] of them and the last one gets the remainder as well,
    up to [w - 1] more.  With fewer start cities than workers the quotient
    is 0, so the last worker builds every tour and the others none. *)
Theorem last_worker_takes_remainder (ncities start_city num_threads : Z) :
  0 <= ncities < INT_MAX ->
  INT_MIN <= start_city <= ncities ->
  ncities - start_city <= INT_MAX ->
  1 <= num_threads <= INT_MAX ->
  let range := (ncities - start_city) `quot` num_threads in
  let share (i : Z) : list Z :=
    from_option (fun b => cities_of (clamp_end ncities b)) []
      (partition ncities start_city num_threads !! Z.to_nat i) in
  (forall i, 0 <= i < num_threads - 1 -> Z.of_nat (length (share i)) = range) /\
  Z.of_nat (length (share (num_threads - 1)))
    = range + (ncities - start_city) `rem` num_threads /\
  (ncities - start_city < num_threads ->
     (forall i, 0 <= i < num_threads - 1 -> share i = []) /\
     share (num_threads - 1) = seqZ start_city (ncities - start_city)).
Proof.
  intros Hn Hs Hns Hw range share.
  pose proof (range_bounds ncities start_city num_threads Hs Hw) as [Hr0 Hr1].
  fold range in Hr0, Hr1.
  assert (forall i, 0 <= i < num_threads - 1 ->
            share i = seqZ (i * range + start_city) range) as Hreg.
  { intros i Hi. unfold share.
    rewrite (partition_lookup ncities start_city num_threads Hn Hs Hns Hw i) by lia.
    fold range. simpl.
    destruct (Z.eqb_spec i (num_threads - 1)); [lia|].
    unfold clamp_end, cities_of. simpl.
    destruct (Z.ltb_spec ncities ((i + 1) * range + start_city)); [nia|].
    simpl. f_equal. lia. }
  assert (share (num_threads - 1)
          = seqZ ((num_threads - 1) * range + start_city)
              (ncities - ((num_threads - 1) * range + start_city))) as Hlast.
  { unfold share.
    rewrite (partition_lookup ncities start_city num_threads Hn Hs Hns Hw
               (num_threads - 1)) by lia.
    fold range. simpl. rewrite Z.eqb_refl.
    unfold clamp_end, cities_of. simpl.
    by destruct (Z.ltb_spec ncities (ncities + 1)); [|lia]. }
  split_and!.
  - intros i Hi. rewrite Hreg, length_seqZ by done. lia.
  - rewrite Hlast, length_seqZ.
    pose proof (Z.quot_rem' (ncities - start_city) num_threads) as Hqr.
    fold range in Hqr. nia.
  - intros Hfew.
    assert (range = 0) as Hzero by (apply Z.quot_small; lia).
    split.
    + intros i Hi. rewrite Hreg by done. by rewrite Hzero.
    + rewrite Hlast, Hzero. f_equal; lia.
Qed.

Lemma last_worker_takes_remainder_witness :
  let share (i : Z) : list Z :=
    from_option (fun b => cities_of (clamp_end 3 b)) []
      (partition 3 0 8 !! Z.to_nat i) in
  (forall i, 0 <= i < 8 - 1 -> Z.of_nat (length (share i)) = (3 - 0) `quot` 8) /\
  Z.of_nat (length (share (8 - 1))) = (3 - 0) `quot` 8 + (3 - 0) `rem` 8 /\
  (3 - 0 < 8 ->
     (forall i, 0 <= i < 8 - 1 -> share i = []) /\
     share (8 - 1) = seqZ 0 (3 - 0)).
Proof.
  apply (last_worker_takes_remainder 3 0 8); unfold INT_MIN, INT_MAX; lia.
Defined.

(** ** A deadline that is not reached *)

Lemma worker_loop_unreached (m : Cost) (n stop : Z) (clock : nat -> Z)
    (cnt k : nat) (c : Z) (lb : local_best) (ev : list (Z * Path)) :
  (forall j, clock j <= stop) ->
  worker_loop m n stop clock cnt k c lb ev = worker_loop m n 0 clock cnt k c lb ev.
Proof.
  intros Hclock. revert k c lb ev.
  induction cnt as [|cnt IH]; intros k c lb ev; [done|].
  simpl. unfold deadline_passed.
  destruct (Z.ltb_spec stop (clock k)); [specialize (Hclock k); lia|].
  rewrite andb_false_r. simpl.
  destruct (calcPath m n c); [apply IH | done].
Qed.

Lemma thread_runs_unreached (m : Cost) (n start_city num_threads stop : Z)
    (clock : nat -> nat -> Z) :
  (forall i k, clock i k <= stop) ->
  thread_runs m n start_city num_threads stop clock
    = thread_runs m n start_city num_threads 0 clock.
Proof.
  intros Hclock. unfold thread_runs. apply imap_ext. intros i b _.
  unfold runthread. destruct (_ <? b_start b); [done|].
  apply worker_loop_unreached. intros j. apply Hclock.
Qed.

(** X10. A deadline that no worker sees pass changes nothing: if every
    reading of the clock is at most the stop time, the run ends exactly as
    it does with no deadline at all. *)
Theorem unreached_deadline_is_no_deadline (city_vec : list City)
    (start_city num_threads stop : Z) (clock : nat -> nat -> Z) (order : list nat) :
  (forall i k, clock i k <= stop) ->
  main city_vec start_city num_threads stop clock order
    = main city_vec start_city num_threads 0 clock order.
Proof.
  intros Hclock. unfold main.
  destruct (initCosts city_vec) as [m|]; [|done].
  by rewrite (thread_runs_unreached m _ start_city num_threads stop clock Hclock).
Qed.

Lemma unreached_deadline_is_no_deadline_witness :
  main [mkCity 0 0; mkCity 0 3; mkCity 4 3] 0 2 1700000060
       (fun i k => 1700000000 + Z.min (Z.of_nat k) 30) [1%nat; 0%nat]
  = main [mkCity 0 0; mkCity 0 3; mkCity 4 3] 0 2 0
       (fun i k => 1700000000 + Z.min (Z.of_nat k) 30) [1%nat; 0%nat].
Proof.
  apply (unreached_deadline_is_no_deadline [mkCity 0 0; mkCity 0 3; mkCity 4 3] 0 2
           1700000060 (fun i k => 1700000000 + Z.min (Z.of_nat k) 30)
           [1%nat; 0%nat]).
  intros i k. lia.
Defined.

(** * The files and the command line *)

(** ** Strings *)

Lemma string_app_cons (c : ascii) (s t : string) : String c s +:+ t = String c (s +:+ t).
Proof. reflexivity. Qed.

Lemma string_app_nil_r (s : string) : s +:+ "" = s.
Proof. induction s as [|c s IH]; [done|]. by rewrite string_app_cons, IH. Qed.

Lemma string_app_assoc (s t u : string) : (s +:+ t) +:+ u = s +:+ t +:+ u.
Proof. induction s as [|c s IH]; [done|]. by rewrite !string_app_cons, IH. Qed.

Lemma string_app_length (s t : string) :
  String.length (s +:+ t) = (String.length s + String.length t)%nat.
Proof.
  induction s as [|c s IH]; [done|]. rewrite string_app_cons. simpl. lia.
Qed.

Lemma all_chars_app (P : ascii -> bool) (s t : string) :
  all_chars P (s +:+ t) = all_chars P s && all_chars P t.
Proof.
  induction s as [|c s IH]; [done|].
  rewrite string_app_cons. simpl. rewrite IH. apply andb_assoc.
Qed.

Lemma all_chars_impl (P Q : ascii -> bool) (s : string) :
  (forall c, P c = true -> Q c = true) -> all_chars P s = true -> all_chars Q s = true.
Proof.
  intros HPQ. induction s as [|c s IH]; [done|]. simpl.
  intros [Hc Hs]%andb_true_iff. rewrite (HPQ c Hc). by apply IH.
Qed.

(** ** Numbers in decimal *)

Lemma is_nat_pretty_N_char (k : N) :
  (k < 10)%N -> Ascii.is_nat (pretty_N_char k) = Some (N.to_nat k).
Proof.
  intros Hk.
  assert (k = 0 \/ k = 1 \/ k = 2 \/ k = 3 \/ k = 4 \/ k = 5 \/ k = 6 \/ k = 7
          \/ k = 8 \/ k = 9)%N as Hcases by lia.
  by repeat destruct Hcases as [->|Hcases]; [..|subst k].
Qed.

(** The digits [pretty_N_go] puts before its accumulator. *)
Lemma pretty_N_go_digits (x : N) :
  exists ds : string,
    (forall s, pretty_N_go x s = ds +:+ s) /\
    all_chars is_digit ds = true /\
    ((0 < x)%N -> ds <> ""%string) /\
    (forall k : nat, Z.of_N x < 10 ^ Z.of_nat k -> (String.length ds <= k)%nat) /\
    forall acc r,
      digits acc (ds +:+ r)
      = digits (acc * 10 ^ Z.of_nat (String.length ds) + Z.of_N x) r.
Proof.
  induction (N.lt_wf_0 x) as [x _ IH].
  destruct (N.eq_dec x 0%N) as [Hzero|Hpos].
  - rewrite Hzero. exists ""%string. split_and!; try done.
    + intros k _. simpl. lia.
    + intros acc r. simpl. f_equal. lia.
  - destruct (IH (x `div` 10)%N) as (ds & Hgo & Hall & _ & Hlen & Hdig).
    { apply N.div_lt; lia. }
    pose proof (N.mod_lt x 10%N ltac:(done)) as Hmod.
    pose proof (is_nat_pretty_N_char _ Hmod) as Hd.
    set (d := pretty_N_char (x `mod` 10)) in *.
    pose proof (N.div_mod x 10%N ltac:(done)) as Hx.
    exists (ds +:+ String d ""). split_and!.
    + intros s. rewrite pretty_N_go_step by lia. fold d.
      by rewrite Hgo, string_app_assoc.
    + rewrite all_chars_app, Hall. simpl. unfold is_digit. by rewrite Hd.
    + intros _. destruct ds; done.
    + intros k Hk. rewrite string_app_length. simpl.
      destruct k as [|k]; [simpl in Hk; lia|].
      specialize (Hlen k). rewrite Nat2Z.inj_succ, Z.pow_succ_r in Hk by lia.
      assert (Z.of_N (x `div` 10) < 10 ^ Z.of_nat k) as Hdiv.
      { rewrite N2Z.inj_div. apply Z.div_lt_upper_bound; lia. }
      specialize (Hlen Hdiv). lia.
    + intros acc r. rewrite string_app_assoc, string_app_cons, Hdig.
      change ("" +:+ r) with r. simpl. rewrite Hd.
      rewrite string_app_length. simpl.
      replace (Z.of_nat (String.length ds + 1)) with (Z.succ (Z.of_nat (String.length ds)))
        by lia.
      rewrite Z.pow_succ_r by lia. f_equal. lia.
Qed.

Lemma digits_stop (acc : Z) (r : string) :
  starts_with_digit r = false -> digits acc r = (acc, r).
Proof.
  destruct r as [|c r]; [done|]. simpl. unfold is_digit.
  by destruct (Ascii.is_nat c).
Qed.

Lemma starts_with_digit_app (ds r : string) :
  ds <> ""%string -> all_chars is_digit ds = true -> starts_with_digit (ds +:+ r) = true.
Proof.
  destruct ds as [|c ds]; [done|]. intros _ [Hc _]%andb_true_iff. done.
Qed.

Lemma is_digit_not_space (c : ascii) : is_digit c = true -> Ascii.is_space c = false.
Proof.
  unfold is_digit.
  destruct c as [[] [] [] [] [] [] [] []]; simpl; done.
Qed.

Lemma is_digit_not_sign (c : ascii) :
  is_digit c = true -> c <> "-"%char /\ c <> "+"%char.
Proof. intros Hc. split; intros ->; done. Qed.

(** The text [%d] prints for [z]: a minus sign if [z] is negative, then the
    digits of its absolute value, which read back as that value. *)
Lemma pretty_Z_digits (z : Z) :
  exists ds : string,
    pretty z = (if z <? 0 then "-"%string else ""%string) +:+ ds /\
    all_chars is_digit ds = true /\
    ds <> ""%string /\
    (forall k : nat, Z.abs z < 10 ^ Z.of_nat k -> (1 <= k)%nat ->
       (String.length ds <= k)%nat) /\
    forall r, starts_with_digit r = false -> digits 0 (ds +:+ r) = (Z.abs z, r).
Proof.
  destruct z as [|p|p].
  - exists "0"%string. split_and!; try done.
    intros r Hr. rewrite string_app_cons. simpl. by apply digits_stop.
  - destruct (pretty_N_go_digits (N.pos p)) as (ds & Hgo & Hall & Hne & Hlen & Hdig).
    exists ds. split_and!; try done.
    + unfold pretty, pretty_Z, pretty, pretty_positive, pretty, pretty_N.
      case_decide; [done|]. by rewrite Hgo, string_app_nil_r.
    + by apply Hne.
    + intros k Hk _. by apply Hlen.
    + intros r Hr. rewrite Hdig, Z.mul_0_l, Z.add_0_l. by apply digits_stop.
  - destruct (pretty_N_go_digits (N.pos p)) as (ds & Hgo & Hall & Hne & Hlen & Hdig).
    exists ds. split_and!; try done.
    + unfold pretty, pretty_Z, pretty, pretty_positive, pretty, pretty_N.
      case_decide; [done|]. by rewrite Hgo, string_app_nil_r.
    + by apply Hne.
    + intros k Hk _. by apply Hlen.
    + intros r Hr. rewrite Hdig, Z.mul_0_l, Z.add_0_l. by apply digits_stop.
Qed.

Lemma skip_space_digits (ds r : string) :
  ds <> ""%string -> all_chars is_digit ds = true -> skip_space (ds +:+ r) = ds +:+ r.
Proof.
  destruct ds as [|c ds]; [done|]. intros _ [Hc _]%andb_true_iff.
  rewrite string_app_cons. simpl. by rewrite is_digit_not_space.
Qed.

(** Reading back what [%d] printed. *)
Lemma scan_int_pretty (z : Z) (r : string) :
  starts_with_digit r = false -> scan_int (pretty z +:+ r) = Some (z, r).
Proof.
  intros Hr. destruct (pretty_Z_digits z) as (ds & -> & Hall & Hne & _ & Hdig).
  pose proof (starts_with_digit_app ds r Hne Hall) as Hstart.
  unfold scan_int. destruct (Z.ltb_spec z 0) as [Hneg|Hpos].
  - rewrite string_app_assoc, string_app_cons. change ("" +:+ ds +:+ r) with (ds +:+ r).
    simpl. rewrite Hstart, (Hdig r Hr). do 2 f_equal. lia.
  - rewrite string_app_assoc. change ("" +:+ ds +:+ r) with (ds +:+ r).
    rewrite skip_space_digits by done.
    specialize (Hdig r Hr).
    destruct ds as [|c ds]; [done|]. rewrite string_app_cons in *.
    apply andb_true_iff in Hall as [Hc _].
    destruct (is_digit_not_sign c Hc) as [Hminus Hplus].
    assert (match String c (ds +:+ r) with
            | String "-" r0 => (true, r0)
            | String "+" r0 => (false, r0)
            | _ => (false, String c (ds +:+ r))
            end = (false, String c (ds +:+ r))) as ->.
    { destruct c as [[] [] [] [] [] [] [] []]; done. }
    rewrite Hstart, Hdig. do 2 f_equal. lia.
Qed.

Lemma fits_int_spec (v : Z) : fits_int v = true <-> Int.in_range v.
Proof. unfold fits_int, Int.in_range. rewrite andb_true_iff, !Z.leb_le. done. Qed.

Lemma scan_d_pretty (z : Z) (r : string) :
  Int.in_range z -> starts_with_digit r = false ->
  scan_d (pretty z +:+ r) = Some (z, r).
Proof.
  intros Hz Hr. unfold scan_d. rewrite scan_int_pretty by done.
  apply fits_int_spec in Hz. by rewrite Hz.
Qed.

Lemma skip_space_idem (s : string) : skip_space (skip_space s) = skip_space s.
Proof.
  induction s as [|c s IH]; [done|]. simpl.
  destruct (Ascii.is_space c) eqn:Hc; [done|]. simpl. by rewrite Hc.
Qed.

Lemma scan_d_skip_space (s : string) : scan_d (skip_space s) = scan_d s.
Proof. unfold scan_d, scan_int. by rewrite skip_space_idem. Qed.

Lemma scan_d_space (c : ascii) (s : string) :
  Ascii.is_space c = true -> scan_d (String c s) = scan_d s.
Proof. intros Hc. unfold scan_d, scan_int. simpl. by rewrite Hc. Qed.

Lemma scan_d_blank (s : string) : scan_d (skip_space (" " +:+ s)) = scan_d s.
Proof.
  rewrite scan_d_skip_space. change (" " +:+ s) with (String " " s).
  by apply scan_d_space.
Qed.

(** The three numbers of a line, whatever follows the third. *)
Lemma sscanf_line (id x y : Z) (tail : string) :
  Int.in_range id -> Int.in_range x -> Int.in_range y ->
  starts_with_digit tail = false ->
  sscanf (pretty id +:+ " " +:+ pretty x +:+ " " +:+ pretty y +:+ tail)
    = Some (id, x, y).
Proof.
  intros Hid Hx Hy Htail. unfold sscanf.
  rewrite scan_d_pretty by done. cbn [mbind option_bind].
  rewrite scan_d_blank, scan_d_pretty by done. cbn [mbind option_bind].
  rewrite scan_d_blank, scan_d_pretty by done. done.
Qed.

Lemma is_digit_not_newline (c : ascii) : is_digit c = true -> not_newline c = true.
Proof.
  intros Hc. unfold not_newline.
  destruct (Ascii.eqb_spec c newline) as [->|]; done.
Qed.

Lemma pretty_no_newline (z : Z) : all_chars not_newline (pretty z) = true.
Proof.
  destruct (pretty_Z_digits z) as (ds & -> & Hall & _).
  rewrite all_chars_app.
  rewrite (all_chars_impl _ _ ds is_digit_not_newline Hall).
  by destruct (z <? 0).
Qed.

Lemma pretty_length (z : Z) : Int.in_range z -> (String.length (pretty z) <= 11)%nat.
Proof.
  intros Hz. destruct (pretty_Z_digits z) as (ds & -> & _ & _ & Hlen & _).
  rewrite string_app_length. specialize (Hlen 10%nat).
  assert (String.length ds <= 10)%nat.
  { apply Hlen; [|lia]. unfold Int.in_range, INT_MIN, INT_MAX in Hz.
    change (10 ^ Z.of_nat 10) with 10000000000. lia. }
  destruct (z <? 0); simpl; lia.
Qed.

(** ** [fgets] *)

Lemma fgets_split (room : nat) (f : string) :
  (fgets room f).1 +:+ (fgets room f).2 = f.
Proof.
  revert f. induction room as [|room IH]; intros [|c f]; try done.
  cbn [fgets]. destruct (Ascii.eqb c newline); [done|].
  specialize (IH f). destruct (fgets room f) as [b r]. simpl in *. by rewrite <- IH.
Qed.

Lemma fgets_shorter (room : nat) (c : ascii) (f : string) :
  (String.length (fgets (S room) (String c f)).2 < String.length (String c f))%nat.
Proof.
  pose proof (fgets_split (S room) (String c f)) as Hsplit.
  cbn [fgets] in *. destruct (Ascii.eqb c newline); [simpl; lia|].
  destruct (fgets room f) as [b r]. simpl in *.
  injection Hsplit as <-. rewrite string_app_length. lia.
Qed.

(** A line that fits the buffer is read whole, newline included. *)
Lemma fgets_line (room : nat) (l rest : string) :
  all_chars not_newline l = true -> (String.length l < room)%nat ->
  fgets room (l +:+ String newline rest) = (l +:+ String newline "", rest).
Proof.
  revert room. induction l as [|c l IH]; intros room Hl Hroom.
  - destruct room as [|room]; [simpl in Hroom; lia|]. done.
  - destruct room as [|room]; [simpl in Hroom; lia|].
    simpl in Hl. apply andb_true_iff in Hl as [Hc Hl].
    rewrite !string_app_cons. cbn [fgets].
    unfold not_newline in Hc. apply negb_true_iff in Hc. rewrite Hc.
    rewrite IH; [done | done | simpl in Hroom; lia].
Qed.

(** So is a last line without a newline. *)
Lemma fgets_last (room : nat) (l : string) :
  all_chars not_newline l = true -> (String.length l <= room)%nat ->
  fgets room l = (l, ""%string).
Proof.
  revert room. induction l as [|c l IH]; intros room Hl Hroom.
  - by destruct room.
  - destruct room as [|room]; [simpl in Hroom; lia|].
    simpl in Hl. apply andb_true_iff in Hl as [Hc Hl].
    cbn [fgets]. unfold not_newline in Hc. apply negb_true_iff in Hc. rewrite Hc.
    rewrite IH; [done | done | simpl in Hroom; lia].
Qed.

Lemma ends_with_newline_cons (c : ascii) (s : string) :
  s <> ""%string -> ends_with_newline (String c s) = ends_with_newline s.
Proof. by destruct s. Qed.

Lemma fgets_app (room : nat) (f1 f2 : string) :
  ends_with_newline f1 = true ->
  fgets room (f1 +:+ f2) = ((fgets room f1).1, (fgets room f1).2 +:+ f2).
Proof.
  revert f1. induction room as [|room IH]; intros f1 Hf1.
  - by destruct f1.
  - destruct f1 as [|c f1]; [done|].
    rewrite string_app_cons. cbn [fgets].
    destruct (Ascii.eqb c newline) eqn:Hc; [done|].
    assert (f1 <> ""%string) as Hne.
    { intros ->. simpl in Hf1. congruence. }
    rewrite ends_with_newline_cons in Hf1 by done.
    rewrite (IH f1 Hf1). by destruct (fgets room f1).
Qed.

Lemma fgets_rest_whole (room : nat) (f : string) :
  ends_with_newline f = true ->
  (fgets room f).2 = ""%string \/ ends_with_newline (fgets room f).2 = true.
Proof.
  revert f. induction room as [|room IH]; intros f Hf.
  - destruct f; by right.
  - destruct f as [|c f]; [done|]. cbn [fgets].
    destruct f as [|c' f].
    + left. destruct (Ascii.eqb c newline); [done|]. by destruct room.
    + rewrite ends_with_newline_cons in Hf by done.
      destruct (Ascii.eqb c newline); [by right|].
      specialize (IH _ Hf). by destruct (fgets room (String c' f)).
Qed.

(** ** [Cities::read] *)

Lemma read_from_step (fuel : nat) (f : string) (city_vec : list City) :
  f <> ""%string ->
  read_from (S fuel) f city_vec =
    match sscanf (fgets 999 f).1 with
    | Some (_, x, y) => read_from fuel (fgets 999 f).2 (city_vec ++ [mkCity x y])
    | None => Indeterminate
    end.
Proof.
  intros Hf. destruct f as [|c f]; [done|]. cbn [read_from].
  by destruct (fgets 999 (String c f)).
Qed.

Lemma fgets_rest_length (f : string) :
  f <> ""%string -> (String.length (fgets 999 f).2 < String.length f)%nat.
Proof. intros Hf. destruct f as [|c f]; [done|]. apply (fgets_shorter 998). Qed.

(** The fuel is never used up: any amount from the length of [f] on gives
    the same result. *)
Lemma read_from_fuel (fuel1 fuel2 : nat) (f : string) (city_vec : list City) :
  (String.length f <= fuel1)%nat -> (String.length f <= fuel2)%nat ->
  read_from fuel1 f city_vec = read_from fuel2 f city_vec.
Proof.
  revert fuel2 f city_vec.
  induction fuel1 as [|fuel1 IH]; intros fuel2 f city_vec H1 H2.
  - destruct f; [|simpl in H1; lia]. by destruct fuel2.
  - destruct (decide (f = ""%string)) as [->|Hf]; [by destruct fuel2|].
    destruct fuel2 as [|fuel2]; [destruct f; [done | simpl in H2; lia]|].
    rewrite !read_from_step by done.
    pose proof (fgets_rest_length f Hf).
    destruct (sscanf _) as [[[_ x] y]|]; [|done].
    apply IH; lia.
Qed.

(** [read] appends to the cities it starts from. *)
Lemma read_from_acc (fuel : nat) (f : string) (city_vec : list City) :
  read_from fuel f city_vec =
    match read_from fuel f [] with
    | Cities cs => Cities (city_vec ++ cs)
    | Indeterminate => Indeterminate
    end.
Proof.
  revert f city_vec. induction fuel as [|fuel IH]; intros f city_vec.
  - simpl. by rewrite app_nil_r.
  - destruct (decide (f = ""%string)) as [->|Hf].
    { simpl. by rewrite app_nil_r. }
    rewrite !read_from_step by done.
    destruct (sscanf _) as [[[_ x] y]|]; [|done].
    rewrite (IH _ (city_vec ++ _)), (IH _ ([] ++ _)).
    destruct (read_from fuel _ []); [|done]. by rewrite <- app_assoc.
Qed.

Lemma read_from_app (fuel : nat) (f1 f2 : string) (city_vec : list City) :
  f1 = ""%string \/ ends_with_newline f1 = true ->
  (String.length f1 <= fuel)%nat ->
  read_from (fuel + String.length f2) (f1 +:+ f2) city_vec =
    match read_from fuel f1 city_vec with
    | Cities cs => read_from (String.length f2) f2 cs
    | Indeterminate => Indeterminate
    end.
Proof.
  revert f1 city_vec. induction fuel as [|fuel IH]; intros f1 city_vec Hwhole Hlen.
  - destruct f1; [done | simpl in Hlen; lia].
  - destruct Hwhole as [->|Hnl].
    { simpl read_from at 2. apply read_from_fuel; simpl; lia. }
    assert (f1 <> ""%string) as Hf1 by (by intros ->).
    assert (f1 +:+ f2 <> ""%string) as Hf12 by (by destruct f1).
    change (S fuel + String.length f2)%nat with (S (fuel + String.length f2)).
    rewrite !read_from_step by done.
    rewrite fgets_app by done. cbn [fst snd].
    destruct (sscanf _) as [[[_ x] y]|]; [|done].
    apply IH.
    + by apply fgets_rest_whole.
    + pose proof (fgets_rest_length f1 Hf1). lia.
Qed.

Lemma read_app_whole (f1 f2 : string) :
  f1 = ""%string \/ ends_with_newline f1 = true ->
  read (f1 +:+ f2) =
    match read f1, read f2 with
    | Cities cs1, Cities cs2 => Cities (cs1 ++ cs2)
    | _, _ => Indeterminate
    end.
Proof.
  intros Hwhole. unfold read.
  rewrite string_app_length, read_from_app by done.
  destruct (read_from (String.length f1) f1 []) as [cs1|]; [|done].
  apply read_from_acc.
Qed.

Lemma starts_with_digit_tail (tail : string) :
  starts_with_digit tail = false ->
  starts_with_digit (tail +:+ String newline "") = false.
Proof. by destruct tail. Qed.

Lemma input_line_body (id : Z) (c : City) (tail : string) :
  input_line id c tail =
    (pretty id +:+ " " +:+ pretty (city_x c) +:+ " " +:+ pretty (city_y c) +:+ tail)
    +:+ String newline "".
Proof. unfold input_line. by rewrite !string_app_assoc. Qed.

Lemma line_app (body rest : string) :
  (body +:+ String newline "") +:+ rest = body +:+ String newline rest.
Proof. by rewrite string_app_assoc. Qed.

(** One turn of the loop of [read] on a well-formed line. *)
Lemma read_from_line (fuel : nat) (id : Z) (c : City) (tail rest : string)
    (city_vec : list City) :
  well_formed_line id c tail ->
  read_from (S fuel) (input_line id c tail +:+ rest) city_vec
    = read_from fuel rest (city_vec ++ [c]).
Proof.
  intros (Hid & Hx & Hy & Htail & Hnl & Hlen).
  assert (input_line id c tail +:+ rest <> ""%string) as Hne.
  { unfold input_line. destruct (pretty_Z_digits id) as (ds & -> & _ & Hds & _).
    destruct (id <? 0); [done|]. by destruct ds. }
  rewrite read_from_step by done.
  rewrite input_line_body, line_app, fgets_line.
  - cbn [fst snd]. rewrite !string_app_assoc.
    rewrite sscanf_line by (try done; by apply starts_with_digit_tail).
    by destruct c.
  - rewrite !all_chars_app, !pretty_no_newline, Hnl. done.
  - rewrite !string_app_length.
    pose proof (pretty_length id Hid). pose proof (pretty_length _ Hx).
    pose proof (pretty_length _ Hy). simpl. lia.
Qed.

Lemma input_line_length (id : Z) (c : City) (tail : string) :
  (1 <= String.length (input_line id c tail))%nat.
Proof.
  rewrite input_line_body, string_app_length. simpl. lia.
Qed.

Lemma read_from_rows (rows : list (Z * City * string)) (fuel : nat)
    (city_vec : list City) :
  Forall (fun '(id, c, tail) => well_formed_line id c tail) rows ->
  (String.length (input_text rows) <= fuel)%nat ->
  read_from fuel (input_text rows) city_vec = Cities (city_vec ++ (snd ∘ fst <$> rows)).
Proof.
  revert fuel city_vec. induction rows as [|[[id c] tail] rows IH];
    intros fuel city_vec Hrows Hfuel.
  - simpl. rewrite app_nil_r. by destruct fuel.
  - apply Forall_cons in Hrows as [Hrow Hrows].
    change (input_text ((id, c, tail) :: rows))
      with (input_line id c tail +:+ input_text rows) in *.
    rewrite string_app_length in Hfuel.
    pose proof (input_line_length id c tail).
    destruct fuel as [|fuel]; [lia|].
    rewrite read_from_line by done.
    rewrite IH by (done || lia).
    by rewrite <- app_assoc.
Qed.

Lemma skip_space_all (ws r : string) :
  all_chars Ascii.is_space ws = true -> skip_space (ws +:+ r) = skip_space r.
Proof.
  induction ws as [|c ws IH]; [done|].
  intros [Hc Hws]%andb_true_iff. rewrite string_app_cons. cbn [skip_space].
  rewrite Hc. by apply IH.
Qed.

Lemma sscanf_blank (ws : string) :
  all_chars Ascii.is_space ws = true -> sscanf ws = None.
Proof.
  intros Hws. unfold sscanf, scan_d, scan_int.
  rewrite <- (string_app_nil_r ws), skip_space_all by done. done.
Qed.

(** X11. Of a well-formed line [read] takes the second and third number as
    the coordinates; the id in front and any text after the third number are
    ignored.  The cities are numbered by the position of their line, not by
    the id. *)
Theorem read_well_formed_lines (rows : list (Z * City * string)) :
  Forall (fun '(id, c, tail) => well_formed_line id c tail) rows ->
  read (input_text rows) = Cities ((fun r => r.1.2) <$> rows).
Proof.
  intros Hrows. unfold read. by rewrite read_from_rows.
Qed.

Lemma read_well_formed_lines_witness :
  read (input_text [(7, mkCity 1 2, " Paris"%string); (7, mkCity (-3) 40, ""%string)])
  = Cities [mkCity 1 2; mkCity (-3) 40].
Proof.
  apply (read_well_formed_lines
           [(7, mkCity 1 2, " Paris"%string); (7, mkCity (-3) 40, ""%string)]).
  repeat constructor; simpl; unfold INT_MIN, INT_MAX; lia.
Defined.

Lemma print_input_text (city_vec : list City) :
  print city_vec = input_text (imap (fun i c => (Z.of_nat i, c, ""%string)) city_vec).
Proof.
  unfold print, input_text. by rewrite fmap_imap.
Qed.

(** X12. What [print] writes, [read] reads back: the same cities in the
    same order. *)
Theorem read_print_round_trip (city_vec : list City) :
  Forall (fun c => Int.in_range (city_x c) /\ Int.in_range (city_y c)) city_vec ->
  Z.of_nat (length city_vec) <= INT_MAX ->
  read (print city_vec) = Cities city_vec.
Proof.
  intros Hfit Hlen. rewrite print_input_text. unfold read.
  rewrite read_from_rows; [| |lia].
  - f_equal. simpl. rewrite fmap_imap. apply list_eq. intros i.
    rewrite list_lookup_imap. by destruct (city_vec !! i).
  - apply Forall_lookup. intros i [[id c] tail] Hi.
    rewrite list_lookup_imap in Hi.
    destruct (city_vec !! i) as [c'|] eqn:Hc; [|done].
    simpl in Hi. injection Hi as <- <- <-.
    apply lookup_lt_Some in Hc as Hlt.
    rewrite Forall_lookup in Hfit. destruct (Hfit _ _ Hc) as [Hx Hy].
    split_and!; try done; unfold Int.in_range, INT_MIN, INT_MAX in *; simpl; lia.
Qed.

Lemma read_print_round_trip_witness :
  read (print [mkCity 0 0; mkCity (-2147483648) 2147483647; mkCity 10 (-5)])
  = Cities [mkCity 0 0; mkCity (-2147483648) 2147483647; mkCity 10 (-5)].
Proof.
  apply (read_print_round_trip
           [mkCity 0 0; mkCity (-2147483648) 2147483647; mkCity 10 (-5)]).
  - repeat constructor; simpl; unfold INT_MIN, INT_MAX; lia.
  - simpl. unfold INT_MAX. lia.
Defined.

(** X13. [read] works line by line: after a text that is empty or ends in a
    newline, a second text is read as it would be on its own, and its cities
    follow those of the first.  If either part leaves a city indeterminate,
    so does the whole. *)
Theorem read_concatenation (f1 f2 : string) :
  f1 = ""%string \/ ends_with_newline f1 = true ->
  read (f1 +:+ f2) =
    match read f1, read f2 with
    | Cities cs1, Cities cs2 => Cities (cs1 ++ cs2)
    | _, _ => Indeterminate
    end.
Proof.
  intros Hwhole. unfold read.
  rewrite string_app_length, read_from_app by done.
  destruct (read_from (String.length f1) f1 []) as [cs1|]; [|done].
  apply read_from_acc.
Qed.

Lemma read_concatenation_witness :
  read (print [mkCity 1 2] +:+ print [mkCity 3 4; mkCity 5 6]) =
    match read (print [mkCity 1 2]), read (print [mkCity 3 4; mkCity 5 6]) with
    | Cities cs1, Cities cs2 => Cities (cs1 ++ cs2)
    | _, _ => Indeterminate
    end.
Proof.
  apply (read_concatenation (print [mkCity 1 2]) (print [mkCity 3 4; mkCity 5 6])).
  right. vm_compute. reflexivity.
Defined.

(** X14. A line of white space only (an empty line, say at the end of the
    file) gives [sscanf] nothing to convert: [read] builds a city from
    uninitialised variables, whatever the lines before and after it. *)
Theorem read_blank_line_indeterminate (f1 ws f2 : string) :
  f1 = ""%string \/ ends_with_newline f1 = true ->
  all_chars blank ws = true ->
  (String.length ws < 999)%nat ->
  read (f1 +:+ ws +:+ String newline f2) = Indeterminate.
Proof.
  intros Hwhole Hws Hlen. unfold read.
  rewrite string_app_length, read_from_app by done.
  destruct (read_from (String.length f1) f1 []) as [cs1|]; [|done].
  rewrite string_app_length. simpl String.length.
  rewrite Nat.add_succ_r, read_from_step by (by destruct ws).
  rewrite fgets_line; [|by apply (all_chars_impl blank);
                          [intros c [_ ?]%andb_true_iff|] | done].
  cbn [fst]. rewrite sscanf_blank; [done|].
  rewrite all_chars_app. simpl. rewrite andb_true_r.
  apply (all_chars_impl blank); [|done]. by intros c [? _]%andb_true_iff.
Qed.

Lemma read_blank_line_indeterminate_witness :
  read (print [mkCity 1 2] +:+ "" +:+ String newline "") = Indeterminate.
Proof.
  apply (read_blank_line_indeterminate (print [mkCity 1 2]) "" "").
  - right. vm_compute. reflexivity.
  - reflexivity.
  - simpl. lia.
Defined.

(** ** [read] as the program runs it *)

Lemma to_int_fits (v : Z) : fits_int v = true -> to_int v = v.
Proof.
  intros Hv%fits_int_spec. unfold to_int.
  assert (Z.max LONG_MIN (Z.min LONG_MAX v) = v) as ->.
  { unfold Int.in_range, INT_MIN, INT_MAX, LONG_MIN, LONG_MAX in *. lia. }
  by apply IntFacts.wrap_id.
Qed.

Lemma atoi_in_range (v : string) : Int.in_range (atoi v).
Proof.
  unfold atoi. destruct (scan_int v) as [[z rest]|].
  - apply IntFacts.wrap_in_range.
  - unfold Int.in_range, INT_MIN, INT_MAX. lia.
Qed.

Lemma scan_d_Some (s : string) (v : Z) (r : string) :
  scan_d s = Some (v, r) -> scan_int s = Some (v, r) /\ to_int v = v.
Proof.
  unfold scan_d. destruct (scan_int s) as [[v' r']|]; [|done].
  destruct (fits_int v') eqn:Hfits; [|done]. intros [= <- <-].
  split; [done|]. by apply to_int_fits.
Qed.

(** Where [sscanf] converts three numbers that fit, they are what the
    variables hold afterwards, whatever they held before. *)
Lemma sscanf_stored_determinate (vars : Z * Z * Z) (buffer : string) (id x y : Z) :
  sscanf buffer = Some (id, x, y) -> sscanf_stored vars buffer = (id, x, y).
Proof.
  unfold sscanf, sscanf_stored. destruct vars as [[id0 x0] y0].
  destruct (scan_d buffer) as [[v0 r1]|] eqn:H0; [|done].
  apply scan_d_Some in H0 as [-> ->]. cbn [mbind option_bind].
  destruct (scan_d (skip_space r1)) as [[v1 r2]|] eqn:H1; [|done].
  apply scan_d_Some in H1 as [-> ->]. cbn [mbind option_bind].
  destruct (scan_d (skip_space r2)) as [[v2 r3]|] eqn:H2; [|done].
  apply scan_d_Some in H2 as [-> ->]. cbn [mbind option_bind].
  by intros [= <- <- <-].
Qed.

(** Where the text determines the cities, the program reads just these. *)
Lemma read_stored_from_determinate (fuel : nat) (f : string) (vars : Z * Z * Z)
    (city_vec cs : list City) :
  read_from fuel f city_vec = Cities cs ->
  read_stored_from fuel f vars city_vec = cs.
Proof.
  revert f vars city_vec. induction fuel as [|fuel IH]; intros f vars city_vec Hread.
  - destruct f; simpl in *; by injection Hread.
  - destruct f as [|c f]; [simpl in *; by injection Hread|].
    cbn [read_from read_stored_from] in *.
    destruct (fgets 999 (String c f)) as [buffer rest].
    destruct (sscanf buffer) as [[[id x] y]|] eqn:Hscan; [|done].
    rewrite (sscanf_stored_determinate vars buffer id x y Hscan).
    by apply IH.
Qed.

Lemma read_stored_determinate (vars : Z * Z * Z) (f : string) (cs : list City) :
  read f = Cities cs -> read_stored vars f = cs.
Proof. apply read_stored_from_determinate. Qed.

Lemma read_stored_from_step (fuel : nat) (f : string) (vars : Z * Z * Z)
    (city_vec : list City) :
  f <> ""%string ->
  read_stored_from (S fuel) f vars city_vec =
    read_stored_from fuel (fgets 999 f).2 (sscanf_stored vars (fgets 999 f).1)
      (city_vec ++ [mkCity (sscanf_stored vars (fgets 999 f).1).1.2
                           (sscanf_stored vars (fgets 999 f).1).2]).
Proof.
  intros Hf. destruct f as [|c f]; [done|]. cbn [read_stored_from].
  destruct (fgets 999 (String c f)) as [buffer rest]. cbn [fst snd].
  by destruct (sscanf_stored vars buffer) as [[id x] y].
Qed.

Lemma read_stored_from_fuel (fuel1 fuel2 : nat) (f : string) (vars : Z * Z * Z)
    (city_vec : list City) :
  (String.length f <= fuel1)%nat -> (String.length f <= fuel2)%nat ->
  read_stored_from fuel1 f vars city_vec = read_stored_from fuel2 f vars city_vec.
Proof.
  revert fuel2 f vars city_vec.
  induction fuel1 as [|fuel1 IH]; intros fuel2 f vars city_vec H1 H2.
  - destruct f; [|simpl in H1; lia]. by destruct fuel2.
  - destruct (decide (f = ""%string)) as [->|Hf]; [by destruct fuel2|].
    destruct fuel2 as [|fuel2]; [destruct f; [done | simpl in H2; lia]|].
    rewrite !read_stored_from_step by done.
    pose proof (fgets_rest_length f Hf). apply IH; lia.
Qed.

(** After whole lines that give their three numbers, the variables hold the
    coordinates of the last city read. *)
Lemma read_stored_from_app (fuel : nat) (f1 f2 : string) (vars : Z * Z * Z)
    (city_vec cs : list City) :
  ends_with_newline f1 = true ->
  (String.length f1 <= fuel)%nat ->
  read_from fuel f1 city_vec = Cities cs ->
  exists id c, last cs = Some c /\
    read_stored_from (fuel + String.length f2) (f1 +:+ f2) vars city_vec
    = read_stored_from (String.length f2) f2 (id, city_x c, city_y c) cs.
Proof.
  revert f1 vars city_vec.
  induction fuel as [|fuel IH]; intros f1 vars city_vec Hnl Hlen Hread.
  - destruct f1; [done | simpl in Hlen; lia].
  - assert (f1 <> ""%string) as Hf1 by (by intros ->).
    assert (f1 +:+ f2 <> ""%string) as Hf12 by (by destruct f1).
    change (S fuel + String.length f2)%nat with (S (fuel + String.length f2)).
    rewrite read_from_step in Hread by done.
    rewrite read_stored_from_step, fgets_app by done. cbn [fst snd].
    destruct (sscanf (fgets 999 f1).1) as [[[id x] y]|] eqn:Hscan; [|done].
    rewrite (sscanf_stored_determinate vars _ id x y Hscan). cbn [fst snd].
    pose proof (fgets_rest_length f1 Hf1) as Hshort.
    destruct (fgets_rest_whole 999 f1 Hnl) as [Hrest|Hrest].
    + rewrite Hrest in *. change ("" +:+ f2) with f2.
      assert (cs = city_vec ++ [mkCity x y]) as ->.
      { destruct fuel; simpl in Hread; by injection Hread. }
      exists id, (mkCity x y). split; [by rewrite last_snoc|].
      apply read_stored_from_fuel; lia.
    + apply IH; [done | lia | done].
Qed.

(** X24. What the program makes of a line of white space only: [sscanf]
    assigns nothing, and the city pushed has the coordinates the variables
    still hold from the line before.  After whole lines that read well, a
    blank last line thus repeats the last city. *)
Theorem blank_line_repeats_city (vars : Z * Z * Z) (f ws : string)
    (cs : list City) (c : City) :
  ends_with_newline f = true ->
  read f = Cities (cs ++ [c]) ->
  all_chars blank ws = true ->
  (String.length ws < 999)%nat ->
  read_stored vars (f +:+ ws +:+ String newline "") = cs ++ [c; c].
Proof.
  intros Hnl Hread Hws Hlen. unfold read_stored, read in *.
  rewrite string_app_length.
  destruct (read_stored_from_app (String.length f) f (ws +:+ String newline "")
              vars [] (cs ++ [c]) Hnl ltac:(lia) Hread) as (id & c' & Hlast & ->).
  rewrite last_snoc in Hlast. injection Hlast as <-.
  rewrite string_app_length. cbn [String.length].
  rewrite Nat.add_succ_r, read_stored_from_step by (by destruct ws).
  rewrite fgets_line; [|by apply (all_chars_impl blank);
                          [intros a [_ ?]%andb_true_iff|] | done].
  cbn [fst snd].
  assert (sscanf_stored (id, city_x c, city_y c) (ws +:+ String newline "")
          = (id, city_x c, city_y c)) as ->.
  { unfold sscanf_stored, scan_int.
    rewrite skip_space_all; [done|].
    apply (all_chars_impl blank); [|done]. by intros a [? _]%andb_true_iff. }
  cbn [fst snd]. destruct c as [x y]. cbn [city_x city_y].
  rewrite <- app_assoc. by destruct (String.length ws + 0)%nat.
Qed.

Lemma blank_line_repeats_city_witness :
  read_stored (7, 8, 9)
    (print [mkCity 1 2; mkCity 3 4] +:+ " " +:+ String newline "")
  = [mkCity 1 2] ++ [mkCity 3 4; mkCity 3 4].
Proof.
  apply (blank_line_repeats_city (7, 8, 9) (print [mkCity 1 2; mkCity 3 4]) " "
           [mkCity 1 2] (mkCity 3 4)).
  - vm_compute. reflexivity.
  - vm_compute. reflexivity.
  - reflexivity.
  - simpl. lia.
Defined.

(** ** The argument loop *)

Lemma parse_args_app (sys : system) (a1 a2 : list string) (i : nat) (st st' : settings) :
  parse_args sys i a1 st = Parsed st' ->
  parse_args sys i (a1 ++ a2) st = parse_args sys (i + length a1) a2 st'.
Proof.
  revert i st. induction a1 as [a1 IH] using (induction_ltof1 _ (@length string)).
  unfold ltof in IH. intros i st Hparse.
  destruct a1 as [|a rest].
  { simpl in *. injection Hparse as <-. by rewrite Nat.add_0_r. }
  cbn [parse_args app] in *.
  assert (forall rest' j st0,
            (length rest' < length (a :: rest))%nat ->
            (j + length rest' = i + length (a :: rest))%nat ->
            parse_args sys j rest' st0 = Parsed st' ->
            parse_args sys j (rest' ++ a2) st0
            = parse_args sys (i + length (a :: rest)) a2 st') as Hnext.
  { intros rest' j st0 Hlt Hj Hp. rewrite <- Hj. by apply IH. }
  destruct (String.eqb a "-v").
  { apply Hnext; [simpl; lia | simpl; lia | done]. }
  destruct (String.eqb a "-s").
  { destruct rest as [|v rest']; [done|]. cbn [app].
    cbv zeta in *. apply Hnext; [simpl; lia | simpl; lia | done]. }
  destruct (String.eqb a "-T").
  { destruct rest as [|v rest']; [done|]. cbn [app].
    cbv zeta in *. apply Hnext; [simpl; lia | simpl; lia | done]. }
  destruct (String.eqb a "-t").
  { destruct rest as [|v rest']; [done|]. cbn [app].
    cbv zeta in *. apply Hnext; [simpl; lia | simpl; lia | done]. }
  destruct (infile st), (outfile st); try done.
  - destruct (opens_for_writing sys a); [|done].
    apply Hnext; [simpl; lia | simpl; lia | done].
  - destruct (opens_for_reading sys a); [|done].
    apply Hnext; [simpl; lia | simpl; lia | done].
  - destruct (opens_for_reading sys a); [|done].
    apply Hnext; [simpl; lia | simpl; lia | done].
Qed.

(** An [exit] in the loop is final, whatever follows. *)
Lemma parse_args_stuck (sys : system) (a1 a2 : list string) (i : nat) (st : settings)
    (e : parse_end) :
  parse_args sys i a1 st = e ->
  (forall st', e <> Parsed st') -> e <> Null_argument ->
  parse_args sys i (a1 ++ a2) st = e.
Proof.
  revert i st. induction a1 as [a1 IH] using (induction_ltof1 _ (@length string)).
  unfold ltof in IH. intros i st Hparse Hnot Hnull.
  destruct a1 as [|a rest].
  { simpl in Hparse. by destruct (Hnot st). }
  cbn [parse_args app] in *.
  destruct (String.eqb a "-v").
  { apply IH; [simpl; lia | done..]. }
  destruct (String.eqb a "-s").
  { destruct rest as [|v rest']; [congruence|]. cbn [app].
    cbv zeta in *. apply IH; [simpl; lia | done..]. }
  destruct (String.eqb a "-T").
  { destruct rest as [|v rest']; [congruence|]. cbn [app].
    cbv zeta in *. apply IH; [simpl; lia | done..]. }
  destruct (String.eqb a "-t").
  { destruct rest as [|v rest']; [congruence|]. cbn [app].
    cbv zeta in *. apply IH; [simpl; lia | done..]. }
  destruct (infile st), (outfile st); try done.
  - destruct (opens_for_writing sys a); [|done]. apply IH; [simpl; lia | done..].
  - destruct (opens_for_reading sys a); [|done]. apply IH; [simpl; lia | done..].
  - destruct (opens_for_reading sys a); [|done]. apply IH; [simpl; lia | done..].
Qed.

(** The files of the settings were named by an argument and did open. *)
Lemma parse_args_files (sys : system) (args : list string) (i : nat) (st st' : settings) :
  parse_args sys i args st = Parsed st' ->
  (forall name, infile st' = Some name ->
     infile st = Some name \/ (name ∈ args /\ opens_for_reading sys name = true)) /\
  (forall name, outfile st' = Some name ->
     outfile st = Some name \/ (name ∈ args /\ opens_for_writing sys name = true)).
Proof.
  revert i st. induction args as [args IH] using (induction_ltof1 _ (@length string)).
  unfold ltof in IH. intros i st Hparse.
  destruct args as [|a rest].
  { simpl in Hparse. injection Hparse as <-. split; intros name Hname; by left. }
  cbn [parse_args] in Hparse.
  assert (forall rest' j st0,
            (length rest' < length (a :: rest))%nat ->
            (forall x, x ∈ rest' -> x ∈ a :: rest) ->
            parse_args sys j rest' st0 = Parsed st' ->
            (forall name, infile st0 = Some name ->
               infile st = Some name \/ (name = a /\ opens_for_reading sys a = true)) ->
            (forall name, outfile st0 = Some name ->
               outfile st = Some name \/ (name = a /\ opens_for_writing sys a = true)) ->
            (forall name, infile st' = Some name ->
               infile st = Some name \/
               (name ∈ a :: rest /\ opens_for_reading sys name = true)) /\
            (forall name, outfile st' = Some name ->
               outfile st = Some name \/
               (name ∈ a :: rest /\ opens_for_writing sys name = true))) as Hnext.
  { intros rest' j st0 Hlt Hsub Hp Hin Hout.
    destruct (IH rest' Hlt j st0 Hp) as [Hi Ho]. split; intros name Hname.
    - destruct (Hi name Hname) as [H0|[Hel Hopen]].
      + destruct (Hin name H0) as [?|[-> ?]]; [by left|].
        right. split; [by left | done].
      + right. split; [by apply Hsub | done].
    - destruct (Ho name Hname) as [H0|[Hel Hopen]].
      + destruct (Hout name H0) as [?|[-> ?]]; [by left|].
        right. split; [by left | done].
      + right. split; [by apply Hsub | done]. }
  assert (forall x, x ∈ rest -> x ∈ a :: rest) as Hsub1 by (intros x Hx; by right).
  destruct (String.eqb a "-v").
  { eapply Hnext; [| |exact Hparse| |]; [simpl; lia | done | by left | by left]. }
  destruct (String.eqb a "-s").
  { destruct rest as [|v rest']; [done|]. cbv zeta in Hparse.
    eapply Hnext; [| |exact Hparse| |]; [simpl; lia | | by left | by left].
    intros x Hx. by do 2 right. }
  destruct (String.eqb a "-T").
  { destruct rest as [|v rest']; [done|]. cbv zeta in Hparse.
    eapply Hnext; [| |exact Hparse| |]; [simpl; lia | | by left | by left].
    intros x Hx. by do 2 right. }
  destruct (String.eqb a "-t").
  { destruct rest as [|v rest']; [done|]. cbv zeta in Hparse.
    eapply Hnext; [| |exact Hparse| |]; [simpl; lia | | by left | by left].
    intros x Hx. by do 2 right. }
  destruct (infile st) as [f|] eqn:Hf, (outfile st) as [g|] eqn:Hg; try done.
  - destruct (opens_for_writing sys a) eqn:Hopen; [|done].
    eapply Hnext; [| |exact Hparse| |]; [simpl; lia | done | |]; simpl.
    + intros name Hname. left. congruence.
    + intros name [= <-]. by right.
  - destruct (opens_for_reading sys a) eqn:Hopen; [|done].
    eapply Hnext; [| |exact Hparse| |]; [simpl; lia | done | |]; simpl.
    + intros name [= <-]. by right.
    + intros name Hname. left. congruence.
  - destruct (opens_for_reading sys a) eqn:Hopen; [|done].
    eapply Hnext; [| |exact Hparse| |]; [simpl; lia | done | |]; simpl.
    + intros name [= <-]. by right.
    + intros name Hname. left. congruence.
Qed.

(** X15. The arguments are taken from left to right: when a first part of
    the arguments is processed to its end, the rest is processed from the
    settings it left; and an [exit] in the first part is final, whatever
    follows. *)
Theorem arguments_left_to_right (sys : system) (a1 a2 : list string) (i : nat)
    (st : settings) :
  (forall st', parse_args sys i a1 st = Parsed st' ->
     parse_args sys i (a1 ++ a2) st = parse_args sys (i + length a1) a2 st') /\
  (forall msg, parse_args sys i a1 st = Parse_exit msg ->
     parse_args sys i (a1 ++ a2) st = Parse_exit msg).
Proof.
  split.
  - intros st'. apply parse_args_app.
  - intros msg Hmsg. by apply parse_args_stuck.
Qed.

Lemma tsp_parse (sys : system) (prog : string) (args : list string) :
  args <> [] ->
  tsp sys prog args =
    match parse_args sys 1 args defaults with
    | Parsed st =>
        match infile st with
        | None => Stopped (Parse_exit (no_input_file prog))
        | Some _ =>
            let city_vec := read_stored (stack sys) (input sys) in
            let o := main city_vec (arg_start_city st) (arg_num_threads st)
                       (arg_stop_time st) (clock sys) (lock_order sys) in
            Ran o (match outfile st with
                   | None => None
                   | Some _ => Some (match o with
                                     | Printed p => printPath p
                                     | _ => ""%string
                                     end)
                   end)
        end
    | e => Stopped e
    end.
Proof. by destruct args. Qed.

(** X16. An option that takes a value is not checked for having one: as the
    last argument, [-s], [-T] or [-t] makes [main] pass [argv[argc]], a null
    pointer, to [atoi]. *)
Theorem option_without_value_reads_null (sys : system) (prog : string)
    (args : list string) (opt : string) (st : settings) :
  parse_args sys 1 args defaults = Parsed st ->
  takes_value opt = true ->
  tsp sys prog (args ++ [opt]) = Stopped Null_argument.
Proof.
  intros Hparse Hopt.
  rewrite tsp_parse by (by destruct args).
  rewrite (parse_args_app _ _ _ _ _ _ Hparse).
  unfold takes_value in Hopt.
  apply orb_true_iff in Hopt as [[Hopt|Hopt]%orb_true_iff|Hopt];
    apply String.eqb_eq in Hopt as ->; done.
Qed.

Lemma option_without_value_reads_null_witness :
  tsp (mkSystem (fun _ => 1700000000) (fun _ => true) (fun _ => true) "" (0, 0, 0)
         (fun _ _ => 0) [0%nat])
      "tsp" (["cities.txt"; "-v"] ++ ["-t"]) = Stopped Null_argument.
Proof.
  apply (option_without_value_reads_null
           (mkSystem (fun _ => 1700000000) (fun _ => true) (fun _ => true) "" (0, 0, 0)
              (fun _ _ => 0) [0%nat])
           "tsp" ["cities.txt"; "-v"] "-t"
           (mkSettings true 0 1 0 (Some "cities.txt") None));
    reflexivity.
Defined.

(** X17. Once an input and an output file are open, any further argument
    that is not an option ends the run with "Error on argument" and
    [exit(-1)], whatever follows it. *)
Theorem third_file_name_is_an_error (sys : system) (prog : string)
    (args rest : list string) (a : string) (st : settings) :
  parse_args sys 1 args defaults = Parsed st ->
  infile st <> None -> outfile st <> None ->
  is_option a = false ->
  tsp sys prog (args ++ a :: rest)
    = Stopped (Parse_exit ("Error on argument: '" +:+ a +:+ "'")).
Proof.
  intros Hparse Hin Hout Ha.
  rewrite tsp_parse by (by destruct args).
  rewrite (parse_args_app _ _ _ _ _ _ Hparse).
  unfold is_option in Ha.
  apply orb_false_iff in Ha as [[[Hv Hs]%orb_false_iff HT]%orb_false_iff Ht].
  cbn [parse_args]. rewrite Hv, Hs, HT, Ht.
  by destruct (infile st), (outfile st).
Qed.

Lemma third_file_name_is_an_error_witness :
  tsp (mkSystem (fun _ => 1700000000) (fun _ => true) (fun _ => true) "" (0, 0, 0)
         (fun _ _ => 0) [0%nat])
      "tsp" (["in.txt"; "out.txt"] ++ "4" :: ["-t"])
    = Stopped (Parse_exit ("Error on argument: '" +:+ "4" +:+ "'")).
Proof.
  apply (third_file_name_is_an_error
           (mkSystem (fun _ => 1700000000) (fun _ => true) (fun _ => true) "" (0, 0, 0)
              (fun _ _ => 0) [0%nat])
           "tsp" ["in.txt"; "out.txt"] ["-t"] "4"
           (mkSettings false 0 1 0 (Some "in.txt") (Some "out.txt")));
    [reflexivity | done | done | reflexivity].
Defined.

(** X18. The search runs only on an input that one of the arguments named
    and that opened; and an output file holds text only if an argument named
    it and it opened.  Nothing else is asked of the input: the search runs
    on whatever [read] made of it. *)
Theorem search_needs_input_file (sys : system) (prog : string) (args : list string)
    (o : outcome) (written : option string) :
  tsp sys prog args = Ran o written ->
  (exists name, name ∈ args /\ opens_for_reading sys name = true) /\
  (forall text, written = Some text ->
     exists name, name ∈ args /\ opens_for_writing sys name = true) /\
  exists st, parse_args sys 1 args defaults = Parsed st /\
    o = main (read_stored (stack sys) (input sys)) (arg_start_city st)
          (arg_num_threads st) (arg_stop_time st) (clock sys) (lock_order sys).
Proof.
  intros Hrun. destruct args as [|a args]; [done|].
  rewrite tsp_parse in Hrun by done.
  destruct (parse_args sys 1 (a :: args) defaults) as [| |st] eqn:Hparse; try done.
  destruct (parse_args_files _ _ _ _ _ Hparse) as [Hin Hout].
  destruct (infile st) as [f|] eqn:Hf; [|done].
  cbv zeta in Hrun. injection Hrun as Ho Hwritten. split_and!.
  - destruct (Hin f eq_refl) as [?|[? ?]]; [done|]. by exists f.
  - intros text Htext. destruct (outfile st) as [g|] eqn:Hg; [|congruence].
    destruct (Hout g eq_refl) as [?|[? ?]]; [done|]. by exists g.
  - by exists st.
Qed.

Lemma search_needs_input_file_witness :
  let sys := mkSystem (fun _ => 1700000000) (fun _ => true) (fun _ => true)
               (print [mkCity 0 0; mkCity 0 3; mkCity 4 3]) (0, 0, 0) (fun _ _ => 0)
               [0%nat] in
  (exists name, name ∈ ["in.txt"; "out.txt"]%string /\ opens_for_reading sys name = true) /\
  (forall text, Some (printPath (mkPath [0; 1; 2] 12)) = Some text ->
     exists name, name ∈ ["in.txt"; "out.txt"]%string /\ opens_for_writing sys name = true) /\
  exists st, parse_args sys 1 ["in.txt"; "out.txt"]%string defaults = Parsed st /\
    Printed (mkPath [0; 1; 2] 12)
    = main (read_stored (stack sys) (input sys)) (arg_start_city st)
        (arg_num_threads st) (arg_stop_time st) (clock sys) (lock_order sys).
Proof.
  apply (search_needs_input_file
           (mkSystem (fun _ => 1700000000) (fun _ => true) (fun _ => true)
              (print [mkCity 0 0; mkCity 0 3; mkCity 4 3]) (0, 0, 0) (fun _ _ => 0)
              [0%nat])
           "tsp" ["in.txt"; "out.txt"] (Printed (mkPath [0; 1; 2] 12))
           (Some (printPath (mkPath [0; 1; 2] 12)))).
  vm_compute. reflexivity.
Defined.

(** X19. The thread count is not validated.  A value of [-t] that is not a
    number counts as 0, like 0 itself, and [main] divides by it; a negative
    one becomes the size of the [bounds] vector, whose constructor throws. *)
Theorem thread_count_not_validated (sys : system) (prog : string)
    (args : list string) (v : string) (k : Z) (st : settings) :
  parse_args sys 1 args defaults = Parsed st ->
  infile st <> None ->
  atoi v = k -> k <= 0 ->
  tsp sys prog (args ++ ["-t"; v])
  = Ran (if k =? 0 then Division_by_zero else Uncaught_exception)
        (match outfile st with
         | Some _ => Some ""%string
         | None => None
         end).
Proof.
  intros Hparse Hin Hv Hk.
  rewrite tsp_parse by (by destruct args).
  rewrite (parse_args_app _ _ _ _ _ _ Hparse).
  cbn [parse_args]. rewrite Hv. cbn [String.eqb Ascii.eqb Bool.eqb]. cbv zeta.
  cbn [infile arg_num_threads arg_start_city arg_stop_time outfile].
  destruct (infile st); [|done].
  assert (main (read_stored (stack sys) (input sys)) (arg_start_city st) k
            (arg_stop_time st) (clock sys) (lock_order sys)
          = if k =? 0 then Division_by_zero else Uncaught_exception) as ->.
  { unfold main.
    destruct (initCosts_below_max (read_stored (stack sys) (input sys)))
      as (m & -> & _).
    destruct (Z.ltb_spec k 0), (Z.eqb_spec k 0); try lia; done. }
  by destruct (outfile st), (k =? 0).
Qed.

Lemma thread_count_not_validated_witness :
  tsp (mkSystem (fun _ => 1700000000) (fun _ => true) (fun _ => true)
         (print [mkCity 0 0; mkCity 0 3; mkCity 4 3]) (0, 0, 0) (fun _ _ => 0) [0%nat])
      "tsp" (["in.txt"] ++ ["-t"; "four"])
  = Ran (if 0 =? 0 then Division_by_zero else Uncaught_exception) None.
Proof.
  apply (thread_count_not_validated
           (mkSystem (fun _ => 1700000000) (fun _ => true) (fun _ => true)
              (print [mkCity 0 0; mkCity 0 3; mkCity 4 3]) (0, 0, 0) (fun _ _ => 0)
              [0%nat])
           "tsp" ["in.txt"] "four" 0
           (mkSettings false 0 1 0 (Some "in.txt") None)).
  - reflexivity.
  - done.
  - reflexivity.
  - lia.
Defined.

(** The start city and the thread count the loop leaves are [int]s. *)
Lemma parse_args_ints (sys : system) (args : list string) (i : nat) (st st' : settings) :
  parse_args sys i args st = Parsed st' ->
  Int.in_range (arg_start_city st) -> Int.in_range (arg_num_threads st) ->
  Int.in_range (arg_start_city st') /\ Int.in_range (arg_num_threads st').
Proof.
  revert i st. induction args as [args IH] using (induction_ltof1 _ (@length string)).
  unfold ltof in IH. intros i st Hparse Hs Ht.
  destruct args as [|a rest].
  { simpl in Hparse. by injection Hparse as <-. }
  cbn [parse_args] in Hparse.
  destruct (String.eqb a "-v").
  { eapply IH; [|exact Hparse|done..]. simpl. lia. }
  destruct (String.eqb a "-s").
  { destruct rest as [|v rest']; [done|]. cbv zeta in Hparse.
    eapply IH; [|exact Hparse| |done]; [simpl; lia|]. apply atoi_in_range. }
  destruct (String.eqb a "-T").
  { destruct rest as [|v rest']; [done|]. cbv zeta in Hparse.
    eapply IH; [|exact Hparse|done..]. simpl. lia. }
  destruct (String.eqb a "-t").
  { destruct rest as [|v rest']; [done|]. cbv zeta in Hparse.
    eapply IH; [|exact Hparse|done|]; [simpl; lia|]. apply atoi_in_range. }
  destruct (infile st), (outfile st); try done.
  - destruct (opens_for_writing sys a); [|done].
    eapply IH; [|exact Hparse|done..]. simpl. lia.
  - destruct (opens_for_reading sys a); [|done].
    eapply IH; [|exact Hparse|done..]. simpl. lia.
  - destruct (opens_for_reading sys a); [|done].
    eapply IH; [|exact Hparse|done..]. simpl. lia.
Qed.

(** X20. The program as a whole.  Let the arguments be processed to their
    end and name an input and an output file; let the input consist of
    well-formed lines for N >= 1 cities (N <= 46340, squared distances within
    [int]); let the start city be in [0, N), the thread count at least 1, and
    the deadline absent or never seen to pass.  Then the run returns with the
    output file holding the cost and the cities of one tour: the tour
    [calcPath] builds from one of the start cities, a permutation of
    [0 .. N-1], with its exact cost, which is least among the tours from all
    start cities from the offset on. *)
Theorem tsp_writes_least_cost_tour (sys : system) (prog : string) (args : list string)
    (st : settings) (rows : list (Z * City * string)) :
  parse_args sys 1 args defaults = Parsed st ->
  infile st <> None -> outfile st <> None ->
  input sys = input_text rows ->
  Forall (fun '(id, c, tail) => well_formed_line id c tail) rows ->
  let city_vec := (fun r => r.1.2) <$> rows in
  let n := Z.of_nat (length city_vec) in
  coords_fit city_vec ->
  n <= 46340 ->
  0 <= arg_start_city st < n ->
  1 <= arg_num_threads st ->
  (arg_stop_time st <= 0 \/ forall i k, clock sys i k <= arg_stop_time st) ->
  lock_order sys ≡ₚ seq 0 (Z.to_nat (arg_num_threads st)) ->
  exists m p c, initCosts city_vec = Ok m /\
    tsp sys prog args = Ran (Printed p) (Some (printPath p)) /\
    arg_start_city st <= c < n /\ calcPath m n c = Ok p /\
    path p ≡ₚ seqZ 0 n /\
    pathcost p = tour_cost m (path p) /\
    forall c' p', arg_start_city st <= c' < n -> calcPath m n c' = Ok p' ->
      pathcost p <= pathcost p'.
Proof.
  intros Hparse Hin Hout Hinput Hrows city_vec n Hfit Hn Hs Hw Hstop Hperm.
  assert (args <> []) as Hargs.
  { intros ->. simpl in Hparse. injection Hparse as <-. done. }
  destruct (parse_args_ints _ _ _ _ _ Hparse) as [_ Hw'];
    [unfold Int.in_range, INT_MIN, INT_MAX; simpl; lia..|].
  assert (1 <= arg_num_threads st <= INT_MAX) as Hthreads
    by (unfold Int.in_range in Hw'; lia).
  assert (exists m p c, initCosts city_vec = Ok m /\
            main city_vec (arg_start_city st) (arg_num_threads st) (arg_stop_time st)
              (clock sys) (lock_order sys) = Printed p /\
            arg_start_city st <= c < n /\ calcPath m n c = Ok p /\
            forall c' p', arg_start_city st <= c' < n -> calcPath m n c' = Ok p' ->
              pathcost p <= pathcost p')
    as (m & p & c & Hm & Hrun & Hc & Hcalc & Hleast).
  { destruct Hstop as [Hnone|Hclock].
    - by apply main_least_cost_tour.
    - destruct (main_least_cost_tour city_vec (arg_start_city st) (arg_num_threads st)
                  0 (clock sys) (lock_order sys) Hfit Hn Hs Hthreads ltac:(lia) Hperm)
        as (m & p & c & Hm & Hmain & Hrest).
      exists m, p, c. split; [done|]. split; [|done].
      rewrite <- Hmain. unfold main. rewrite Hm.
      by rewrite (thread_runs_unreached m _ _ _ _ _ Hclock). }
  destruct (calcPath_fit city_vec m c p Hfit Hn Hm ltac:(lia) Hcalc)
    as (Hexact & _ & Hpermutation).
  exists m, p, c. split; [done|]. split_and!; try done; try lia.
  rewrite tsp_parse by done. rewrite Hparse.
  destruct (infile st); [|done]. destruct (outfile st); [|done].
  assert (read_stored (stack sys) (input sys) = city_vec) as ->.
  { apply read_stored_determinate. rewrite Hinput. unfold read.
    by rewrite read_from_rows by (done || lia). }
  cbv zeta. by rewrite Hrun.
Qed.

Lemma tsp_writes_least_cost_tour_witness :
  let sys := mkSystem (fun _ => 1700000000) (fun _ => true) (fun _ => true)
               (input_text [(1, mkCity 0 0, ""%string); (2, mkCity 0 3, ""%string);
                            (3, mkCity 4 3, " depot"%string); (4, mkCity 9 9, ""%string)])
               (0, 0, 0) (fun _ k => 1700000000 + Z.min (Z.of_nat k) 30) [1%nat; 0%nat] in
  let city_vec := [mkCity 0 0; mkCity 0 3; mkCity 4 3; mkCity 9 9] in
  exists m p c, initCosts city_vec = Ok m /\
    tsp sys "tsp" ["-t"; "2"; "-T"; "60"; "cities.txt"; "-s"; "1"; "tour.txt"]
      = Ran (Printed p) (Some (printPath p)) /\
    1 <= c < 4 /\ calcPath m 4 c = Ok p /\
    path p ≡ₚ seqZ 0 4 /\
    pathcost p = tour_cost m (path p) /\
    forall c' p', 1 <= c' < 4 -> calcPath m 4 c' = Ok p' -> pathcost p <= pathcost p'.
Proof.
  apply (tsp_writes_least_cost_tour
           (mkSystem (fun _ => 1700000000) (fun _ => true) (fun _ => true)
              (input_text [(1, mkCity 0 0, ""%string); (2, mkCity 0 3, ""%string);
                           (3, mkCity 4 3, " depot"%string); (4, mkCity 9 9, ""%string)])
              (0, 0, 0) (fun _ k => 1700000000 + Z.min (Z.of_nat k) 30) [1%nat; 0%nat])
           "tsp" ["-t"; "2"; "-T"; "60"; "cities.txt"; "-s"; "1"; "tour.txt"]
           (mkSettings false 1 2 1700000060 (Some "cities.txt") (Some "tour.txt"))
           [(1, mkCity 0 0, ""%string); (2, mkCity 0 3, ""%string);
            (3, mkCity 4 3, " depot"%string); (4, mkCity 9 9, ""%string)]).
  - reflexivity.
  - done.
  - done.
  - reflexivity.
  - repeat constructor; simpl; unfold INT_MIN, INT_MAX; lia.
  - unfold coords_fit. repeat constructor; vm_compute; discriminate.
  - simpl. lia.
  - simpl. lia.
  - simpl. lia.
  - right. intros i k. simpl. lia.
  - simpl. apply perm_swap.
Defined.

(** ** [printPath] *)

Lemma line_inj (a b r r' : string) :
  all_chars not_newline a = true -> all_chars not_newline b = true ->
  a +:+ String newline r = b +:+ String newline r' -> a = b /\ r = r'.
Proof.
  revert b. induction a as [|c a IH]; intros [|d b] Ha Hb Heq.
  - by injection Heq.
  - rewrite string_app_cons in Heq. injection Heq as <- _.
    simpl in Hb. done.
  - rewrite string_app_cons in Heq. injection Heq as -> _.
    simpl in Ha. done.
  - rewrite !string_app_cons in Heq. injection Heq as <- Heq.
    simpl in Ha, Hb. apply andb_true_iff in Ha as [_ Ha].
    apply andb_true_iff in Hb as [_ Hb].
    destruct (IH b Ha Hb Heq) as [-> ->]. done.
Qed.

Lemma number_line_inj (z z' : Z) (r r' : string) :
  (pretty z +:+ String newline "") +:+ r = (pretty z' +:+ String newline "") +:+ r' ->
  z = z' /\ r = r'.
Proof.
  rewrite !line_app. intros Heq.
  destruct (line_inj _ _ _ _ (pretty_no_newline z) (pretty_no_newline z') Heq)
    as [Hz ->].
  split; [|done]. by apply (inj pretty).
Qed.

Lemma number_lines_inj (l l' : list Z) :
  foldr String.append "" ((fun c => pretty c +:+ String newline "") <$> l)
  = foldr String.append "" ((fun c => pretty c +:+ String newline "") <$> l') ->
  l = l'.
Proof.
  revert l'. induction l as [|z l IH]; intros [|z' l'] Heq; simpl in Heq.
  - done.
  - exfalso. destruct (pretty_Z_digits z') as (ds & Hz' & _).
    rewrite Hz' in Heq. by destruct (z' <? 0), ds.
  - exfalso. destruct (pretty_Z_digits z) as (ds & Hz & _).
    rewrite Hz in Heq. by destruct (z <? 0), ds.
  - apply number_line_inj in Heq as [-> Heq]. f_equal. by apply IH.
Qed.

(** X21. The text [printPath] writes determines the tour and its cost:
    two paths that print alike are the same. *)
Theorem printPath_determines_path (p q : Path) :
  printPath p = printPath q -> p = q.
Proof.
  unfold printPath. intros Heq.
  rewrite <- !string_app_assoc in Heq.
  apply number_line_inj in Heq as [Hcost Hpath%number_lines_inj].
  destruct p, q. simpl in *. by subst.
Qed.

Lemma printPath_determines_path_witness :
  mkPath [2; 0; 1] (7 + 7) = mkPath [2; 0; 1] 14.
Proof.
  apply (printPath_determines_path (mkPath [2; 0; 1] (7 + 7)) (mkPath [2; 0; 1] 14)).
  reflexivity.
Defined.

(** ** Lines that do not fit the buffer *)

Lemma fgets_buffer_length (room : nat) (f : string) :
  (String.length (fgets room f).1 <= room)%nat.
Proof.
  revert f. induction room as [|room IH]; intros f; [by destruct f|].
  destruct f as [|c f]; [simpl; lia|]. cbn [fgets].
  destruct (Ascii.eqb c newline); [simpl; lia|].
  specialize (IH f). destruct (fgets room f). simpl in *. lia.
Qed.

Lemma read_from_grows (fuel : nat) (f : string) (city_vec cs : list City) :
  read_from fuel f city_vec = Cities cs ->
  (length city_vec <= length cs)%nat /\
  (f <> ""%string -> (String.length f <= fuel)%nat ->
   (length city_vec + 1 <= length cs)%nat).
Proof.
  revert f city_vec. induction fuel as [|fuel IH]; intros f city_vec Hread.
  - destruct f; simpl in Hread; injection Hread as <-.
    + split; [lia | done].
    + split; [lia|]. simpl. lia.
  - destruct (decide (f = ""%string)) as [->|Hf].
    { simpl in Hread. injection Hread as <-. split; [lia | done]. }
    rewrite read_from_step in Hread by done.
    destruct (sscanf _) as [[[_ x] y]|]; [|done].
    apply IH in Hread as [Hle _]. rewrite length_app in Hle. simpl in Hle.
    split; [lia|]. intros _ _. lia.
Qed.

(** X22. A line of 999 characters or more does not fit the buffer of
    [read]: [fgets] hands it over in pieces and each piece makes a city, so
    the line counts for at least two cities, unless a piece leaves the cities
    indeterminate. *)
Theorem read_long_line (f1 l f2 : string) (cs1 cs : list City) :
  f1 = ""%string \/ ends_with_newline f1 = true ->
  all_chars not_newline l = true ->
  (999 <= String.length l)%nat ->
  read f1 = Cities cs1 ->
  read (f1 +:+ l +:+ String newline f2) = Cities cs ->
  (length cs1 + 2 <= length cs)%nat.
Proof.
  intros Hwhole _ Hlong Hf1. unfold read in *.
  rewrite string_app_length, read_from_app, Hf1 by done.
  set (g := l +:+ String newline f2).
  assert (String.length g = S (String.length l + String.length f2)) as Hg.
  { unfold g. rewrite string_app_length. simpl. lia. }
  assert (g <> ""%string) as Hne by (intros Heq; rewrite Heq in Hg; done).
  rewrite Hg, read_from_step by done.
  destruct (sscanf _) as [[[_ x] y]|]; [|done].
  intros Hread.
  pose proof (fgets_split 999 g) as Hsplit.
  pose proof (fgets_buffer_length 999 g) as Hbuf.
  pose proof (fgets_rest_length g Hne) as Hrestlen.
  pose proof (f_equal String.length Hsplit) as Hlen.
  rewrite string_app_length in Hlen.
  apply read_from_grows in Hread as [_ Hgrow].
  rewrite length_app in Hgrow. cbn [length] in Hgrow.
  assert (length cs1 + 1 + 1 <= length cs)%nat; [|lia].
  apply Hgrow; [|lia].
  intros Hrest. rewrite Hrest in Hlen. cbn [String.length] in Hlen. lia.
Qed.

Lemma read_long_line_witness :
  (length [mkCity 5 6] + 2
   <= length (mkCity 5 6 :: replicate 2 (mkCity 6 7)))%nat.
Proof.
  apply (read_long_line (print [mkCity 5 6])
           ("5 6 7 " +:+ foldr String.append "" (replicate 331 "   "%string) +:+ "5 6 7")
           "" [mkCity 5 6] (mkCity 5 6 :: replicate 2 (mkCity 6 7))).
  - right. vm_compute. reflexivity.
  - vm_compute. reflexivity.
  - vm_compute. lia.
  - vm_compute. reflexivity.
  - vm_compute. reflexivity.
Defined.

(** * The [Cost] class *)




